(** * The validated execution contract of api-template/src/index.ts

    [buildFunctionContext] wraps an asynchronous handler between three zod
    schemas and returns an object whose [execute] entry point validates the
    raw input, awaits the handler, validates what the handler returned and
    traps every exception of the handler and of the output validation.

    The development embeds the function as it is written: JavaScript values
    as an inductive type, the [async] function as a computation in a small
    monad that threads a store (the slots of the returned object and a trace
    of the calls made to the collaborators) and ends in a normal completion,
    an abrupt completion (a thrown value) or a suspension on a promise that
    never settles. *)

From Stdlib Require Import String Ascii ZArith List Arith Lia DecimalString.
Import ListNotations.
Open Scope string_scope.

Set Warnings "-register-all".

(** ** JavaScript values *)

(** The plain-data fragment of JavaScript values. Numbers are the
    integer-valued ones; objects are ordered lists of own properties. *)
Inductive Value : Type :=
| JUndefined
| JNull
| JBool (b : bool)
| JNum (n : Z)
| JStr (s : string)
| JObj (fields : list (string * Value)).

(** What a [throw] statement or a rejected promise carries:
    an instance of [Error] (of any subclass) with its [message],
    or any other value. [Error.message] is a string, as lib.d.ts declares. *)
Inductive Thrown : Type :=
| ErrorInstance (message : string)
| NotAnError (v : Value).

(** [v !== null] *)
Definition strict_neq_null (v : Value) : bool :=
  match v with
  | JNull => false
  | _ => true
  end.

Fixpoint lookup (k : string) (fields : list (string * Value)) : option Value :=
  match fields with
  | [] => None
  | (k', v) :: rest => if String.eqb k k' then Some v else lookup k rest
  end.

(** [k in obj] for an own property *)
Definition has_key (k : string) (fields : list (string * Value)) : bool :=
  match lookup k fields with
  | Some _ => true
  | None => false
  end.

(** [obj[k]]: [undefined] for a missing key *)
Definition get (k : string) (fields : list (string * Value)) : Value :=
  match lookup k fields with
  | Some x => x
  | None => JUndefined
  end.

(** The value of [v.k], when reading it does not throw: [None] for [null]
    and [undefined]. Only keys that no primitive wrapper defines are meant
    (the code reads [err], [res] and [id]). *)
Definition field (v : Value) (k : string) : option Value :=
  match v with
  | JObj fields => Some (get k fields)
  | JNull | JUndefined => None
  | JBool _ | JNum _ | JStr _ => Some JUndefined
  end.

(** ** zod schemas *)

(** The return value of [schema.safeParse(v)]:
    [{ success: true, data }] or [{ success: false, error }].
    The code never reads the [error] of a failed parse. *)
Inductive SafeParseReturn : Type :=
| Success (data : Value)
| Failure.

(** A [z.ZodType] whose [safeParse] returns on every value: the contract
    only ever calls [safeParse] on it. Schemas whose [safeParse] throws are
    the [ThrowingSchema]s further down. *)
Record Schema : Type := mkSchema { safeParse : Value -> SafeParseReturn }.

(** The zod combinators the repository uses in its contracts, with
    [z.null()], [.default(d)] and [.transform(f)]. *)
Inductive ZodType : Type :=
| ZAny
| ZNull
| ZNumber
| ZString
| ZObject (shape : list (string * ZodType))
| ZDefault (inner : ZodType) (d : Value)
| ZTransform (inner : ZodType) (f : Value -> Value).

(** How [z.object] parses the keys of its shape, given the parser of the
    member schemas: every key is parsed (a missing one as [undefined]), a
    key is set in the output when its parsed value is defined or the key
    was present in the input, and one failing key fails the object. *)
Definition parse_shape (parse : ZodType -> Value -> SafeParseReturn)
    (fields : list (string * Value))
  : list (string * ZodType) -> option (list (string * Value)) :=
  fix go (sh : list (string * ZodType)) : option (list (string * Value)) :=
    match sh with
    | [] => Some []
    | (k, tk) :: rest =>
        match parse tk (get k fields), go rest with
        | Success d, Some out =>
            match d with
            | JUndefined => if has_key k fields then Some ((k, d) :: out)
                            else Some out
            | _ => Some ((k, d) :: out)
            end
        | _, _ => None
        end
    end.

(** zod's synchronous parse. [z.object] accepts objects only and strips
    the keys that are not in its shape; [.default(d)] parses [d] in place
    of [undefined]; [.transform(f)] applies [f] to the parsed value. *)
Fixpoint zparse (t : ZodType) (v : Value) : SafeParseReturn :=
  match t with
  | ZAny => Success v
  | ZNull => match v with JNull => Success JNull | _ => Failure end
  | ZNumber => match v with JNum _ => Success v | _ => Failure end
  | ZString => match v with JStr _ => Success v | _ => Failure end
  | ZObject shape =>
      match v with
      | JObj fields =>
          match parse_shape zparse fields shape with
          | Some out => Success (JObj out)
          | None => Failure
          end
      | _ => Failure
      end
  | ZDefault inner d =>
      match v with
      | JUndefined => zparse inner d
      | _ => zparse inner v
      end
  | ZTransform inner f =>
      match zparse inner v with
      | Success d => Success (f d)
      | Failure => Failure
      end
  end.

Definition zod (t : ZodType) : Schema := mkSchema (zparse t).

(** [schema.safeParse(v).success] *)
Definition accepts (S : Schema) (v : Value) : Prop :=
  exists data, safeParse S v = Success data.

(** ** The call result *)

(** [{ res: R | null; err: E | null }] *)
Record Envelope : Type := mkEnvelope { res : Value; err : Value }.

(** ** Handlers *)

(** What a call [execution({ input, error })] can do. A handler declared
    [async] never throws synchronously, but the parameter type only asks
    for a function that returns a promise. *)
Inductive HandlerBehavior : Type :=
| Resolves (result : Value)
| ThrowsSync (e : Thrown)
| Rejects (e : Thrown)
| NeverSettles.

(** [execution]: receives the validated input and the error constructor. *)
Definition Execution : Type := Value -> (string -> Value) -> HandlerBehavior.

Definition settles (h : HandlerBehavior) : Prop := h <> NeverSettles.

(** ** The store and the trace *)

Inductive SchemaRole : Type := InputSchema | ResponseSchema | ErrorSchema.

(** The calls [execute] makes to its collaborators. *)
Inductive Event : Type :=
| SafeParsed (role : SchemaRole) (v : Value)
| Invoked (input : Value).

(** [{ validator: schema }] *)
Record Validator : Type := mkValidator { validator : Schema }.

(** The object returned by [buildFunctionContext] is an ordinary mutable
    object: its [input] and [response] slots live in the store, next to
    the trace of collaborator calls. *)
Record Store : Type := mkStore {
  slot_input : Validator;
  slot_response : Validator;
  trace : list Event
}.

Definition log (ev : Event) (s : Store) : Store :=
  mkStore (slot_input s) (slot_response s) (trace s ++ [ev]).

(** ** Computations *)

Inductive Completion (A : Type) : Type :=
| Normal (a : A)
| Abrupt (e : Thrown)
| Suspended.
Arguments Normal {A} a.
Arguments Abrupt {A} e.
Arguments Suspended {A}.

Definition M (A : Type) : Type := Store -> Completion A * Store.

Definition ret {A} (a : A) : M A := fun s => (Normal a, s).

Definition bind {A B} (m : M A) (k : A -> M B) : M B :=
  fun s =>
    match m s with
    | (Normal a, s') => k a s'
    | (Abrupt e, s') => (Abrupt e, s')
    | (Suspended, s') => (Suspended, s')
    end.

Definition throw {A} (e : Thrown) : M A := fun s => (Abrupt e, s).

(** [try { body } catch (e) { handler }] *)
Definition try_catch {A} (body : M A) (handler : Thrown -> M A) : M A :=
  fun s =>
    match body s with
    | (Abrupt e, s') => handler e s'
    | r => r
    end.

Definition emit (ev : Event) : M unit := fun s => (Normal tt, log ev s).

Notation "x <- m ;; k" := (bind m (fun x => k))
  (at level 61, m at next level, right associativity).
Notation "m ;;; k" := (bind m (fun _ => k))
  (at level 61, right associativity).

(** The state of the promise an [async] function returns. *)
Inductive Promise (A : Type) : Type :=
| Fulfilled (a : A)
| Rejected (e : Thrown)
| PendingForever.
Arguments Fulfilled {A} a.
Arguments Rejected {A} e.
Arguments PendingForever {A}.

Definition promise_of {A} (c : Completion A) : Promise A :=
  match c with
  | Normal a => Fulfilled a
  | Abrupt e => Rejected e
  | Suspended => PendingForever
  end.

(** ** The contract *)

(** [{ inputSchema, responseSchema, errorSchema, execution }] *)
Record BuildFunctionContextReq : Type := mkReq {
  inputSchema : Schema;
  responseSchema : Schema;
  errorSchema : Schema;
  execution : Execution
}.

(** [{ input: { validator }, response: { validator }, execute }] *)
Record BuildFunctionContextResult : Type := mkResult {
  ctx_input : Validator;
  ctx_response : Validator;
  ctx_execute : Value -> M Envelope
}.

Definition msg_invalid_input : string := "Invalid input".
Definition msg_invalid_error : string :=
  "Execution returned an invalid error object".
Definition msg_invalid_response : string :=
  "Execution returned an invalid response object".
Definition msg_unknown : string := "Unknown error".

(** [(message: string): E => ({ message }) as E] *)
Definition errorCreator (message : string) : Value :=
  JObj [("message", JStr message)].

(** [e instanceof Error ? e.message : "Unknown error"] *)
Definition thrown_message (e : Thrown) : string :=
  match e with
  | ErrorInstance message => message
  | NotAnError _ => msg_unknown
  end.

Section Contract.

(** The text of the [TypeError] the engine raises when a property of
    [null] or [undefined] is read: it differs between engines. *)
Variable nullish_access_message : Value -> string -> string.

(** [v.k]: a [TypeError] on [null] and [undefined]. *)
Definition get_prop (v : Value) (k : string) : M Value :=
  match field v k with
  | Some x => ret x
  | None => throw (ErrorInstance (nullish_access_message v k))
  end.

(** [schema.safeParse(v)], recorded in the trace. *)
Definition safeParse_call (role : SchemaRole) (S : Schema) (v : Value)
  : M SafeParseReturn :=
  emit (SafeParsed role v) ;;; ret (safeParse S v).

(** [await execution({ input, error })] *)
Definition await_execution (execution : Execution) (input : Value)
    (error : string -> Value) : M Value :=
  fun s =>
    match execution input error with
    | Resolves result => (Normal result, log (Invoked input) s)
    | ThrowsSync e => (Abrupt e, log (Invoked input) s)
    | Rejects e => (Abrupt e, log (Invoked input) s)
    | NeverSettles => (Suspended, log (Invoked input) s)
    end.

Variable params : BuildFunctionContextReq.

(** The body of the [try] block. *)
Definition execute_try (data : Value) : M Envelope :=
  result <- await_execution (execution params) data errorCreator ;;
  result_err <- get_prop result "err" ;;
  if strict_neq_null result_err then
    parsedErr <- safeParse_call ErrorSchema (errorSchema params) result_err ;;
    match parsedErr with
    | Failure => throw (ErrorInstance msg_invalid_error)
    | Success parsedErr_data => ret (mkEnvelope JNull parsedErr_data)
    end
  else
    result_res <- get_prop result "res" ;;
    parsedRes <- safeParse_call ResponseSchema (responseSchema params)
                   result_res ;;
    match parsedRes with
    | Failure => throw (ErrorInstance msg_invalid_response)
    | Success parsedRes_data => ret (mkEnvelope parsedRes_data JNull)
    end.

(** The [catch (e)] block. *)
Definition execute_catch (e : Thrown) : M Envelope :=
  let err := errorCreator (thrown_message e) in
  ret (mkEnvelope JNull err).

Definition execute (input : Value) : M Envelope :=
  parsedInput <- safeParse_call InputSchema (inputSchema params) input ;;
  match parsedInput with
  | Failure =>
      let err := JObj [("message", JStr msg_invalid_input)] in
      ret (mkEnvelope JNull err)
  | Success parsedInput_data =>
      try_catch (execute_try parsedInput_data) execute_catch
  end.

Definition buildFunctionContext : BuildFunctionContextResult :=
  mkResult (mkValidator (inputSchema params))
           (mkValidator (responseSchema params))
           execute.

(** The store right after construction: the slots of the fresh object,
    and no call made yet. *)
Definition constructed : Store :=
  mkStore (ctx_input buildFunctionContext)
          (ctx_response buildFunctionContext)
          [].

(** A caller awaiting [execute] on each input of a list in turn. The
    store is threaded through; a call that never settles blocks the
    caller. *)
Fixpoint run_calls (inputs : list Value) (s : Store) : Store :=
  match inputs with
  | [] => s
  | input :: rest =>
      match execute input s with
      | (Suspended, s') => s'
      | (_, s') => run_calls rest s'
      end
  end.

End Contract.

Arguments execute nullish_access_message params input s : rename.

(** The promise [execute(input)] returns when called in store [s]. *)
Definition promise (m : M Envelope) (s : Store) : Promise Envelope :=
  promise_of (fst (m s)).

(** The events a computation appends to the trace. *)
Definition calls_of {A} (m : M A) (s : Store) : list Event :=
  skipn (length (trace s)) (trace (snd (m s))).

(** The inputs the handler was invoked with, in order. *)
Definition invocations (evs : list Event) : list Value :=
  flat_map (fun ev => match ev with
                      | Invoked input => [input]
                      | SafeParsed _ _ => []
                      end) evs.

(** ** Properties of envelopes and schemas *)

Definition at_most_one_non_null (env : Envelope) : Prop :=
  res env = JNull \/ err env = JNull.

Definition exactly_one_non_null (env : Envelope) : Prop :=
  (res env = JNull /\ err env <> JNull)
  \/ (res env <> JNull /\ err env = JNull).

(** A schema whose parsed output is never [null]. *)
Definition never_null (S : Schema) : Prop :=
  forall v data, safeParse S v = Success data -> data <> JNull.

(** A schema that parses no non-null value to [null]. *)
Definition keeps_non_null (S : Schema) : Prop :=
  forall v data, v <> JNull -> safeParse S v = Success data -> data <> JNull.

(** A schema that accepts what it has parsed. *)
Definition reaccepts (S : Schema) : Prop :=
  forall v data, safeParse S v = Success data -> accepts S data.

(** Where the slots of a resolved envelope come from. *)
Inductive Provenance (params : BuildFunctionContextReq) : Envelope -> Prop :=
| FromResponseSchema v data :
    safeParse (responseSchema params) v = Success data ->
    Provenance params (mkEnvelope data JNull)
| FromErrorSchema v data :
    v <> JNull ->
    safeParse (errorSchema params) v = Success data ->
    Provenance params (mkEnvelope JNull data)
| FromContract message :
    Provenance params (mkEnvelope JNull (JObj [("message", JStr message)])).

(** The messages of the [{ message }] objects the contract builds itself
    in a call on [input], each with the path of [execute] that builds it:
    the early return on an invalid input, and the [catch] block after the
    handler threw or rejected, after a property of a [null] or [undefined]
    result was read, and after either output validation failed. *)
Inductive BuiltMessage (nullish_access_message : Value -> string -> string)
    (params : BuildFunctionContextReq) (input : Value) : string -> Prop :=
| InvalidInput :
    safeParse (inputSchema params) input = Failure ->
    BuiltMessage nullish_access_message params input msg_invalid_input
| HandlerThrew data e :
    safeParse (inputSchema params) input = Success data ->
    execution params data errorCreator = ThrowsSync e
    \/ execution params data errorCreator = Rejects e ->
    BuiltMessage nullish_access_message params input (thrown_message e)
| ResultUnreadable data result :
    safeParse (inputSchema params) input = Success data ->
    execution params data errorCreator = Resolves result ->
    field result "err" = None ->
    BuiltMessage nullish_access_message params input
      (nullish_access_message result "err")
| InvalidError data result r_err :
    safeParse (inputSchema params) input = Success data ->
    execution params data errorCreator = Resolves result ->
    field result "err" = Some r_err ->
    r_err <> JNull ->
    safeParse (errorSchema params) r_err = Failure ->
    BuiltMessage nullish_access_message params input msg_invalid_error
| InvalidResponse data result r_res :
    safeParse (inputSchema params) input = Success data ->
    execution params data errorCreator = Resolves result ->
    field result "err" = Some JNull ->
    field result "res" = Some r_res ->
    safeParse (responseSchema params) r_res = Failure ->
    BuiltMessage nullish_access_message params input msg_invalid_response.

(** Where the envelope of a call on [input] comes from: the success
    schema's parse of the [res] of the handler's result on the parsed
    input, the error schema's parse of its non-null [err], or a
    [{ message }] object built by the contract. *)
Inductive Origin (nullish_access_message : Value -> string -> string)
    (params : BuildFunctionContextReq) (input : Value) : Envelope -> Prop :=
| ParsedResponse data result r_res parsed :
    safeParse (inputSchema params) input = Success data ->
    execution params data errorCreator = Resolves result ->
    field result "err" = Some JNull ->
    field result "res" = Some r_res ->
    safeParse (responseSchema params) r_res = Success parsed ->
    Origin nullish_access_message params input (mkEnvelope parsed JNull)
| ParsedError data result r_err parsed :
    safeParse (inputSchema params) input = Success data ->
    execution params data errorCreator = Resolves result ->
    field result "err" = Some r_err ->
    r_err <> JNull ->
    safeParse (errorSchema params) r_err = Success parsed ->
    Origin nullish_access_message params input (mkEnvelope JNull parsed)
| BuiltByContract message :
    BuiltMessage nullish_access_message params input message ->
    Origin nullish_access_message params input
      (mkEnvelope JNull (JObj [("message", JStr message)])).

(** Schemas built without [.transform], whose object shapes list every
    key once (as an object literal does). *)
Fixpoint plain (t : ZodType) : Prop :=
  match t with
  | ZAny | ZNull | ZNumber | ZString => True
  | ZObject shape =>
      NoDup (map fst shape)
      /\ (fix all (sh : list (string * ZodType)) : Prop :=
            match sh with
            | [] => True
            | (_, tk) :: rest => plain tk /\ all rest
            end) shape
  | ZDefault inner _ => plain inner
  | ZTransform _ _ => False
  end.

(** ** Example contracts *)

(** JavaScriptCore's wording of the [TypeError] (the repository runs on
    Bun), for a read of [expr.k]. *)
Definition jsc_message (expr : string) (v : Value) (k : string) : string :=
  (match v with JNull => "null" | _ => "undefined" end)
    ++ " is not an object (evaluating '" ++ expr ++ "." ++ k ++ "')".

(** [execute] reads the properties of [result]. *)
Definition jsc_nullish_access_message : Value -> string -> string :=
  jsc_message "result".

(** [x < 0]. The operand is a number wherever [foo] evaluates it (see
    [foo_input_id_is_number]); the coercions of other operands are not
    modelled. *)
Definition lt_zero (x : Value) : bool :=
  match x with
  | JNum n => (n <? 0)%Z
  | _ => false
  end.

(** The handler of [foo]. It is an [async] arrow function: a [TypeError]
    on reading [input.id] would reject its promise. *)
Definition foo_execution : Execution :=
  fun input error =>
    match field input "id" with
    | None => Rejects (ErrorInstance (jsc_message "input" input "id"))
    | Some id =>
        if lt_zero id then
          Resolves (JObj [("res", JNull); ("err", error "Invalid ID")])
        else
          Resolves (JObj [("res", JObj [("id", id); ("name", JStr "Test")]);
                          ("err", JNull)])
    end.

Definition id_schema : Schema := zod (ZObject [("id", ZNumber)]).
Definition id_name_schema : Schema :=
  zod (ZObject [("id", ZNumber); ("name", ZString)]).
Definition message_schema : Schema := zod (ZObject [("message", ZString)]).

Definition foo_params : BuildFunctionContextReq :=
  mkReq id_schema id_name_schema message_schema foo_execution.

Definition foo : BuildFunctionContextResult :=
  buildFunctionContext jsc_nullish_access_message foo_params.

Definition fresh (params : BuildFunctionContextReq) : Store :=
  constructed jsc_nullish_access_message params.


(** A handler that throws a string. *)
Definition throw_string_params : BuildFunctionContextReq :=
  mkReq id_schema id_name_schema message_schema
        (fun _ _ => ThrowsSync (NotAnError (JStr "boom"))).

(** A handler that resolves with [undefined]. *)
Definition undefined_result_params : BuildFunctionContextReq :=
  mkReq id_schema id_name_schema message_schema
        (fun _ _ => Resolves JUndefined).

(** A handler that returns a non-object where the success schema wants an
    object. *)
Definition malformed_res_params : BuildFunctionContextReq :=
  mkReq id_schema id_name_schema message_schema
        (fun _ _ => Resolves (JObj [("res", JStr "not-an-object");
                                    ("err", JNull)])).

(** A handler whose declared error has no [message]. *)
Definition malformed_err_params : BuildFunctionContextReq :=
  mkReq id_schema id_name_schema message_schema
        (fun _ _ => Resolves (JObj [("res", JNull);
                                    ("err", JObj [("code", JNum 500)])])).

(** A handler that fills both slots. *)
Definition both_slots_params : BuildFunctionContextReq :=
  mkReq id_schema id_name_schema message_schema
        (fun input error =>
           Resolves (JObj [("res", JObj [("id", JNum 1);
                                         ("name", JStr "Test")]);
                           ("err", error "Conflict")])).

(** A handler whose envelope has no [err] key. *)
Definition missing_err_params : BuildFunctionContextReq :=
  mkReq id_schema id_name_schema message_schema
        (fun input error =>
           Resolves (JObj [("res", JObj [("id", JNum 1);
                                         ("name", JStr "Test")])])).

(** A handler whose values carry more than the schemas describe, and less:
    the success value has a key the success schema does not list and lacks
    one that has a default. *)
Definition verbose_params : BuildFunctionContextReq :=
  mkReq id_schema
        (zod (ZObject [("id", ZNumber);
                       ("role", ZDefault ZString (JStr "user"))]))
        message_schema
        (fun input error =>
           match field input "id" with
           | Some (JNum 0) =>
               Resolves (JObj [("res", JNull);
                               ("err", JObj [("message", JStr "No such user");
                                             ("stack", JStr "at db.ts:12")])])
           | _ =>
               Resolves (JObj [("res", JObj [("id", JNum 1);
                                             ("password", JStr "hunter2")]);
                               ("err", JNull)])
           end).

(** An operation with nothing to return: its success schema is
    [z.null()], and the handler reports success as
    [{ res: null, err: null }]. *)
Definition void_params : BuildFunctionContextReq :=
  mkReq id_schema (zod ZNull) message_schema
        (fun _ _ => Resolves (JObj [("res", JNull); ("err", JNull)])).

(** An error schema richer than [{ message: string }]. *)
Definition coded_error_schema : Schema :=
  zod (ZObject [("code", ZNumber); ("message", ZString)]).

Definition coded_error_params : BuildFunctionContextReq :=
  mkReq id_schema id_name_schema coded_error_schema
        (fun input error =>
           Resolves (JObj [("res", JNull);
                           ("err", JObj [("code", JNum 404);
                                         ("message", JStr "Not found")])])).

Definition coded_error_boom_params : BuildFunctionContextReq :=
  mkReq id_schema id_name_schema coded_error_schema
        (fun _ _ => Rejects (ErrorInstance "boom")).

(** [s => s.length], on strings. *)
Definition string_length (v : Value) : Value :=
  match v with
  | JStr s => JNum (Z.of_nat (String.length s))
  | _ => JUndefined
  end.

(** A success schema [z.string().transform(s => s.length)]. *)
Definition length_params : BuildFunctionContextReq :=
  mkReq id_schema (zod (ZTransform ZString string_length)) message_schema
        (fun _ _ => Resolves (JObj [("res", JStr "abc"); ("err", JNull)])).

(** ** Schemas whose [safeParse] throws *)

(** [safeParse] reports an invalid value in what it returns, but it
    catches nothing: what a refinement or a transform of the schema
    throws leaves [safeParse] as an exception, and so does the [Error]
    zod raises for an async refinement met by the synchronous parse. *)
Inductive SafeParseOutcome : Type :=
| Returned (r : SafeParseReturn)
| Threw (e : Thrown).

Record ThrowingSchema : Type :=
  mkThrowingSchema { safeParse_outcome : Value -> SafeParseOutcome }.

(** A schema whose [safeParse] always returns. *)
Definition returning (S : Schema) : ThrowingSchema :=
  mkThrowingSchema (fun v => Returned (safeParse S v)).

(** [schema.refine(check)] for a [check] that may throw, on a schema
    that fails on a mismatch of types only (as those of [foo] do): the
    check runs on the parsed value of a valid input, and a [false] fails
    the parse. *)
Definition refine (S : Schema) (check : Value -> Thrown + bool)
  : ThrowingSchema :=
  mkThrowingSchema
    (fun v =>
       match safeParse S v with
       | Failure => Returned Failure
       | Success data =>
           match check data with
           | inl e => Threw e
           | inr true => Returned (Success data)
           | inr false => Returned Failure
           end
       end).

(** [{ inputSchema, responseSchema, errorSchema, execution }] over such
    schemas. *)
Record ThrowingReq : Type := mkThrowingReq {
  throwing_inputSchema : ThrowingSchema;
  throwing_responseSchema : ThrowingSchema;
  throwing_errorSchema : ThrowingSchema;
  throwing_execution : Execution
}.

Definition returning_params (params : BuildFunctionContextReq) : ThrowingReq :=
  mkThrowingReq (returning (inputSchema params))
                (returning (responseSchema params))
                (returning (errorSchema params))
                (execution params).

Section ThrowingContract.

Variable nullish_access_message : Value -> string -> string.

(** [schema.safeParse(v)], recorded in the trace; an exception of the
    schema is thrown on. *)
Definition safeParse_or_throw (role : SchemaRole) (S : ThrowingSchema)
    (v : Value) : M SafeParseReturn :=
  emit (SafeParsed role v) ;;;
  match safeParse_outcome S v with
  | Returned r => ret r
  | Threw e => throw e
  end.

Variable params : ThrowingReq.

(** The body of the [try] block: both output validations are inside. *)
Definition execute_try_throwing (data : Value) : M Envelope :=
  result <- await_execution (throwing_execution params) data errorCreator ;;
  result_err <- get_prop nullish_access_message result "err" ;;
  if strict_neq_null result_err then
    parsedErr <- safeParse_or_throw ErrorSchema (throwing_errorSchema params)
                   result_err ;;
    match parsedErr with
    | Failure => throw (ErrorInstance msg_invalid_error)
    | Success parsedErr_data => ret (mkEnvelope JNull parsedErr_data)
    end
  else
    result_res <- get_prop nullish_access_message result "res" ;;
    parsedRes <- safeParse_or_throw ResponseSchema
                   (throwing_responseSchema params) result_res ;;
    match parsedRes with
    | Failure => throw (ErrorInstance msg_invalid_response)
    | Success parsedRes_data => ret (mkEnvelope parsedRes_data JNull)
    end.

(** [execute]: the input validation is the first statement of the
    function, before the [try]. *)
Definition execute_throwing (input : Value) : M Envelope :=
  parsedInput <- safeParse_or_throw InputSchema (throwing_inputSchema params)
                   input ;;
  match parsedInput with
  | Failure =>
      let err := JObj [("message", JStr msg_invalid_input)] in
      ret (mkEnvelope JNull err)
  | Success parsedInput_data =>
      try_catch (execute_try_throwing parsedInput_data) execute_catch
  end.

End ThrowingContract.

Arguments execute_throwing nullish_access_message params input s : rename.

(** [(value) => { if (value.id === 0) throw new Error("id must not be
    zero"); return true; }] *)
Definition nonzero_id (value : Value) : Thrown + bool :=
  match field value "id" with
  | Some (JNum 0) => inl (ErrorInstance "id must not be zero")
  | _ => inr true
  end.

(** The contract [foo] with its input schema refined by [nonzero_id]. *)
Definition refined_input_params : ThrowingReq :=
  mkThrowingReq (refine id_schema nonzero_id)
                (returning id_name_schema)
                (returning message_schema)
                foo_execution.

(** The same refinement on the success schema, and on the error
    schema. *)
Definition refined_response_params : ThrowingReq :=
  mkThrowingReq (returning id_schema)
                (refine id_name_schema nonzero_id)
                (returning message_schema)
                foo_execution.

Definition refined_error_params : ThrowingReq :=
  mkThrowingReq (returning id_schema)
                (returning id_name_schema)
                (refine message_schema
                   (fun _ => inl (ErrorInstance "id must not be zero")))
                foo_execution.

(** ** The deployment scripts: command-line parsing *)

(** What [parseArgs] reads from [process]: [process.argv.slice(2)] and two
    environment variables ([None] when unset). *)
Record Process : Type := mkProcess {
  args_of : list string;
  RENDER_API_KEY : option string;
  RENDER_OWNER_ID : option string
}.

(** JavaScript truthiness: what [if (v)], [!v] and [v || w] test. *)
Definition truthy (v : Value) : bool :=
  match v with
  | JUndefined | JNull => false
  | JBool b => b
  | JNum n => negb (n =? 0)%Z
  | JStr s => negb (s =? "")
  | JObj _ => true
  end.

(** [a || b] *)
Definition js_or (a b : Value) : Value := if truthy a then a else b.

(** A string that may be [undefined]. *)
Definition of_option (o : option string) : Value :=
  match o with
  | Some s => JStr s
  | None => JUndefined
  end.

(** [obj[k] = v]: a key that exists keeps its place, a new one goes last. *)
Fixpoint assign (k : string) (v : Value) (fields : list (string * Value))
  : list (string * Value) :=
  match fields with
  | [] => [(k, v)]
  | (k', x) :: rest =>
      if String.eqb k k' then (k, v) :: rest else (k', x) :: assign k v rest
  end.

(** The decimal text of an index or a status, as a template literal
    prints it. *)
Definition decimal (n : nat) : string :=
  NilEmpty.string_of_uint (Nat.to_uint n).

(** [{ message }] *)
Definition error_of (message : string) : Value :=
  JObj [("message", JStr message)].

(** The [switch] of the service script: the property each flag sets. *)
Definition service_flag (flag : string) : option string :=
  if flag =? "--repo" then Some "repoName"
  else if flag =? "--service" then Some "serviceName"
  else if flag =? "--key" then Some "apiKey"
  else if flag =? "--owner" then Some "ownerId"
  else None.

(** The [switch] of the database script. *)
Definition postgres_flag (flag : string) : option string :=
  if flag =? "--name" then Some "dbName"
  else if flag =? "--key" then Some "apiKey"
  else if flag =? "--owner" then Some "ownerId"
  else if flag =? "--region" then Some "region"
  else if flag =? "--plan" then Some "plan"
  else if flag =? "--version" then Some "version"
  else None.

(** The [for] loop of [parseArgs]: [rest] is [args] from index [i] on, so
    [flag] is [args[i]] and [value] is [args[i + 1]] ([undefined] past the
    end). The loop ends early with the message of the error it returns. *)
Fixpoint parse_pairs (flag_property : string -> option string) (i : nat)
    (rest : list string) (parsed : list (string * Value))
  : string + list (string * Value) :=
  match rest with
  | [] => inr parsed
  | flag :: [] => inl ("Missing flag or value at index " ++ decimal i)
  | flag :: value :: rest' =>
      if (negb (truthy (JStr flag)) || negb (truthy (JStr value)))%bool then
        inl ("Missing flag or value at index " ++ decimal i)
      else
        match flag_property flag with
        | Some property =>
            parse_pairs flag_property (i + 2) rest'
              (assign property (JStr value) parsed)
        | None => inl ("Unknown flag " ++ flag)
        end
  end.

(** [if (!parsed.k && process.env.V) parsed.k = process.env.V] *)
Definition env_fallback (k : string) (env : option string)
    (parsed : list (string * Value)) : list (string * Value) :=
  if (negb (truthy (get k parsed)) && truthy (of_option env))%bool
  then assign k (of_option env) parsed
  else parsed.

(** [parseArgs], for the [switch] of either script. *)
Definition parseArgs_with (flag_property : string -> option string)
    (process : Process) : Envelope :=
  let args := args_of process in
  if negb (length args mod 2 =? 0)%nat then
    mkEnvelope JNull
      (error_of "Arguments must be provided as flag-value pairs")
  else
    match parse_pairs flag_property 0 args [] with
    | inl message => mkEnvelope JNull (error_of message)
    | inr parsed =>
        let parsed := env_fallback "apiKey" (RENDER_API_KEY process) parsed in
        let parsed :=
          env_fallback "ownerId" (RENDER_OWNER_ID process) parsed in
        mkEnvelope (JObj parsed) JNull
    end.

(** [parseArgs] of the service script and of the database script. *)
Definition service_parseArgs : Process -> Envelope :=
  parseArgs_with service_flag.

Definition postgres_parseArgs : Process -> Envelope :=
  parseArgs_with postgres_flag.

(** Arguments that are flag-value pairs, each with a known flag and
    neither part empty. *)
Fixpoint well_formed (flag_property : string -> option string)
    (args : list string) : Prop :=
  match args with
  | [] => True
  | _ :: [] => False
  | flag :: value :: rest =>
      flag <> "" /\ value <> "" /\ flag_property flag <> None
      /\ well_formed flag_property rest
  end.

(** The value the command line gives to a property: that of the last
    pair whose flag sets it, [undefined] when there is none. *)
Fixpoint cli_value (flag_property : string -> option string)
    (property : string) (args : list string) : Value :=
  match args with
  | flag :: value :: rest =>
      match cli_value flag_property property rest with
      | JUndefined =>
          match flag_property flag with
          | Some k => if String.eqb k property then JStr value else JUndefined
          | None => JUndefined
          end
      | v => v
      end
  | _ => JUndefined
  end.

(** A non-empty string. *)
Definition non_empty_string (v : Value) : Prop :=
  exists s, v = JStr s /\ s <> "".

(** The value a property has after the fallback to an environment
    variable. *)
Definition with_fallback (cli : Value) (env : option string) : Value :=
  match cli with
  | JUndefined =>
      match env with
      | Some s => if s =? "" then JUndefined else JStr s
      | None => JUndefined
      end
  | v => v
  end.

(** ** The deployment scripts: schemas *)

(** [z.string()] with a check on the text, such as [.min(1)] or
    [.url()]. *)
Definition string_where (check : string -> bool) : Schema :=
  mkSchema (fun v => match v with
                     | JStr s => if check s then Success v else Failure
                     | _ => Failure
                     end).

(** [.min(1)] *)
Definition min_1 (s : string) : bool := (1 <=? String.length s)%nat.

(** [z.object] over member schemas: as [parse_shape]. *)
Fixpoint parse_members (fields : list (string * Value))
    (shape : list (string * Schema)) : option (list (string * Value)) :=
  match shape with
  | [] => Some []
  | (k, member) :: rest =>
      match safeParse member (get k fields), parse_members fields rest with
      | Success d, Some out =>
          match d with
          | JUndefined => if has_key k fields then Some ((k, d) :: out)
                          else Some out
          | _ => Some ((k, d) :: out)
          end
      | _, _ => None
      end
  end.

Definition object_schema (shape : list (string * Schema)) : Schema :=
  mkSchema (fun v => match v with
                     | JObj fields =>
                         match parse_members fields shape with
                         | Some out => Success (JObj out)
                         | None => Failure
                         end
                     | _ => Failure
                     end).

(** [.optional()]: [undefined] is accepted as it is. *)
Definition optional (inner : Schema) : Schema :=
  mkSchema (fun v => match v with
                     | JUndefined => Success JUndefined
                     | _ => safeParse inner v
                     end).

(** [.default(d)]: [d] is parsed in place of [undefined]. *)
Definition with_default (inner : Schema) (d : Value) : Schema :=
  mkSchema (fun v => match v with
                     | JUndefined => safeParse inner d
                     | _ => safeParse inner v
                     end).

(** The text a template literal gives a value (integers below 10^21). *)
Definition to_text (v : Value) : string :=
  match v with
  | JUndefined => "undefined"
  | JNull => "null"
  | JBool true => "true"
  | JBool false => "false"
  | JNum n => NilEmpty.string_of_int (Z.to_int n)
  | JStr s => s
  | JObj _ => "[object Object]"
  end.

(** [v?.k] *)
Definition optional_chain (v : Value) (k : string) : Value :=
  match field v k with
  | Some x => x
  | None => JUndefined
  end.

(** ** The deployment scripts: the request to the platform *)

(** The arguments of [fetch]; [req_body] is the object that
    [JSON.stringify] serialises. *)
Record Request : Type := mkRequest {
  req_url : string;
  req_method : string;
  req_headers : list (string * string);
  req_body : Value
}.

(** What the code reads of a [Response]; [text] is the outcome of
    [await response.text()]. *)
Record HttpResponse : Type := mkHttpResponse {
  status : nat;
  statusText : string;
  text : Completion string
}.

(** [response.ok]: a status from 200 to 299. *)
Definition ok (response : HttpResponse) : bool :=
  ((200 <=? status response)%nat && (status response <=? 299)%nat)%bool.

(** The outcome of [await fetch(...)]. *)
Inductive FetchResult : Type :=
| FetchResolves (response : HttpResponse)
| FetchRejects (e : Thrown)
| FetchPending.

(** Sequencing of completions. *)
Definition and_then {A B} (c : Completion A) (k : A -> Completion B)
  : Completion B :=
  match c with
  | Normal a => k a
  | Abrupt e => Abrupt e
  | Suspended => Suspended
  end.

(** [try { body } catch (e) { handler }] on completions. *)
Definition catching {A} (body : Completion A) (handler : Thrown -> Completion A)
  : Completion A :=
  match body with
  | Abrupt e => handler e
  | c => c
  end.

(** How [main] ends: [process.exit(1)] after reporting a message, normal
    completion after logging the created resource, a rejection (which
    [main().catch] logs), or never. *)
Inductive MainOutcome : Type :=
| UsageError (message : Value)
| CreationError (message : Value)
| Created (res : Value)
| ScriptError (e : Thrown)
| Waiting.

(** The argument of [process.exit], when [main] calls it. *)
Definition exit_code (o : MainOutcome) : option nat :=
  match o with
  | UsageError _ | CreationError _ => Some 1
  | _ => None
  end.

Section Scripts.

(** [JSON.parse]: [None] for a [SyntaxError]. *)
Variable JSON_parse : string -> option Value.

(** The check of [z.string().url()]. *)
Variable is_url : string -> bool.

(** [parsedInput.error.message]: the text zod gives for an input it
    rejects. *)
Variable input_error_message : Value -> string.

(** The text of the [TypeError] for a property read on [null] or
    [undefined]. *)
Variable nullish_access_message : Value -> string -> string.

Variable fetch : Request -> FetchResult.

(** [v.k], which throws on [null] and [undefined]. *)
Definition read (v : Value) (k : string) : Completion Value :=
  match field v k with
  | Some x => Normal x
  | None => Abrupt (ErrorInstance (nullish_access_message v k))
  end.

(** The error message of a response that is not [ok]: the inner [try]
    leaves the default in place when the body is not JSON or is
    [null]. *)
Definition error_message_of (response : HttpResponse) (responseText : string)
  : Value :=
  let errorMessage :=
    JStr ("HTTP " ++ decimal (status response) ++ ": "
            ++ statusText response) in
  match JSON_parse responseText with
  | Some errorData =>
      match field errorData "message", field errorData "error" with
      | Some message, Some error => js_or (js_or message error) errorMessage
      | _, _ => errorMessage
      end
  | None => errorMessage
  end.

Definition service_InputSchema : Schema :=
  object_schema [("repoName", string_where min_1);
                 ("apiKey", string_where min_1);
                 ("serviceName", string_where min_1);
                 ("ownerId", string_where min_1)].

Definition service_ResponseSchema : Schema :=
  object_schema [("id", zod ZString);
                 ("name", zod ZString);
                 ("url", string_where is_url)].

(** The [fetch] call of [createRenderService]. *)
Definition service_request (data : Value) : Request :=
  let repoName := optional_chain data "repoName" in
  let apiKey := optional_chain data "apiKey" in
  let serviceName := optional_chain data "serviceName" in
  let ownerId := optional_chain data "ownerId" in
  let requestBody :=
    JObj [("type", JStr "web_service");
          ("name", serviceName);
          ("ownerId", ownerId);
          ("repo", JStr ("https://github.com/" ++ to_text repoName));
          ("branch", JStr "master");
          ("autoDeploy", JStr "yes");
          ("serviceDetails",
           JObj [("runtime", JStr "node");
                 ("buildCommand", JStr "bun install");
                 ("startCommand", JStr "bun run src/index.ts");
                 ("instanceType", JStr "starter_v2");
                 ("env", JStr "node");
                 ("envSpecificDetails",
                  JObj [("buildCommand", JStr "bun install");
                        ("startCommand", JStr "bun run src/index.ts")])])] in
  mkRequest "https://api.render.com/v1/services" "POST"
    [("Authorization", "Bearer " ++ to_text apiKey);
     ("Content-Type", "application/json");
     ("Accept", "application/json")]
    requestBody.

(** From the parsed body of an [ok] response to the result. *)
Definition service_of_data (serviceName : Value) (data : Value)
  : Completion Envelope :=
  and_then (read data "service") (fun data_service =>
  and_then (if truthy data_service then Normal (Some data_service)
            else and_then (read data "id") (fun data_id =>
                 Normal (if truthy data_id then Some data else None)))
    (fun found =>
  match found with
  | None =>
      Normal (mkEnvelope JNull
                (error_of "Unexpected response structure from Render API"))
  | Some serviceData =>
      and_then (read serviceData "serviceDetails") (fun serviceDetails =>
      and_then (if truthy (optional_chain serviceDetails "url")
                then Normal (optional_chain serviceDetails "url")
                else and_then (read serviceData "url") (fun url =>
                     Normal (if truthy url then url
                             else JStr ("https://" ++ to_text serviceName
                                          ++ ".onrender.com"))))
        (fun serviceUrl =>
      and_then (read serviceData "id") (fun id =>
      and_then (read serviceData "name") (fun name =>
      match safeParse service_ResponseSchema
              (JObj [("id", id); ("name", name); ("url", serviceUrl)]) with
      | Failure =>
          Normal (mkEnvelope JNull
                    (error_of "Invalid response structure from Render API"))
      | Success parsedResponse_data =>
          Normal (mkEnvelope parsedResponse_data JNull)
      end))))
  end)).

(** The [try] block of [createRenderService], from the outcome of
    [fetch] on. *)
Definition service_try (serviceName : Value) (fetched : FetchResult)
  : Completion Envelope :=
  match fetched with
  | FetchRejects e => Abrupt e
  | FetchPending => Suspended
  | FetchResolves response =>
      and_then (text response) (fun responseText =>
      if negb (ok response) then
        Normal (mkEnvelope JNull
                  (JObj [("message",
                          error_message_of response responseText)]))
      else
        match JSON_parse responseText with
        | None =>
            Normal (mkEnvelope JNull (error_of "Response is not valid JSON"))
        | Some data => service_of_data serviceName data
        end)
  end.

(** The outer [catch (e)]. *)
Definition script_catch (e : Thrown) : Completion Envelope :=
  Normal (mkEnvelope JNull (error_of (thrown_message e))).

(** [createRenderService]: the requests it sends and the promise it
    returns. *)
Definition createRenderService (input : Value)
  : list Request * Promise Envelope :=
  match safeParse service_InputSchema input with
  | Failure =>
      ([],
       Fulfilled
         (mkEnvelope JNull
            (JObj [("message",
                    js_or (JStr (input_error_message input))
                          (JStr "Invalid input"))])))
  | Success data =>
      let request := service_request data in
      ([request],
       promise_of
         (catching (service_try (optional_chain data "serviceName")
                      (fetch request))
                   script_catch))
  end.

(** What [main] does with the result of the creating function. *)
Definition report (run : list Request * Promise Envelope)
  : list Request * MainOutcome :=
  match run with
  | (requests, Fulfilled result) =>
      if truthy (err result) then
        match field (err result) "message" with
        | Some message => (requests, CreationError message)
        | None =>
            (requests,
             ScriptError
               (ErrorInstance (nullish_access_message (err result) "message")))
        end
      else (requests, Created (res result))
  | (requests, Rejected e) => (requests, ScriptError e)
  | (requests, PendingForever) => (requests, Waiting)
  end.

(** [main] of the service script. *)
Definition service_main (process : Process) : list Request * MainOutcome :=
  let parsed := service_parseArgs process in
  let args := res parsed in
  let parseError := err parsed in
  if truthy parseError then
    ([], UsageError (optional_chain parseError "message"))
  else
    let input :=
      JObj [("repoName", js_or (optional_chain args "repoName") (JStr ""));
            ("serviceName",
             js_or (optional_chain args "serviceName") (JStr ""));
            ("apiKey", js_or (optional_chain args "apiKey") (JStr ""));
            ("ownerId", js_or (optional_chain args "ownerId") (JStr ""))] in
    report (createRenderService input).

End Scripts.

(** An input that [service_InputSchema] accepts: an object whose four
    properties are non-empty strings. *)
Definition service_input (input : Value) (repoName apiKey serviceName ownerId : string)
  : Prop :=
  exists fields,
    input = JObj fields
    /\ get "repoName" fields = JStr repoName /\ repoName <> ""
    /\ get "apiKey" fields = JStr apiKey /\ apiKey <> ""
    /\ get "serviceName" fields = JStr serviceName /\ serviceName <> ""
    /\ get "ownerId" fields = JStr ownerId /\ ownerId <> "".

(** What the schema parses it to. *)
Definition service_data (repoName apiKey serviceName ownerId : string) : Value :=
  JObj [("repoName", JStr repoName); ("apiKey", JStr apiKey);
        ("serviceName", JStr serviceName); ("ownerId", JStr ownerId)].

(** ** The deployment scripts: creating the database *)

Section PostgresScript.

Variable JSON_parse : string -> option Value.
Variable input_error_message : Value -> string.
Variable nullish_access_message : Value -> string -> string.
Variable fetch : Request -> FetchResult.

Definition postgres_InputSchema : Schema :=
  object_schema
    [("dbName", string_where min_1);
     ("apiKey", string_where min_1);
     ("ownerId", string_where min_1);
     ("region", with_default (optional (zod ZString)) (JStr "oregon"));
     ("plan", with_default (optional (zod ZString)) (JStr "free"));
     ("version", with_default (optional (zod ZString)) (JStr "16"))].

Definition postgres_ResponseSchema : Schema :=
  object_schema
    [("id", zod ZString);
     ("name", zod ZString);
     ("connectionInfo",
      object_schema [("externalConnectionString", zod ZString);
                     ("internalConnectionString", zod ZString);
                     ("psqlCommand", zod ZString)])].

(** The [fetch] call of [createRenderPostgres]. *)
Definition postgres_request (data : Value) : Request :=
  let apiKey := optional_chain data "apiKey" in
  let requestBody :=
    JObj [("name", optional_chain data "dbName");
          ("ownerId", optional_chain data "ownerId");
          ("region", optional_chain data "region");
          ("plan", optional_chain data "plan");
          ("version", optional_chain data "version")] in
  mkRequest "https://api.render.com/v1/postgres" "POST"
    [("Authorization", "Bearer " ++ to_text apiKey);
     ("Content-Type", "application/json");
     ("Accept", "application/json")]
    requestBody.

(** From the parsed body of an [ok] response to the result. *)
Definition postgres_of_data (data : Value) : Completion Envelope :=
  and_then (read nullish_access_message data "postgres") (fun data_postgres =>
  and_then (if truthy data_postgres then Normal (Some data_postgres)
            else and_then (read nullish_access_message data "id")
                   (fun data_id =>
                 Normal (if truthy data_id then Some data else None)))
    (fun found =>
  match found with
  | None =>
      Normal (mkEnvelope JNull
                (error_of "Unexpected response structure from Render API"))
  | Some dbData =>
      and_then (read nullish_access_message dbData "externalConnectionString")
        (fun external =>
      and_then (read nullish_access_message dbData "internalConnectionString")
        (fun internal =>
      and_then (read nullish_access_message dbData "psqlCommand")
        (fun psqlCommand =>
      let connectionInfo :=
        JObj [("externalConnectionString", js_or external (JStr ""));
              ("internalConnectionString", js_or internal (JStr ""));
              ("psqlCommand", js_or psqlCommand (JStr ""))] in
      and_then (read nullish_access_message dbData "id") (fun id =>
      and_then (read nullish_access_message dbData "name") (fun name =>
      match safeParse postgres_ResponseSchema
              (JObj [("id", id); ("name", name);
                     ("connectionInfo", connectionInfo)]) with
      | Failure =>
          Normal (mkEnvelope JNull
                    (error_of "Invalid response structure from Render API"))
      | Success parsedResponse_data =>
          Normal (mkEnvelope parsedResponse_data JNull)
      end)))))
  end)).

(** The [try] block of [createRenderPostgres], from the outcome of
    [fetch] on. *)
Definition postgres_try (fetched : FetchResult) : Completion Envelope :=
  match fetched with
  | FetchRejects e => Abrupt e
  | FetchPending => Suspended
  | FetchResolves response =>
      and_then (text response) (fun responseText =>
      if negb (ok response) then
        Normal (mkEnvelope JNull
                  (JObj [("message",
                          error_message_of JSON_parse response responseText)]))
      else
        match JSON_parse responseText with
        | None =>
            Normal (mkEnvelope JNull (error_of "Response is not valid JSON"))
        | Some data => postgres_of_data data
        end)
  end.

Definition createRenderPostgres (input : Value)
  : list Request * Promise Envelope :=
  match safeParse postgres_InputSchema input with
  | Failure =>
      ([],
       Fulfilled
         (mkEnvelope JNull
            (JObj [("message",
                    js_or (JStr (input_error_message input))
                          (JStr "Invalid input"))])))
  | Success data =>
      let request := postgres_request data in
      ([request],
       promise_of (catching (postgres_try (fetch request)) script_catch))
  end.

(** [main] of the database script. *)
Definition postgres_main (process : Process) : list Request * MainOutcome :=
  let parsed := postgres_parseArgs process in
  let args := res parsed in
  let parseError := err parsed in
  if truthy parseError then
    ([], UsageError (optional_chain parseError "message"))
  else
    let input :=
      JObj [("dbName", js_or (optional_chain args "dbName") (JStr ""));
            ("apiKey", js_or (optional_chain args "apiKey") (JStr ""));
            ("ownerId", js_or (optional_chain args "ownerId") (JStr ""));
            ("region", optional_chain args "region");
            ("plan", optional_chain args "plan");
            ("version", optional_chain args "version")] in
    report nullish_access_message (createRenderPostgres input).

End PostgresScript.

(** The value the database schema gives an optional property. *)
Definition or_default (v : Value) (d : string) : Value :=
  match v with
  | JUndefined => JStr d
  | _ => v
  end.

(** What the database schema parses a complete input to. *)
Definition postgres_data (dbName apiKey ownerId : string)
    (region plan version : Value) : Value :=
  JObj [("dbName", JStr dbName); ("apiKey", JStr apiKey);
        ("ownerId", JStr ownerId); ("region", region); ("plan", plan);
        ("version", version)].

(** ** The call to the inference server *)

Section Ollama.

Variable JSON_parse : string -> option Value.

(** The message of the [SyntaxError] of a body that is not JSON. *)
Variable syntax_error_message : string -> string.

Variable nullish_access_message : Value -> string -> string.
Variable fetch : Request -> FetchResult.

Definition ollama_request (messages model : string) : Request :=
  mkRequest "http://localhost:11434/api/chat" "POST"
    [("Content-Type", "application/json")]
    (JObj [("model", JStr model); ("messages", JStr messages);
           ("stream", JBool false)]).

(** The [try] block of [sendToOllama]; [response.json()] reads the body
    and parses it. *)
Definition sendToOllama_try (messages model : string) : Completion Value :=
  match fetch (ollama_request messages model) with
  | FetchRejects e => Abrupt e
  | FetchPending => Suspended
  | FetchResolves response =>
      if negb (ok response) then
        Abrupt (ErrorInstance
                  ("HTTP error! status: " ++ decimal (status response)))
      else
        and_then (text response) (fun body =>
        match JSON_parse body with
        | None => Abrupt (ErrorInstance (syntax_error_message body))
        | Some data =>
            and_then (read nullish_access_message data "message")
              (fun message => read nullish_access_message message "content")
        end)
  end.

(** The [catch (error)] block: it throws a new [Error] around
    [error.message]. *)
Definition sendToOllama_catch (error : Thrown) : Completion Value :=
  match error with
  | ErrorInstance message =>
      Abrupt (ErrorInstance ("Failed to communicate with Ollama: " ++ message))
  | NotAnError v =>
      match field v "message" with
      | Some message =>
          Abrupt (ErrorInstance
                    ("Failed to communicate with Ollama: " ++ to_text message))
      | None => Abrupt (ErrorInstance (nullish_access_message v "message"))
      end
  end.

(** [sendToOllama(messages, model)]; [model] defaults to
    ["qwen2.5-coder:14b"]. *)
Definition sendToOllama (messages : string) (model : option string)
  : Promise Value :=
  let model := match model with
               | Some m => m
               | None => "qwen2.5-coder:14b"
               end in
  promise_of (catching (sendToOllama_try messages model) sendToOllama_catch).

End Ollama.

(** A sample environment for the scripts. The platform answers a known
    key with the created service and any other with 401; the URL check
    looks at the scheme only, and zod's text is reduced to a constant. *)
Definition quote : string := String (Ascii.ascii_of_nat 34) "".

(** The JSON text of a string without quotes, backslashes or control
    characters. *)
Definition json_string (s : string) : string := quote ++ s ++ quote.

(** [JSON.stringify] of an object, from the texts of its members. *)
Definition json_object (members : list (string * string)) : string :=
  "{" ++ String.concat ","
           (map (fun m => json_string (fst m) ++ ":" ++ snd m) members)
      ++ "}".

Definition unauthorized_body : string :=
  json_object [("message", json_string "unauthorized")].

Definition created_body : string :=
  json_object
    [("service",
      json_object
        [("id", json_string "srv-1");
         ("name", json_string "api");
         ("serviceDetails",
          json_object [("url", json_string "https://api.onrender.com")])])].

(** The body for a created database: the connection strings the platform
    has so far, next to properties that are not strings. *)
Definition database_body : string :=
  json_object
    [("postgres",
      json_object
        [("id", json_string "dpg-1");
         ("name", json_string "mydb");
         ("diskSizeGB", "1");
         ("highAvailabilityEnabled", "false");
         ("owner", json_object [("id", json_string "tea-1")]);
         ("externalConnectionString",
          json_string "postgres://mydb.oregon-postgres.render.com/mydb");
         ("internalConnectionString", "null")])].

(** A body whose [psqlCommand] is a number. *)
Definition numeric_command_body : string :=
  json_object
    [("postgres",
      json_object
        [("id", json_string "dpg-1");
         ("name", json_string "mydb");
         ("psqlCommand", "5")])].

(** [JSON.parse] on the bodies of the sample platform; any other text
    stands for one that is not JSON. *)
Definition sample_JSON_parse (s : string) : option Value :=
  if s =? unauthorized_body
  then Some (JObj [("message", JStr "unauthorized")])
  else if s =? created_body
  then Some (JObj [("service",
                    JObj [("id", JStr "srv-1"); ("name", JStr "api");
                          ("serviceDetails",
                           JObj [("url", JStr "https://api.onrender.com")])])])
  else if s =? database_body
  then Some (JObj [("postgres",
                    JObj [("id", JStr "dpg-1"); ("name", JStr "mydb");
                          ("diskSizeGB", JNum 1);
                          ("highAvailabilityEnabled", JBool false);
                          ("owner", JObj [("id", JStr "tea-1")]);
                          ("externalConnectionString",
                           JStr "postgres://mydb.oregon-postgres.render.com/mydb");
                          ("internalConnectionString", JNull)])])
  else if s =? numeric_command_body
  then Some (JObj [("postgres",
                    JObj [("id", JStr "dpg-1"); ("name", JStr "mydb");
                          ("psqlCommand", JNum 5)])])
  else if s =? "null" then Some JNull
  else if s =? "{}" then Some (JObj [])
  else None.

Definition sample_is_url (s : string) : bool :=
  String.prefix "https://" s.

Definition sample_input_error_message (input : Value) : string :=
  "[ { too_small } ]".

Definition sample_fetch (request : Request) : FetchResult :=
  match req_headers request with
  | (_, authorization) :: _ =>
      if authorization =? "Bearer rnd_ok"
      then FetchResolves (mkHttpResponse 201 "Created" (Normal created_body))
      else FetchResolves
             (mkHttpResponse 401 "Unauthorized" (Normal unauthorized_body))
  | [] => FetchRejects (ErrorInstance "fetch failed")
  end.

Definition sample_createRenderService
  : Value -> list Request * Promise Envelope :=
  createRenderService sample_JSON_parse sample_is_url
    sample_input_error_message jsc_nullish_access_message sample_fetch.

Definition sample_service_main : Process -> list Request * MainOutcome :=
  service_main sample_JSON_parse sample_is_url
    sample_input_error_message jsc_nullish_access_message sample_fetch.

(** The default message for a response that is not [ok]. *)
Definition http_error (response : HttpResponse) : Value :=
  JStr ("HTTP " ++ decimal (status response) ++ ": " ++ statusText response).

(** The value [main] gets for a property: from the command line, or
    for [apiKey] and [ownerId] from the environment. *)
Definition provided (fp : string -> option string) (process : Process)
    (k : string) : Value :=
  if k =? "apiKey" then
    with_fallback (cli_value fp k (args_of process)) (RENDER_API_KEY process)
  else if k =? "ownerId" then
    with_fallback (cli_value fp k (args_of process)) (RENDER_OWNER_ID process)
  else cli_value fp k (args_of process).

(** ** The user contract and the [/users] route *)

(** What [await client.query(...)] gives, as far as the handler reads
    it: [first] is [res.rows[0]], [undefined] when no row came back. *)
Inductive QueryResult : Type :=
| QueryReturns (first : Value)
| QueryFails (e : Thrown)
| QueryPending.

(** What the route reads of a request; [json] is the outcome of
    [await req.json()]. *)
Record HttpRequest : Type := mkHttpRequest {
  method : string;
  json : Completion Value
}.

(** [Response.json(body, { status })] *)
Record Reply : Type := mkReply {
  reply_status : nat;
  reply_body : Value
}.

(** A completion, as a computation that leaves the store alone. *)
Definition lift {A} (c : Completion A) : M A := fun s => (c, s).

Section Users.

Variable nullish_access_message : Value -> string -> string.

(** [client.query("INSERT INTO users (name) VALUES ($1) RETURNING *",
    [name])] *)
Variable insert_user : Value -> QueryResult.

(** The handler of [createUser]: its own [try] turns a failed query
    into a declared error. *)
Definition createUser_execution : Execution :=
  fun input error =>
    match field input "name" with
    | None =>
        Resolves (JObj [("res", JNull);
                        ("err", error (nullish_access_message input "name"))])
    | Some name =>
        match insert_user name with
        | QueryReturns first =>
            Resolves (JObj [("res", first); ("err", JNull)])
        | QueryFails e =>
            Resolves (JObj [("res", JNull);
                            ("err", error (thrown_message e))])
        | QueryPending => NeverSettles
        end
    end.

Definition createUser_params : BuildFunctionContextReq :=
  mkReq (object_schema [("name", string_where min_1)])
        id_name_schema
        message_schema
        createUser_execution.

Definition createUser : BuildFunctionContextResult :=
  buildFunctionContext nullish_access_message createUser_params.

(** The [/users] route, for a contract [users]. *)
Definition users_route (users : BuildFunctionContextResult)
    (req : HttpRequest) : M Reply :=
  if method req =? "POST" then
    try_catch
      (body <- lift (json req) ;;
       result <- ctx_execute users body ;;
       if truthy (err result) then ret (mkReply 400 (err result))
       else ret (mkReply 201 (res result)))
      (fun error => ret (mkReply 400 (error_of "Invalid JSON")))
  else
    ret (mkReply 405 (error_of "Method Not Allowed")).

End Users.

(** A sample database: it stores any name but ["taken"], and returns the
    row with columns the contract does not list. *)
Definition sample_insert_user (name : Value) : QueryResult :=
  match name with
  | JStr "taken" =>
      QueryFails (ErrorInstance "duplicate key value violates unique constraint")
  | _ =>
      QueryReturns (JObj [("id", JNum 7); ("name", name);
                          ("created_at", JStr "2025-01-01")])
  end.

Definition sample_users : BuildFunctionContextResult :=
  createUser jsc_nullish_access_message sample_insert_user.

Definition sample_store : Store :=
  constructed jsc_nullish_access_message
    (createUser_params jsc_nullish_access_message sample_insert_user).

(** A body the user contract accepts: an object whose [name] is a
    non-empty string. *)
Definition user_body (body : Value) (name : string) : Prop :=
  exists fields,
    body = JObj fields /\ get "name" fields = JStr name /\ name <> "".

(** ** Collecting the text files of a directory *)

Definition textFileExtensions : list string :=
  [".ts"; ".tsx"; ".js"; ".jsx"; ".json"; ".txt"; ".md"; ".css"; ".html";
   ".yml"; ".yaml"; ".xml"; ".sh"; ".py"; ".rb"; ".java"; ".c"; ".cpp";
   ".h"; ".cs"; ".php"; ".go"; ".rs"; ".sql"; ".ini"; ".conf"; ".env";
   ".log"].

(** The directories the walk does not enter. *)
Definition skipped_directories : list string :=
  [".git"; "node_modules"; "dist"; "build"; "logs"].

(** [list.includes(x)] *)
Definition includes (x : string) (l : list string) : bool :=
  existsb (String.eqb x) l.

(** [toLowerCase] on ASCII letters. No other character lower-cases into
    an extension of the list: the only one that becomes an ASCII letter
    is the Kelvin sign, and no extension of the list has a k. *)
Definition lower (c : ascii) : ascii :=
  let n := nat_of_ascii c in
  if ((65 <=? n)%nat && (n <=? 90)%nat)%bool then ascii_of_nat (n + 32) else c.

Fixpoint toLowerCase (s : string) : string :=
  match s with
  | EmptyString => EmptyString
  | String c rest => String (lower c) (toLowerCase rest)
  end.

(** The part of [s] from its last dot on, when it has a dot. *)
Fixpoint from_last_dot (s : string) : option string :=
  match s with
  | EmptyString => None
  | String c rest =>
      match from_last_dot rest with
      | Some suffix => Some suffix
      | None => if Ascii.eqb c "."%char then Some s else None
      end
  end.

(** [path.extname] on the name of a directory entry (which holds no
    separator): from the last dot on; empty when there is no dot, when
    the only dot is the first character, and for [..]. *)
Definition extname (name : string) : string :=
  match name with
  | EmptyString => ""
  | String _ rest =>
      match from_last_dot rest with
      | Some suffix => if name =? ".." then "" else suffix
      | None => ""
      end
  end.

(** [textFileExtensions.includes(path.extname(name).toLowerCase())] *)
Definition is_text_file (name : string) : bool :=
  includes (toLowerCase (extname name)) textFileExtensions.

(** A directory tree of regular files and directories, as [readdir] with
    [withFileTypes] lists it. A file without content is one [readFile]
    fails on; a directory without entries is one [readdir] fails on. *)
Inductive Entry : Type :=
| File (name : string) (content : option string)
| Directory (name : string) (entries : option (list Entry)).

Definition entry_name (e : Entry) : string :=
  match e with
  | File name _ => name
  | Directory name _ => name
  end.

(** A path, as its segments below the directory the context is built
    for; [path.join(dir, name)] appends a segment. *)
Definition Path : Type := list string.

(** The loop of [readFilesInDirectory] over one entry of [dir]: [None]
    when a [readdir] or [readFile] it awaits rejects. *)
Fixpoint read_entry (dir : Path) (entry : Entry) : option (list (Path * string)) :=
  let fullPath := (dir ++ [entry_name entry])%list in
  match entry with
  | Directory name entries =>
      if negb (includes name skipped_directories) then
        match entries with
        | None => None
        | Some listing =>
            (fix read_all (l : list Entry) : option (list (Path * string)) :=
               match l with
               | [] => Some []
               | e :: rest =>
                   match read_entry fullPath e with
                   | None => None
                   | Some subFiles =>
                       match read_all rest with
                       | None => None
                       | Some results => Some (subFiles ++ results)%list
                       end
                   end
               end) listing
        end
      else Some []
  | File name content =>
      if is_text_file name then
        match content with
        | None => None
        | Some text => Some [(fullPath, text)]
        end
      else Some []
  end.

(** The loop over the entries of [dir]. *)
Fixpoint read_entries (dir : Path) (listing : list Entry)
  : option (list (Path * string)) :=
  match listing with
  | [] => Some []
  | e :: rest =>
      match read_entry dir e with
      | None => None
      | Some subFiles =>
          match read_entries dir rest with
          | None => None
          | Some results => Some (subFiles ++ results)%list
          end
      end
  end.

(** [readFilesInDirectory(dir)], given what [readdir(dir)] lists. *)
Definition readFilesInDirectory (dir : Path) (listing : option (list Entry))
  : option (list (Path * string)) :=
  match listing with
  | None => None
  | Some l => read_entries dir l
  end.

(** The entry of a name in a listing. *)
Fixpoint find_entry (name : string) (listing : list Entry) : option Entry :=
  match listing with
  | [] => None
  | e :: rest =>
      if entry_name e =? name then Some e else find_entry name rest
  end.

(** [path.relative(selectedDir, file.path)]: the segments, joined. *)
Definition relative (p : Path) : string := String.concat "/" p.

(** [allFiles.reduce((acc, file) => { acc[key] = file.content; ... }, {})] *)
Fixpoint to_record (files : list (Path * string)) (acc : list (string * Value))
  : list (string * Value) :=
  match files with
  | [] => acc
  | (p, content) :: rest => to_record rest (assign (relative p) (JStr content) acc)
  end.

(** What [fetchContext] finds at [selectedDir/src]: [existsSync] and
    [readdir] follow symbolic links, while the walk of [selectedDir] takes
    a link for neither a file nor a directory and passes it by. So [src]
    is given apart from the listing: it is missing, or [readdir] lists its
    entries, or [readdir] fails on it (a regular file, a directory that
    cannot be read). *)
Inductive SrcDir : Type :=
| SrcMissing
| SrcExists (entries : option (list Entry)).

(** [fetchContext(selectedDir)], given the listing of [selectedDir] and
    what is at [selectedDir/src]. *)
Definition fetchContext (listing : option (list Entry)) (src : SrcDir)
  : option (list (string * Value)) :=
  match readFilesInDirectory [] listing with
  | None => None
  | Some rootFiles =>
      let srcFiles :=
        match src with
        | SrcExists entries => readFilesInDirectory ["src"] entries
        | SrcMissing => Some []
        end in
      match srcFiles with
      | None => None
      | Some srcFiles => Some (to_record (rootFiles ++ srcFiles) [])
      end
  end.

(** What is at [src] when no link is involved: the entry of that name in
    the listing. *)
Definition src_of (listing : list Entry) : SrcDir :=
  match find_entry "src" listing with
  | None => SrcMissing
  | Some (Directory _ entries) => SrcExists entries
  | Some (File _ _) => SrcExists None
  end.

(** The files of a tree the walk reaches: at [path] below the listing,
    with no skipped directory on the way. *)
Inductive reaches : list Entry -> Path -> string -> option string -> Prop :=
| reaches_file listing name content :
    In (File name content) listing ->
    reaches listing [name] name content
| reaches_directory listing name entries path file content :
    In (Directory name (Some entries)) listing ->
    includes name skipped_directories = false ->
    reaches entries path file content ->
    reaches listing (name :: path) file content.

(** A sample project. *)
Definition sample_project : list Entry :=
  [File "README.MD" (Some "# api");
   File ".env" (Some "SECRET=1");
   File "logo.png" None;
   Directory "node_modules" None;
   Directory "src"
     (Some [File "index.ts" (Some "serve()");
            Directory "logs" (Some [File "run.log" (Some "boot")])])].

(** A project whose [src] is a symbolic link to a directory elsewhere:
    the listing of the project does not show it as a directory. *)
Definition linked_project : list Entry :=
  [File "README.MD" (Some "# api")].

Definition linked_src : SrcDir :=
  SrcExists (Some [File "index.ts" (Some "serve()");
                   File "logo.png" None]).

(** What makes the walk fail: a text file it cannot read or a directory
    it cannot list, with no skipped directory on the way. *)
Inductive blocked : list Entry -> Prop :=
| blocked_file listing name :
    In (File name None) listing ->
    is_text_file name = true ->
    blocked listing
| blocked_directory listing name :
    In (Directory name None) listing ->
    includes name skipped_directories = false ->
    blocked listing
| blocked_below listing name entries :
    In (Directory name (Some entries)) listing ->
    includes name skipped_directories = false ->
    blocked entries ->
    blocked listing.

(** The properties of the database that [createRenderPostgres] reads
    into [connectionInfo]. *)
Definition connection_keys : list string :=
  ["externalConnectionString"; "internalConnectionString"; "psqlCommand"].

(** A sample platform for the database script: it answers with the body
    it is given. *)
Definition answering (body : string) (request : Request) : FetchResult :=
  FetchResolves (mkHttpResponse 201 "Created" (Normal body)).

Definition sample_postgres_main : Process -> list Request * MainOutcome :=
  postgres_main sample_JSON_parse sample_input_error_message
    jsc_nullish_access_message sample_fetch.

(** ** Lemmas on objects and on the zod fragment *)

Lemma lookup_app_notin k pre fields :
  ~ In k (map fst pre) -> lookup k (pre ++ fields) = lookup k fields.
Proof.
  induction pre as [|[k' v] pre IH]; simpl; intros H; auto.
  destruct (String.eqb_spec k k') as [->|Hne].
  - exfalso. apply H. now left.
  - apply IH. intros Hin. apply H. now right.
Qed.

Lemma lookup_notin k fields : ~ In k (map fst fields) -> lookup k fields = None.
Proof.
  induction fields as [|[k' v] fields IH]; simpl; intros H; auto.
  destruct (String.eqb_spec k k') as [->|Hne].
  - exfalso. apply H. now left.
  - apply IH. intros Hin. apply H. now right.
Qed.

Lemma lookup_head k v fields : lookup k ((k, v) :: fields) = Some v.
Proof. simpl. now rewrite String.eqb_refl. Qed.

(** The keys [z.object] sets are keys of its shape. *)
Lemma parse_shape_keys parse fields sh : forall out,
  parse_shape parse fields sh = Some out ->
  incl (map fst out) (map fst sh).
Proof.
  induction sh as [|[k tk] rest IH]; simpl; intros out H.
  - inversion H. apply incl_refl.
  - destruct (parse tk (get k fields)) as [d|]; try discriminate.
    destruct (parse_shape parse fields rest) as [out'|]; try discriminate.
    specialize (IH out' eq_refl).
    assert (Hset : incl (map fst ((k, d) :: out')) (k :: map fst rest)).
    { simpl. intros x [<-|Hx]; [now left | right; now apply IH]. }
    assert (Hskip : incl (map fst out') (k :: map fst rest)).
    { intros x Hx. right. now apply IH. }
    destruct d; try (inversion H; subst; assumption).
    destruct (has_key k fields); inversion H; subst; assumption.
Qed.

(** A schema of the plain fragment yields [undefined] only on
    [undefined]. *)
Lemma plain_undefined t : forall v,
  plain t -> zparse t v = Success JUndefined -> v = JUndefined.
Proof.
  induction t as [ | | | | shape | inner IH d | inner IH f]; simpl;
    intros v Hp H.
  - now inversion H.
  - destruct v; discriminate.
  - destruct v; discriminate.
  - destruct v; discriminate.
  - destruct v; try discriminate.
    destruct (parse_shape zparse fields shape); discriminate.
  - destruct v; auto; now apply IH in H.
  - contradiction.
Qed.

(** Induction on a schema, with the members of an object shape as
    induction hypotheses. *)
Lemma ZodType_shape_ind (P : ZodType -> Prop) :
  P ZAny -> P ZNull -> P ZNumber -> P ZString ->
  (forall shape, (forall k tk, In (k, tk) shape -> P tk) ->
                 P (ZObject shape)) ->
  (forall inner d, P inner -> P (ZDefault inner d)) ->
  (forall inner f, P inner -> P (ZTransform inner f)) ->
  forall t, P t.
Proof.
  intros HAny HNull HNumber HString HObject HDefault HTransform.
  fix IH 1.
  intros [ | | | | shape | inner d | inner f].
  - exact HAny.
  - exact HNull.
  - exact HNumber.
  - exact HString.
  - apply HObject.
    induction shape as [|[k tk] rest IHs]; simpl; intros k' tk' Hin.
    + contradiction.
    + pose proof (IH tk) as Htk.
      destruct Hin as [E|Hin].
      * inversion E; subst. exact Htk.
      * eapply IHs; exact Hin.
  - apply HDefault, IH.
  - apply HTransform, IH.
Qed.

Lemma plain_members shape :
  plain (ZObject shape) -> forall k tk, In (k, tk) shape -> plain tk.
Proof.
  simpl. intros [_ Hall].
  induction shape as [|[k0 t0] rest IH]; simpl; intros k tk Hin.
  - contradiction.
  - destruct Hall as [H0 Hrest]. destruct Hin as [E|Hin].
    + inversion E; subst. exact H0.
    + eapply IH; eauto.
Qed.

(** Parsing the output of [z.object] again, key by key: [pre] holds the
    keys already set, which the remaining shape does not list. *)
Lemma parse_shape_reparse parse fields : forall sh pre out,
  (forall k tk, In (k, tk) sh ->
                forall v d, parse tk v = Success d -> parse tk d = Success d) ->
  NoDup (map fst sh) ->
  (forall k, In k (map fst pre) -> ~ In k (map fst sh)) ->
  parse_shape parse fields sh = Some out ->
  parse_shape parse (pre ++ out) sh = Some out.
Proof.
  induction sh as [|[k tk] rest IH]; simpl; intros pre out Hre Hnd Hpre H.
  - exact H.
  - inversion Hnd as [|? ? Hk Hnd']; subst.
    destruct (parse tk (get k fields)) as [d|] eqn:Hd; try discriminate.
    destruct (parse_shape parse fields rest) as [out'|] eqn:Hrest;
      try discriminate.
    assert (Hkpre : ~ In k (map fst pre)).
    { intros Hin. apply (Hpre k Hin). now left. }
    assert (Hkout : ~ In k (map fst out')).
    { intros Hin. apply Hk. eapply parse_shape_keys; eauto. }
    assert (Hset : parse_shape parse (pre ++ (k, d) :: out') ((k, tk) :: rest)
                   = Some ((k, d) :: out')).
    { simpl. unfold get, has_key.
      rewrite (lookup_app_notin k pre _ Hkpre), lookup_head.
      rewrite (Hre k tk (or_introl eq_refl) _ _ Hd).
      replace (pre ++ (k, d) :: out')%list
        with ((pre ++ [(k, d)]) ++ out')%list
        by (rewrite <- app_assoc; reflexivity).
      rewrite (IH (pre ++ [(k, d)])%list out'); auto.
      - destruct d; reflexivity.
      - intros k0 tk0 Hin. apply (Hre k0 tk0). now right.
      - intros k0 Hin. rewrite map_app in Hin. apply in_app_or in Hin.
        destruct Hin as [Hin|[<-|[]]]; auto.
        intros Hin'. apply (Hpre k0 Hin). now right. }
    assert (Hskip : d = JUndefined -> has_key k fields = false ->
                    parse_shape parse (pre ++ out') ((k, tk) :: rest)
                    = Some out').
    { intros -> Hnk. simpl. unfold get, has_key in *.
      rewrite (lookup_app_notin k pre _ Hkpre), (lookup_notin k out' Hkout).
      destruct (lookup k fields); try discriminate.
      rewrite Hd.
      rewrite (IH pre out'); auto.
      - intros k0 tk0 Hin. apply (Hre k0 tk0). now right.
      - intros k0 Hin Hin'. apply (Hpre k0 Hin). now right. }
    destruct d; try (inversion H; subst; exact Hset).
    destruct (has_key k fields) eqn:Hhk; inversion H; subst.
    + exact Hset.
    + now apply Hskip.
Qed.

(** A schema of the plain fragment accepts what it has parsed, and
    leaves it unchanged. *)
Lemma plain_reparse t : forall v d,
  plain t -> zparse t v = Success d -> zparse t d = Success d.
Proof.
  induction t as [ | | | | shape IH | inner d0 IH | inner f IH]
    using ZodType_shape_ind; intros v d Hp H.
  - reflexivity.
  - simpl in *. destruct v; inversion H; reflexivity.
  - simpl in *. destruct v; inversion H; reflexivity.
  - simpl in *. destruct v; inversion H; reflexivity.
  - pose proof (plain_members shape Hp) as Hm.
    simpl in *. destruct Hp as [Hnd _].
    destruct v; try discriminate.
    destruct (parse_shape zparse fields shape) as [out|] eqn:Hps;
      try discriminate.
    inversion H; subst.
    assert (Hre : parse_shape zparse ([] ++ out) shape = Some out).
    { apply (parse_shape_reparse zparse fields); auto.
      intros k tk Hin v d Hv. eapply IH; eauto. }
    simpl in Hre. rewrite Hre. reflexivity.
  - simpl in Hp. simpl in H. simpl.
    destruct d.
    + destruct v; auto.
      all: apply (plain_undefined inner _ Hp) in H; discriminate.
    + destruct v; eapply IH; eauto.
    + destruct v; eapply IH; eauto.
    + destruct v; eapply IH; eauto.
    + destruct v; eapply IH; eauto.
    + destruct v; eapply IH; eauto.
  - contradiction.
Qed.

Lemma plain_reaccepts t : plain t -> reaccepts (zod t).
Proof.
  intros Hp v d H. exists d. simpl in *. eapply plain_reparse; eauto.
Qed.

Lemma zod_object_never_null shape : never_null (zod (ZObject shape)).
Proof.
  intros v data. simpl. destruct v; try discriminate.
  destruct (parse_shape zparse fields shape); intros H; inversion H;
    discriminate.
Qed.

Lemma never_null_keeps_non_null S : never_null S -> keeps_non_null S.
Proof. intros H v data _. apply H. Qed.

Lemma strict_neq_null_true v : strict_neq_null v = true -> v <> JNull.
Proof. destruct v; simpl; congruence. Qed.

Lemma message_schema_accepts_messages message :
  accepts message_schema (JObj [("message", JStr message)]).
Proof. eexists. reflexivity. Qed.

Lemma message_schema_plain : plain (ZObject [("message", ZString)]).
Proof.
  simpl. repeat split. repeat constructor. simpl. tauto.
Qed.

Lemma id_name_schema_plain :
  plain (ZObject [("id", ZNumber); ("name", ZString)]).
Proof.
  simpl. repeat split. repeat constructor; simpl.
  - intros [H|[]]. discriminate.
  - tauto.
Qed.

(** Whatever [foo]'s input schema accepts has a numeric [id], so the
    handler only ever compares a number with zero. *)
Lemma foo_input_id_is_number :
  forall input data,
    safeParse (inputSchema foo_params) input = Success data ->
    exists n, data = JObj [("id", JNum n)].
Proof.
  intros input data. simpl.
  destruct input; try discriminate.
  destruct (get "id" fields); try discriminate.
  intros H. inversion H. eauto.
Qed.

(** ** Reasoning about runs of [execute] *)

Lemma skipn_length_app {A} (l l' : list A) :
  skipn (length l) (l ++ l')%list = l'.
Proof. induction l as [|x l IH]; simpl; auto. Qed.

Lemma trace_log ev s : trace (log ev s) = (trace s ++ [ev])%list.
Proof. reflexivity. Qed.

Lemma calls_of_eq {A} (m : M A) s c s' evs :
  m s = (c, s') ->
  trace s' = (trace s ++ evs)%list ->
  calls_of m s = evs.
Proof.
  intros Hm Ht. unfold calls_of. rewrite Hm. simpl. rewrite Ht.
  apply skipn_length_app.
Qed.

Ltac unfold_run :=
  unfold promise, calls_of, execute, execute_try, execute_catch,
    safeParse_call, await_execution, get_prop, try_catch, emit,
    bind, ret, throw in *.

(** Case analysis on the innermost scrutinee of the goal. *)
Ltac break_match :=
  match goal with
  | |- context [match ?x with _ => _ end] =>
      lazymatch x with
      | context [match _ with _ => _ end] => fail
      | _ => destruct x eqn:?
      end
  end.

Section Runs.

Variable msg : Value -> string -> string.
Variable params : BuildFunctionContextReq.

(** A failed input validation ends the call at once. *)
Lemma execute_invalid_input input s :
  safeParse (inputSchema params) input = Failure ->
  execute msg params input s =
    (Normal (mkEnvelope JNull (JObj [("message", JStr "Invalid input")])),
     log (SafeParsed InputSchema input) s).
Proof. intros H. unfold_run. rewrite H. reflexivity. Qed.

(** A successful one enters the [try] statement with the parsed data. *)
Lemma execute_valid_input input data s :
  safeParse (inputSchema params) input = Success data ->
  execute msg params input s =
    try_catch (execute_try msg params data) execute_catch
      (log (SafeParsed InputSchema input) s).
Proof. intros H. unfold_run. rewrite H. reflexivity. Qed.

(** The [try] statement never completes abruptly. *)
Lemma try_never_abrupt data s e :
  fst (try_catch (execute_try msg params data) execute_catch s) <> Abrupt e.
Proof.
  unfold_run. repeat (break_match; simpl; try discriminate).
Qed.

(** It suspends only on a handler that never settles. *)
Lemma try_suspended data s :
  fst (try_catch (execute_try msg params data) execute_catch s) = Suspended ->
  execution params data errorCreator = NeverSettles.
Proof.
  unfold_run. repeat (break_match; simpl); auto; discriminate.
Qed.

(** The [try] statement only appends to the trace, and what it appends
    holds exactly one call of the handler, on [data]. *)
Lemma try_calls data s :
  exists evs,
    trace (snd (try_catch (execute_try msg params data) execute_catch s))
    = (trace s ++ evs)%list
    /\ invocations evs = [data].
Proof.
  unfold_run.
  repeat (break_match; simpl);
    repeat rewrite trace_log; repeat rewrite <- app_assoc;
    eexists; (split; [reflexivity | reflexivity]).
Qed.

(** No call changes the slots of the returned object. *)
Lemma execute_frame input s :
  slot_input (snd (execute msg params input s)) = slot_input s
  /\ slot_response (snd (execute msg params input s)) = slot_response s.
Proof.
  unfold_run. repeat (break_match; simpl); auto.
Qed.

(** What a call resolves to does not depend on the store it starts in. *)
Lemma execute_history_independent input s1 s2 :
  fst (execute msg params input s1) = fst (execute msg params input s2).
Proof.
  unfold_run. repeat (break_match; simpl); auto.
Qed.

Lemma run_calls_frame inputs : forall s,
  slot_input (run_calls msg params inputs s) = slot_input s
  /\ slot_response (run_calls msg params inputs s) = slot_response s.
Proof.
  induction inputs as [|input rest IH]; intros s; simpl; auto.
  destruct (execute_frame input s) as [Hi Hr].
  destruct (execute msg params input s) as [c s'] eqn:E; simpl in *.
  destruct c; try (destruct (IH s') as [Hi' Hr']); split; congruence.
Qed.

(** A handler that throws, or whose promise rejects, makes the [try]
    body complete abruptly with the thrown value. *)
Lemma try_body_handler_throws data s e :
  execution params data errorCreator = ThrowsSync e
  \/ execution params data errorCreator = Rejects e ->
  fst (execute_try msg params data s) = Abrupt e.
Proof.
  intros [H|H]; unfold_run; rewrite H; reflexivity.
Qed.

(** The [catch] block turns an abrupt completion of the body into an
    envelope. *)
Lemma try_abrupt data s e :
  fst (execute_try msg params data s) = Abrupt e ->
  fst (try_catch (execute_try msg params data) execute_catch s)
  = Normal (mkEnvelope JNull (errorCreator (thrown_message e))).
Proof.
  unfold try_catch.
  destruct (execute_try msg params data s) as [c s']; simpl.
  intros ->. reflexivity.
Qed.

(** The error branch: [result.err !== null]. *)
Lemma try_error_branch data s result r_err :
  execution params data errorCreator = Resolves result ->
  field result "err" = Some r_err ->
  r_err <> JNull ->
  try_catch (execute_try msg params data) execute_catch s =
    (Normal (mkEnvelope JNull
               match safeParse (errorSchema params) r_err with
               | Success parsedErr_data => parsedErr_data
               | Failure => errorCreator msg_invalid_error
               end),
     log (SafeParsed ErrorSchema r_err) (log (Invoked data) s)).
Proof.
  intros Hex Hf Hn. unfold_run. rewrite Hex, Hf.
  destruct r_err; try congruence; simpl;
    destruct (safeParse (errorSchema params) _); reflexivity.
Qed.

(** The success branch: [result.err === null]. *)
Lemma try_success_branch data s result r_res :
  execution params data errorCreator = Resolves result ->
  field result "err" = Some JNull ->
  field result "res" = Some r_res ->
  try_catch (execute_try msg params data) execute_catch s =
    (match safeParse (responseSchema params) r_res with
     | Success parsedRes_data => Normal (mkEnvelope parsedRes_data JNull)
     | Failure =>
         Normal (mkEnvelope JNull (errorCreator msg_invalid_response))
     end,
     log (SafeParsed ResponseSchema r_res) (log (Invoked data) s)).
Proof.
  intros Hex Hf Hr. unfold_run. rewrite Hex, Hf. simpl. rewrite Hr.
  destruct (safeParse (responseSchema params) r_res); reflexivity.
Qed.

(** Every resolved envelope is of one of the three kinds. *)
Lemma execute_provenance input s env :
  promise (execute msg params input) s = Fulfilled env ->
  Provenance params env.
Proof.
  unfold_run. repeat (break_match; simpl);
    intros H; inversion H; subst; clear H;
    try apply FromContract.
  - eapply FromErrorSchema; eauto using strict_neq_null_true.
  - eapply FromResponseSchema; eauto.
Qed.

(** A result with a readable [err] has a readable [res]. *)
Lemma field_defined v k k' x :
  field v k = Some x -> exists y, field v k' = Some y.
Proof. destruct v; simpl; intros H; try discriminate; eauto. Qed.

(** Every resolved envelope has an origin. *)
Lemma execute_has_origin input s env :
  promise (execute msg params input) s = Fulfilled env ->
  Origin msg params input env.
Proof.
  unfold promise. intros H.
  destruct (safeParse (inputSchema params) input) as [data|] eqn:Hin.
  - rewrite (execute_valid_input input data s Hin) in H.
    destruct (execution params data errorCreator) as [result|e|e|] eqn:Hex.
    + destruct (field result "err") as [r_err|] eqn:Herr.
      * assert (Hdec : r_err = JNull \/ r_err <> JNull)
          by (destruct r_err; auto; right; discriminate).
        destruct Hdec as [->|Hn].
        -- destruct (field_defined result "err" "res" JNull Herr)
             as [r_res Hres].
           rewrite (try_success_branch data _ result r_res Hex Herr Hres) in H.
           destruct (safeParse (responseSchema params) r_res) as [parsed|]
             eqn:Hp; simpl in H; inversion H; subst.
           ++ exact (ParsedResponse msg params input data result r_res parsed
                       Hin Hex Herr Hres Hp).
           ++ apply BuiltByContract.
              exact (InvalidResponse msg params input data result r_res
                       Hin Hex Herr Hres Hp).
        -- rewrite (try_error_branch data _ result r_err Hex Herr Hn) in H.
           simpl in H. inversion H; subst.
           destruct (safeParse (errorSchema params) r_err) as [parsed|] eqn:Hp.
           ++ exact (ParsedError msg params input data result r_err parsed
                       Hin Hex Herr Hn Hp).
           ++ apply BuiltByContract.
              exact (InvalidError msg params input data result r_err
                       Hin Hex Herr Hn Hp).
      * unfold_run. rewrite Hex, Herr in H. simpl in H.
        inversion H; subst. apply BuiltByContract.
        exact (ResultUnreadable msg params input data result Hin Hex Herr).
    + rewrite (try_abrupt data _ e
                 (try_body_handler_throws data _ e (or_introl Hex))) in H.
      inversion H; subst. apply BuiltByContract.
      exact (HandlerThrew msg params input data e Hin (or_introl Hex)).
    + rewrite (try_abrupt data _ e
                 (try_body_handler_throws data _ e (or_intror Hex))) in H.
      inversion H; subst. apply BuiltByContract.
      exact (HandlerThrew msg params input data e Hin (or_intror Hex)).
    + unfold_run. rewrite Hex in H. discriminate.
  - rewrite (execute_invalid_input input s Hin) in H.
    inversion H; subst. apply BuiltByContract.
    exact (InvalidInput msg params input Hin).
Qed.

(** Conversely, an envelope with an origin is what the call resolves
    to. *)
Lemma origin_is_resolved input s env :
  Origin msg params input env ->
  promise (execute msg params input) s = Fulfilled env.
Proof.
  unfold promise.
  intros [data result r_res parsed Hin Hex Herr Hres Hp
         | data result r_err parsed Hin Hex Herr Hn Hp
         | message
             [Hin
             | data e Hin Hex
             | data result Hin Hex Herr
             | data result r_err Hin Hex Herr Hn Hp
             | data result r_res Hin Hex Herr Hres Hp]].
  - rewrite (execute_valid_input input data s Hin).
    rewrite (try_success_branch data _ result r_res Hex Herr Hres), Hp.
    reflexivity.
  - rewrite (execute_valid_input input data s Hin).
    rewrite (try_error_branch data _ result r_err Hex Herr Hn), Hp.
    reflexivity.
  - rewrite (execute_invalid_input input s Hin). reflexivity.
  - rewrite (execute_valid_input input data s Hin).
    rewrite (try_abrupt data _ e (try_body_handler_throws data _ e Hex)).
    reflexivity.
  - rewrite (execute_valid_input input data s Hin).
    unfold_run. rewrite Hex, Herr. reflexivity.
  - rewrite (execute_valid_input input data s Hin).
    rewrite (try_error_branch data _ result r_err Hex Herr Hn), Hp.
    reflexivity.
  - rewrite (execute_valid_input input data s Hin).
    rewrite (try_success_branch data _ result r_res Hex Herr Hres), Hp.
    reflexivity.
Qed.

End Runs.

(** An origin tells which schema produced each slot. *)
Lemma Origin_Provenance msg params input env :
  Origin msg params input env -> Provenance params env.
Proof.
  intros [data result r_res parsed _ _ _ _ Hp
         | data result r_err parsed _ _ _ Hn Hp
         | message _].
  - exact (FromResponseSchema params r_res parsed Hp).
  - exact (FromErrorSchema params r_err parsed Hn Hp).
  - exact (FromContract params message).
Qed.

(** ** Runs with schemas whose [safeParse] throws *)

Ltac unfold_throwing_run :=
  unfold promise, calls_of, execute_throwing, execute_try_throwing,
    execute_catch, safeParse_or_throw, await_execution, get_prop, try_catch,
    emit, bind, ret, throw in *.

(** With schemas whose [safeParse] always returns, [execute_throwing] is
    [execute]. *)
Lemma execute_throwing_returning msg params input s :
  execute_throwing msg (returning_params params) input s
  = execute msg params input s.
Proof. reflexivity. Qed.

Section ThrowingRuns.

Variable msg : Value -> string -> string.
Variable params : ThrowingReq.

(** An exception of the input schema ends the call before the [try]
    statement is entered: the handler is not invoked. *)
Lemma execute_throwing_input_throws input s e :
  safeParse_outcome (throwing_inputSchema params) input = Threw e ->
  execute_throwing msg params input s
  = (Abrupt e, log (SafeParsed InputSchema input) s).
Proof. intros H. unfold_throwing_run. rewrite H. reflexivity. Qed.

(** The [try] statement never completes abruptly, whatever the schemas
    and the handler throw inside it. *)
Lemma try_throwing_never_abrupt data s e :
  fst (try_catch (execute_try_throwing msg params data) execute_catch s)
  <> Abrupt e.
Proof.
  unfold_throwing_run. repeat (break_match; simpl; try discriminate).
Qed.

(** It suspends only on a handler that never settles. *)
Lemma try_throwing_suspended data s :
  fst (try_catch (execute_try_throwing msg params data) execute_catch s)
  = Suspended ->
  throwing_execution params data errorCreator = NeverSettles.
Proof.
  unfold_throwing_run. repeat (break_match; simpl); auto; discriminate.
Qed.

(** An exception of the error schema is trapped by the [catch] block. *)
Lemma error_schema_throw_is_trapped input data result r_err e s :
  safeParse_outcome (throwing_inputSchema params) input
  = Returned (Success data) ->
  throwing_execution params data errorCreator = Resolves result ->
  field result "err" = Some r_err ->
  r_err <> JNull ->
  safeParse_outcome (throwing_errorSchema params) r_err = Threw e ->
  promise (execute_throwing msg params input) s
  = Fulfilled (mkEnvelope JNull (errorCreator (thrown_message e))).
Proof.
  intros Hin Hex Herr Hn Hp. unfold_throwing_run.
  rewrite Hin, Hex, Herr.
  destruct r_err; try congruence; simpl; rewrite Hp; reflexivity.
Qed.

(** So is an exception of the success schema. *)
Lemma response_schema_throw_is_trapped input data result r_res e s :
  safeParse_outcome (throwing_inputSchema params) input
  = Returned (Success data) ->
  throwing_execution params data errorCreator = Resolves result ->
  field result "err" = Some JNull ->
  field result "res" = Some r_res ->
  safeParse_outcome (throwing_responseSchema params) r_res = Threw e ->
  promise (execute_throwing msg params input) s
  = Fulfilled (mkEnvelope JNull (errorCreator (thrown_message e))).
Proof.
  intros Hin Hex Herr Hres Hp. unfold_throwing_run.
  rewrite Hin, Hex, Herr. simpl. rewrite Hres, Hp. reflexivity.
Qed.

(** When the input schema returns, the promise is not rejected, and it is
    fulfilled as soon as the handler settles. *)
Lemma execute_throwing_total input r s :
  safeParse_outcome (throwing_inputSchema params) input = Returned r ->
  (forall e, promise (execute_throwing msg params input) s <> Rejected e)
  /\ ((forall data, r = Success data ->
                    settles (throwing_execution params data errorCreator)) ->
      exists env, promise (execute_throwing msg params input) s
                  = Fulfilled env).
Proof.
  intros Hin.
  assert (E : execute_throwing msg params input s
              = match r with
                | Failure =>
                    (Normal (mkEnvelope JNull
                               (JObj [("message", JStr msg_invalid_input)])),
                     log (SafeParsed InputSchema input) s)
                | Success data =>
                    try_catch (execute_try_throwing msg params data)
                      execute_catch (log (SafeParsed InputSchema input) s)
                end).
  { unfold execute_throwing, safeParse_or_throw, emit, bind, ret.
    rewrite Hin. destruct r; reflexivity. }
  unfold promise. rewrite E. destruct r as [data|].
  - pose proof (try_throwing_never_abrupt data
                  (log (SafeParsed InputSchema input) s)) as Hna.
    pose proof (try_throwing_suspended data
                  (log (SafeParsed InputSchema input) s)) as Hsu.
    destruct (fst (try_catch (execute_try_throwing msg params data)
                     execute_catch (log (SafeParsed InputSchema input) s)))
      as [env|e|]; simpl; split; try discriminate.
    + intros _. now exists env.
    + intros e' _. exact (Hna e eq_refl).
    + intros _. exfalso. exact (Hna e eq_refl).
    + intros Hs. exfalso. exact (Hs data eq_refl (Hsu eq_refl)).
  - simpl. split; [discriminate | intros _; eauto].
Qed.

End ThrowingRuns.

(** ** Totality *)

(** C1: the promise of [execute] is rejected exactly when [safeParse] of
    the input schema throws on the input, and then with what it threw. The
    call [inputSchema.safeParse(input)] is the one statement of [execute]
    that is not inside the [try]: the same exception from the success or
    the error schema is trapped (see [response_schema_throw_is_trapped]
    and [error_schema_throw_is_trapped]). *)
Theorem execute_rejects_iff_input_schema_throws :
  forall msg params input s e,
    promise (execute_throwing msg params input) s = Rejected e
    <-> safeParse_outcome (throwing_inputSchema params) input = Threw e.
Proof.
  intros msg params input s e. split.
  - intros H.
    destruct (safeParse_outcome (throwing_inputSchema params) input)
      as [r|e'] eqn:Hin.
    + exfalso.
      exact (proj1 (execute_throwing_total msg params input r s Hin) e H).
    + unfold promise in H.
      rewrite (execute_throwing_input_throws msg params input s e' Hin) in H.
      simpl in H. congruence.
  - intros Hin. unfold promise.
    rewrite (execute_throwing_input_throws msg params input s e Hin).
    reflexivity.
Qed.

(** [execute({ id: 0 })] on the contract whose input schema has a
    refinement that throws on a zero [id]: the promise is rejected and the
    handler is not invoked. *)
Lemma execute_rejects_iff_input_schema_throws_witness :
  promise (execute_throwing jsc_nullish_access_message refined_input_params
             (JObj [("id", JNum 0)])) (fresh foo_params)
  = Rejected (ErrorInstance "id must not be zero").
Proof.
  apply (proj2 (execute_rejects_iff_input_schema_throws
                  jsc_nullish_access_message refined_input_params
                  (JObj [("id", JNum 0)]) (fresh foo_params)
                  (ErrorInstance "id must not be zero"))).
  reflexivity.
Defined.

(** The handler is not reached in that call. *)
Example rejected_call_skips_handler :
  calls_of (execute_throwing jsc_nullish_access_message refined_input_params
              (JObj [("id", JNum 0)])) (fresh foo_params)
  = [SafeParsed InputSchema (JObj [("id", JNum 0)])].
Proof. reflexivity. Qed.

(** The same refinement on the success schema, and one that throws on the
    error schema: the exception becomes the message of the returned
    error. *)
Example output_schema_throws_are_trapped :
  promise (execute_throwing jsc_nullish_access_message refined_response_params
             (JObj [("id", JNum 0)])) (fresh foo_params)
  = Fulfilled (mkEnvelope JNull (JObj [("message", JStr "id must not be zero")]))
  /\ promise (execute_throwing jsc_nullish_access_message refined_error_params
                (JObj [("id", JNum (-1))])) (fresh foo_params)
     = Fulfilled
         (mkEnvelope JNull (JObj [("message", JStr "id must not be zero")])).
Proof. split; reflexivity. Qed.

(** When no schema throws: for every raw input and every handler
    behaviour, the promise returned by [execute] is never rejected, and it
    is fulfilled with a [{ res, err }] envelope as soon as the handler
    settles (returns, returns a malformed envelope, throws synchronously or
    rejects). *)
Theorem execute_total :
  forall msg params input s,
    (forall e, promise (execute msg params input) s <> Rejected e)
    /\ ((forall data,
            safeParse (inputSchema params) input = Success data ->
            settles (execution params data errorCreator)) ->
        exists env, promise (execute msg params input) s = Fulfilled env).
Proof.
  intros msg params input s.
  destruct (safeParse (inputSchema params) input) as [data|] eqn:Hin.
  - unfold promise. rewrite (execute_valid_input msg params input data s Hin).
    pose proof (try_never_abrupt msg params data
                  (log (SafeParsed InputSchema input) s)) as Hna.
    pose proof (try_suspended msg params data
                  (log (SafeParsed InputSchema input) s)) as Hsu.
    destruct (fst (try_catch (execute_try msg params data) execute_catch
                     (log (SafeParsed InputSchema input) s))) as [env|e|];
      simpl; split; try discriminate.
    + intros _. now exists env.
    + intros e' _. exact (Hna e eq_refl).
    + intros _. exfalso. exact (Hna e eq_refl).
    + intros Hs. exfalso. exact (Hs data eq_refl (Hsu eq_refl)).
  - unfold promise. rewrite (execute_invalid_input msg params input s Hin).
    simpl. split; [discriminate | intros _; eauto].
Qed.

Lemma execute_total_witness :
  exists env,
    promise (execute jsc_nullish_access_message undefined_result_params
               (JObj [("id", JNum 7)])) (fresh undefined_result_params)
    = Fulfilled env.
Proof.
  apply (proj2 (execute_total jsc_nullish_access_message
                  undefined_result_params
                  (JObj [("id", JNum 7)]) (fresh undefined_result_params))).
  intros data _. unfold settles. simpl. discriminate.
Defined.

(** A handler whose promise never settles leaves the caller waiting. *)
Lemma execute_waits_for_handler :
  forall msg params input s data,
    safeParse (inputSchema params) input = Success data ->
    execution params data errorCreator = NeverSettles ->
    promise (execute msg params input) s = PendingForever.
Proof.
  intros msg params input s data Hin Hex.
  unfold promise. rewrite (execute_valid_input msg params input data s Hin).
  unfold_run. rewrite Hex. reflexivity.
Qed.

(** ** Shape of the resolved envelope *)

(** With a success schema that accepts [null], both slots of the resolved
    envelope can be null. *)
Lemma both_slots_null :
  promise (execute jsc_nullish_access_message void_params
             (JObj [("id", JNum 1)])) (fresh void_params)
  = Fulfilled (mkEnvelope JNull JNull)
  /\ ~ exactly_one_non_null (mkEnvelope JNull JNull).
Proof.
  split; [reflexivity|].
  unfold exactly_one_non_null. simpl. intros [[_ H]|[H _]]; now apply H.
Qed.

(** C2, amended: in every resolved result at most one of [res] and [err]
    is non-null; exactly one is non-null whenever the success schema never
    parses to [null] and the error schema parses no non-null value to
    [null]. *)
Theorem execute_slots_exclusive :
  forall msg params input s env,
    promise (execute msg params input) s = Fulfilled env ->
    at_most_one_non_null env
    /\ (never_null (responseSchema params) ->
        keeps_non_null (errorSchema params) ->
        exactly_one_non_null env).
Proof.
  intros msg params input s env H.
  destruct (execute_provenance msg params input s env H)
    as [v data Hp | v data Hn Hp | message];
    unfold at_most_one_non_null, exactly_one_non_null; simpl.
  - split; [now right|]. intros Hr _. right. split; [|reflexivity].
    exact (Hr v data Hp).
  - split; [now left|]. intros _ He. left. split; [reflexivity|].
    exact (He v data Hn Hp).
  - split; [now left|]. intros _ _. left. split; [reflexivity|discriminate].
Qed.

Lemma execute_slots_exclusive_witness :
  at_most_one_non_null
    (mkEnvelope (JObj [("id", JNum 1); ("name", JStr "Test")]) JNull)
  /\ exactly_one_non_null
       (mkEnvelope (JObj [("id", JNum 1); ("name", JStr "Test")]) JNull).
Proof.
  destruct (execute_slots_exclusive jsc_nullish_access_message foo_params
              (JObj [("id", JNum 1)]) (fresh foo_params)
              (mkEnvelope (JObj [("id", JNum 1); ("name", JStr "Test")])
                          JNull)
              eq_refl) as [Hmost Hexact].
  split; [exact Hmost|].
  apply Hexact.
  - apply zod_object_never_null.
  - apply never_null_keeps_non_null, zod_object_never_null.
Defined.

(** ** Schema conformance *)

(** The error of a failed input validation is [{ message }] cast to the
    error type: an error schema that wants more rejects it. *)
Lemma invalid_input_error_not_conformant :
  promise (execute jsc_nullish_access_message coded_error_params
             (JObj [("id", JStr "not-a-number")])) (fresh coded_error_params)
  = Fulfilled (mkEnvelope JNull (JObj [("message", JStr "Invalid input")]))
  /\ JObj [("message", JStr "Invalid input")] <> JNull
  /\ ~ accepts (errorSchema coded_error_params)
         (JObj [("message", JStr "Invalid input")]).
Proof.
  split; [reflexivity|]. split; [discriminate|].
  intros [data H]. discriminate.
Qed.

(** The same holds for a trapped exception. *)
Example trapped_error_not_conformant :
  promise (execute jsc_nullish_access_message coded_error_boom_params
             (JObj [("id", JNum 1)])) (fresh coded_error_boom_params)
  = Fulfilled (mkEnvelope JNull (JObj [("message", JStr "boom")]))
  /\ safeParse coded_error_schema (JObj [("message", JStr "boom")]) = Failure.
Proof. split; reflexivity. Qed.

(** A transforming schema does not accept its own output: the success
    value returned for the handler's ["abc"] is [3], which the success
    schema rejects. *)
Example transformed_output_not_reaccepted :
  promise (execute jsc_nullish_access_message length_params
             (JObj [("id", JNum 1)])) (fresh length_params)
  = Fulfilled (mkEnvelope (JNum 3) JNull)
  /\ safeParse (responseSchema length_params) (JNum 3) = Failure.
Proof. split; reflexivity. Qed.

(** C3, amended: a call on [input] resolves to an envelope exactly when
    the envelope is the success schema's parse of the [res] that the
    handler returned for the parsed input (with a null [err]), or the error
    schema's parse of the non-null [err] it returned, or a [{ message }]
    object the contract builds without validating it (invalid input,
    trapped exception, handler value that fails its schema); so every
    non-null slot validates against its schema whenever both schemas accept
    what they have parsed and the error schema accepts every
    [{ message: string }] object. *)
Theorem execute_schema_conformance :
  forall msg params input s env,
    (promise (execute msg params input) s = Fulfilled env
     <-> Origin msg params input env)
    /\ (promise (execute msg params input) s = Fulfilled env ->
        reaccepts (responseSchema params) ->
        reaccepts (errorSchema params) ->
        (forall message,
            accepts (errorSchema params) (JObj [("message", JStr message)])) ->
        (res env <> JNull -> accepts (responseSchema params) (res env))
        /\ (err env <> JNull -> accepts (errorSchema params) (err env))).
Proof.
  intros msg params input s env. split.
  - split.
    + apply execute_has_origin.
    + apply origin_is_resolved.
  - intros H Hr He Hm.
    destruct (execute_has_origin msg params input s env H)
      as [data result r_res parsed _ _ _ _ Hp
         | data result r_err parsed _ _ _ _ Hp
         | message _]; simpl; split; intros Hnn; try congruence.
    + exact (Hr r_res parsed Hp).
    + exact (He r_err parsed Hp).
    + apply Hm.
Qed.

Lemma execute_schema_conformance_witness :
  Origin jsc_nullish_access_message malformed_err_params
    (JObj [("id", JNum 1)])
    (mkEnvelope JNull
       (JObj [("message",
               JStr "Execution returned an invalid error object")]))
  /\ accepts (errorSchema malformed_err_params)
       (JObj [("message",
               JStr "Execution returned an invalid error object")]).
Proof.
  destruct (execute_schema_conformance jsc_nullish_access_message
              malformed_err_params
              (JObj [("id", JNum 1)]) (fresh malformed_err_params)
              (mkEnvelope JNull
                 (JObj [("message",
                         JStr "Execution returned an invalid error object")])))
    as [Ho Hc].
  split; [exact (proj1 Ho eq_refl)|].
  destruct (Hc eq_refl
               (plain_reaccepts _ id_name_schema_plain)
               (plain_reaccepts _ message_schema_plain)
               message_schema_accepts_messages) as [_ Herr].
  apply Herr. discriminate.
Defined.

(** The value that is parsed is the handler's, not the caller's: for the
    input [{ id: 1 }] the success slot is the parse of the handler's
    [res], with the name the handler gave. *)
Example origin_of_foo_result :
  Origin jsc_nullish_access_message foo_params (JObj [("id", JNum 1)])
    (mkEnvelope (JObj [("id", JNum 1); ("name", JStr "Test")]) JNull)
  /\ ~ Origin jsc_nullish_access_message foo_params (JObj [("id", JNum 1)])
        (mkEnvelope (JObj [("id", JNum 1); ("name", JStr "Other")]) JNull).
Proof.
  split.
  - apply (execute_has_origin jsc_nullish_access_message foo_params
             (JObj [("id", JNum 1)]) (fresh foo_params)).
    reflexivity.
  - intros H.
    apply (origin_is_resolved jsc_nullish_access_message foo_params
             (JObj [("id", JNum 1)]) (fresh foo_params)) in H.
    discriminate H.
Qed.

(** ** Input validation *)

(** C4: if the raw input fails the input schema, [execute] returns
    [{ res: null, err: { message: "Invalid input" } }] and the handler is
    never invoked; if it passes, the handler is invoked exactly once, with
    the parsed input. *)
Theorem execute_input_short_circuit :
  forall msg params input s,
    (safeParse (inputSchema params) input = Failure ->
     promise (execute msg params input) s
     = Fulfilled (mkEnvelope JNull (JObj [("message", JStr "Invalid input")]))
     /\ invocations (calls_of (execute msg params input) s) = [])
    /\ (forall data,
           safeParse (inputSchema params) input = Success data ->
           invocations (calls_of (execute msg params input) s) = [data]).
Proof.
  intros msg params input s. split.
  - intros Hin. unfold promise.
    rewrite (calls_of_eq _ _ _ _ [SafeParsed InputSchema input]
               (execute_invalid_input msg params input s Hin) eq_refl).
    rewrite (execute_invalid_input msg params input s Hin). split; reflexivity.
  - intros data Hin.
    destruct (try_calls msg params data (log (SafeParsed InputSchema input) s))
      as [evs [Ht Hi]].
    rewrite <- (execute_valid_input msg params input data s Hin) in Ht.
    destruct (execute msg params input s) as [c s'] eqn:E.
    rewrite (calls_of_eq _ _ _ _ (SafeParsed InputSchema input :: evs) E).
    + exact Hi.
    + simpl in Ht. rewrite Ht, <- app_assoc. reflexivity.
Qed.

Lemma execute_input_short_circuit_witness :
  (promise (ctx_execute foo (JObj [("id", JStr "not-a-number")]))
     (fresh foo_params)
   = Fulfilled (mkEnvelope JNull (JObj [("message", JStr "Invalid input")]))
   /\ invocations (calls_of (ctx_execute foo
                               (JObj [("id", JStr "not-a-number")]))
                     (fresh foo_params)) = [])
  /\ invocations (calls_of (ctx_execute foo
                              (JObj [("id", JNum 1); ("extra", JBool true)]))
                    (fresh foo_params))
     = [JObj [("id", JNum 1)]].
Proof.
  split.
  - apply (proj1 (execute_input_short_circuit jsc_nullish_access_message
                    foo_params (JObj [("id", JStr "not-a-number")])
                    (fresh foo_params))).
    reflexivity.
  - apply (proj2 (execute_input_short_circuit jsc_nullish_access_message
                    foo_params (JObj [("id", JNum 1); ("extra", JBool true)])
                    (fresh foo_params))).
    reflexivity.
Defined.

(** ** Output validation *)

(** C5: once the input is valid, a handler result whose [err] is non-null
    and fails the error schema resolves to the message "Execution returned
    an invalid error object"; one whose [err] is null and whose [res] fails
    the success schema resolves to "Execution returned an invalid response
    object"; the two messages differ from each other and from "Invalid
    input". *)
Theorem execute_invalid_output_messages :
  forall msg params input s data result,
    safeParse (inputSchema params) input = Success data ->
    execution params data errorCreator = Resolves result ->
    (forall r_err,
        field result "err" = Some r_err ->
        r_err <> JNull ->
        safeParse (errorSchema params) r_err = Failure ->
        promise (execute msg params input) s
        = Fulfilled (mkEnvelope JNull
            (JObj [("message",
                    JStr "Execution returned an invalid error object")])))
    /\ (forall r_res,
           field result "err" = Some JNull ->
           field result "res" = Some r_res ->
           safeParse (responseSchema params) r_res = Failure ->
           promise (execute msg params input) s
           = Fulfilled (mkEnvelope JNull
               (JObj [("message",
                       JStr "Execution returned an invalid response object")])))
    /\ "Execution returned an invalid error object"
       <> "Execution returned an invalid response object"
    /\ "Execution returned an invalid error object" <> "Invalid input"
    /\ "Execution returned an invalid response object" <> "Invalid input".
Proof.
  intros msg params input s data result Hin Hex.
  unfold promise. rewrite (execute_valid_input msg params input data s Hin).
  repeat split; try discriminate.
  - intros r_err Hf Hn Hp.
    rewrite (try_error_branch msg params data _ result r_err Hex Hf Hn).
    rewrite Hp. reflexivity.
  - intros r_res Hf Hr Hp.
    rewrite (try_success_branch msg params data _ result r_res Hex Hf Hr).
    rewrite Hp. reflexivity.
Qed.

Lemma execute_invalid_output_messages_witness :
  promise (execute jsc_nullish_access_message malformed_err_params
             (JObj [("id", JNum 1)])) (fresh malformed_err_params)
  = Fulfilled (mkEnvelope JNull
      (JObj [("message", JStr "Execution returned an invalid error object")]))
  /\ promise (execute jsc_nullish_access_message malformed_res_params
                (JObj [("id", JNum 1)])) (fresh malformed_res_params)
     = Fulfilled (mkEnvelope JNull
         (JObj [("message",
                 JStr "Execution returned an invalid response object")])).
Proof.
  split.
  - apply (proj1 (execute_invalid_output_messages jsc_nullish_access_message
                    malformed_err_params (JObj [("id", JNum 1)])
                    (fresh malformed_err_params) (JObj [("id", JNum 1)])
                    (JObj [("res", JNull);
                           ("err", JObj [("code", JNum 500)])])
                    eq_refl eq_refl)
             (JObj [("code", JNum 500)]) eq_refl).
    + discriminate.
    + reflexivity.
  - apply (proj1 (proj2 (execute_invalid_output_messages
                    jsc_nullish_access_message
                    malformed_res_params (JObj [("id", JNum 1)])
                    (fresh malformed_res_params) (JObj [("id", JNum 1)])
                    (JObj [("res", JStr "not-an-object"); ("err", JNull)])
                    eq_refl eq_refl))
             (JStr "not-an-object") eq_refl eq_refl).
    reflexivity.
Defined.

(** C6: a handler result whose [err] is non-null takes the error branch
    whatever its [res] slot holds: the success schema is never consulted,
    [res] of the returned envelope is null, and [err] is the handler's
    [err] as the error schema parses it (the invalid-error-object error
    when it does not parse). *)
Theorem execute_error_authoritative :
  forall msg params input s data result r_err,
    safeParse (inputSchema params) input = Success data ->
    execution params data errorCreator = Resolves result ->
    field result "err" = Some r_err ->
    r_err <> JNull ->
    (forall v, ~ In (SafeParsed ResponseSchema v)
                    (calls_of (execute msg params input) s))
    /\ promise (execute msg params input) s
       = Fulfilled (mkEnvelope JNull
           match safeParse (errorSchema params) r_err with
           | Success parsedErr_data => parsedErr_data
           | Failure =>
               JObj [("message",
                      JStr "Execution returned an invalid error object")]
           end).
Proof.
  intros msg params input s data result r_err Hin Hex Hf Hn.
  pose proof (execute_valid_input msg params input data s Hin) as He.
  rewrite (try_error_branch msg params data _ result r_err Hex Hf Hn) in He.
  split.
  - intros v.
    rewrite (calls_of_eq _ _ _ _
               [SafeParsed InputSchema input; Invoked data;
                SafeParsed ErrorSchema r_err] He).
    + simpl. intros [H|[H|[H|[]]]]; discriminate.
    + repeat rewrite trace_log. repeat rewrite <- app_assoc. reflexivity.
  - unfold promise. rewrite He. reflexivity.
Qed.

Lemma execute_error_authoritative_witness :
  (forall v, ~ In (SafeParsed ResponseSchema v)
                  (calls_of (execute jsc_nullish_access_message
                               both_slots_params (JObj [("id", JNum 1)]))
                     (fresh both_slots_params)))
  /\ promise (execute jsc_nullish_access_message both_slots_params
                (JObj [("id", JNum 1)])) (fresh both_slots_params)
     = Fulfilled (mkEnvelope JNull (JObj [("message", JStr "Conflict")])).
Proof.
  apply (execute_error_authoritative jsc_nullish_access_message
           both_slots_params (JObj [("id", JNum 1)])
           (fresh both_slots_params) (JObj [("id", JNum 1)])
           (JObj [("res", JObj [("id", JNum 1); ("name", JStr "Test")]);
                  ("err", JObj [("message", JStr "Conflict")])])
           (JObj [("message", JStr "Conflict")])
           eq_refl eq_refl eq_refl).
  discriminate.
Defined.

(** An envelope without an [err] key: [undefined !== null], so the error
    branch is taken and [undefined] fails the error schema. *)
Example missing_err_key_takes_error_branch :
  promise (execute jsc_nullish_access_message missing_err_params
             (JObj [("id", JNum 1)])) (fresh missing_err_params)
  = Fulfilled (mkEnvelope JNull
      (JObj [("message", JStr "Execution returned an invalid error object")])).
Proof. reflexivity. Qed.

(** ** Exception containment *)



(** [throw "boom"]: a thrown string is not an [Error]. *)
Example thrown_string_is_unknown_error :
  promise (execute jsc_nullish_access_message throw_string_params
             (JObj [("id", JNum 1)])) (fresh throw_string_params)
  = Fulfilled (mkEnvelope JNull (JObj [("message", JStr "Unknown error")])).
Proof. reflexivity. Qed.

(** A handler that resolves with [undefined]: reading [result.err] raises
    a [TypeError], whose message the envelope carries. *)
Example undefined_result_is_trapped :
  promise (execute jsc_nullish_access_message undefined_result_params
             (JObj [("id", JNum 1)])) (fresh undefined_result_params)
  = Fulfilled (mkEnvelope JNull
      (JObj [("message",
              JStr "undefined is not an object (evaluating 'result.err')")])).
Proof. reflexivity. Qed.

(** ** The returned object *)

(** C8: [buildFunctionContext] exposes the input schema and the success
    schema it was given as [input.validator] and [response.validator],
    with the [execute] entry point; no sequence of calls to [execute]
    changes these slots, and what a call resolves to does not depend on
    the calls made before. *)
Theorem buildFunctionContext_exposes_schemas :
  forall msg params,
    validator (ctx_input (buildFunctionContext msg params))
    = inputSchema params
    /\ validator (ctx_response (buildFunctionContext msg params))
       = responseSchema params
    /\ ctx_execute (buildFunctionContext msg params) = execute msg params
    /\ (forall inputs,
           validator (slot_input (run_calls msg params inputs
                                    (constructed msg params)))
           = inputSchema params
           /\ validator (slot_response (run_calls msg params inputs
                                          (constructed msg params)))
              = responseSchema params)
    /\ (forall inputs input,
           promise (execute msg params input)
             (run_calls msg params inputs (constructed msg params))
           = promise (execute msg params input) (constructed msg params)).
Proof.
  intros msg params. repeat split.
  - destruct (run_calls_frame msg params inputs (constructed msg params))
      as [Hi _]. rewrite Hi. reflexivity.
  - destruct (run_calls_frame msg params inputs (constructed msg params))
      as [_ Hr]. rewrite Hr. reflexivity.
  - intros inputs input. unfold promise.
    f_equal. apply execute_history_independent.
Qed.

(** ** The example contract *)

(** C9: for the example contract [foo], [execute({ id: 1 })] resolves to
    [{ res: { id: 1, name: "Test" }, err: null }] and [execute({ id: -1 })]
    resolves to [{ res: null, err: { message: "Invalid ID" } }]. *)
Theorem foo_examples :
  promise (ctx_execute foo (JObj [("id", JNum 1)])) (fresh foo_params)
  = Fulfilled (mkEnvelope (JObj [("id", JNum 1); ("name", JStr "Test")])
                          JNull)
  /\ promise (ctx_execute foo (JObj [("id", JNum (-1))])) (fresh foo_params)
     = Fulfilled (mkEnvelope JNull (JObj [("message", JStr "Invalid ID")])).
Proof. split; reflexivity. Qed.

(** The third call of the source's [test]: a malformed input. *)
Example foo_malformed_input :
  promise (ctx_execute foo (JObj [("id", JStr "not-a-number")]))
    (fresh foo_params)
  = Fulfilled (mkEnvelope JNull (JObj [("message", JStr "Invalid input")])).
Proof. reflexivity. Qed.

(** ** Normalisation *)

(** C10: when the handler's envelope passes output validation, [execute]
    returns the value the schema parsed ([parsedErr.data] on the error
    branch, [parsedRes.data] on the success branch), not the handler's own
    object. *)
Theorem execute_returns_parsed_data :
  forall msg params input s data result,
    safeParse (inputSchema params) input = Success data ->
    execution params data errorCreator = Resolves result ->
    (forall r_err parsedErr_data,
        field result "err" = Some r_err ->
        r_err <> JNull ->
        safeParse (errorSchema params) r_err = Success parsedErr_data ->
        promise (execute msg params input) s
        = Fulfilled (mkEnvelope JNull parsedErr_data))
    /\ (forall r_res parsedRes_data,
           field result "err" = Some JNull ->
           field result "res" = Some r_res ->
           safeParse (responseSchema params) r_res = Success parsedRes_data ->
           promise (execute msg params input) s
           = Fulfilled (mkEnvelope parsedRes_data JNull)).
Proof.
  intros msg params input s data result Hin Hex.
  unfold promise. rewrite (execute_valid_input msg params input data s Hin).
  split.
  - intros r_err d Hf Hn Hp.
    rewrite (try_error_branch msg params data _ result r_err Hex Hf Hn).
    rewrite Hp. reflexivity.
  - intros r_res d Hf Hr Hp.
    rewrite (try_success_branch msg params data _ result r_res Hex Hf Hr).
    rewrite Hp. reflexivity.
Qed.

Lemma execute_returns_parsed_data_witness :
  promise (execute jsc_nullish_access_message verbose_params
             (JObj [("id", JNum 0)])) (fresh verbose_params)
  = Fulfilled (mkEnvelope JNull (JObj [("message", JStr "No such user")]))
  /\ promise (execute jsc_nullish_access_message verbose_params
                (JObj [("id", JNum 1)])) (fresh verbose_params)
     = Fulfilled (mkEnvelope (JObj [("id", JNum 1); ("role", JStr "user")])
                             JNull).
Proof.
  split.
  - apply (proj1 (execute_returns_parsed_data jsc_nullish_access_message
                    verbose_params (JObj [("id", JNum 0)])
                    (fresh verbose_params) (JObj [("id", JNum 0)])
                    (JObj [("res", JNull);
                           ("err", JObj [("message", JStr "No such user");
                                         ("stack", JStr "at db.ts:12")])])
                    eq_refl eq_refl)
             (JObj [("message", JStr "No such user");
                    ("stack", JStr "at db.ts:12")])
             (JObj [("message", JStr "No such user")])
             eq_refl).
    + discriminate.
    + reflexivity.
  - apply (proj2 (execute_returns_parsed_data jsc_nullish_access_message
                    verbose_params (JObj [("id", JNum 1)])
                    (fresh verbose_params) (JObj [("id", JNum 1)])
                    (JObj [("res", JObj [("id", JNum 1);
                                         ("password", JStr "hunter2")]);
                           ("err", JNull)])
                    eq_refl eq_refl)
             (JObj [("id", JNum 1); ("password", JStr "hunter2")])
             (JObj [("id", JNum 1); ("role", JStr "user")])
             eq_refl eq_refl).
    reflexivity.
Defined.

(** ** Command-line parsing of the deployment scripts *)

Lemma pair_ind {A} (P : list A -> Prop) :
  P [] -> (forall x, P [x]) -> (forall x y l, P l -> P (x :: y :: l)) ->
  forall l, P l.
Proof.
  intros Hnil Hone Hstep.
  fix IH 1.
  intros [|x [|y l]].
  - exact Hnil.
  - apply Hone.
  - apply Hstep, IH.
Qed.

Lemma truthy_string s : truthy (JStr s) = true <-> s <> "".
Proof.
  simpl. destruct (String.eqb_spec s ""); simpl; split; congruence.
Qed.

Lemma lookup_assign_same k v fields : lookup k (assign k v fields) = Some v.
Proof.
  induction fields as [|[k' x] rest IH]; simpl.
  - now rewrite String.eqb_refl.
  - destruct (String.eqb_spec k k') as [->|Hne]; simpl.
    + now rewrite String.eqb_refl.
    + destruct (String.eqb_spec k k'); [contradiction | exact IH].
Qed.

Lemma lookup_assign_other k k' v fields :
  k <> k' -> lookup k (assign k' v fields) = lookup k fields.
Proof.
  intros Hne. induction fields as [|[k0 x] rest IH]; simpl.
  - destruct (String.eqb_spec k k'); [contradiction | reflexivity].
  - destruct (String.eqb_spec k' k0) as [->|Hne']; simpl.
    + destruct (String.eqb_spec k k0); [contradiction | reflexivity].
    + destruct (String.eqb_spec k k0); [reflexivity | exact IH].
Qed.

Lemma get_assign_same k v fields : get k (assign k v fields) = v.
Proof. unfold get. now rewrite lookup_assign_same. Qed.

Lemma get_assign_other k k' v fields :
  k <> k' -> get k (assign k' v fields) = get k fields.
Proof. intros H. unfold get. now rewrite lookup_assign_other. Qed.

Lemma assign_keys k v fields x :
  In x (map fst (assign k v fields)) <-> x = k \/ In x (map fst fields).
Proof.
  induction fields as [|[k' y] rest IH]; simpl.
  - split; intros [H|H]; auto.
  - destruct (String.eqb_spec k k') as [->|Hne]; simpl.
    + split; intros H; intuition (subst; auto).
    + rewrite IH. split; intros H; intuition (subst; auto).
Qed.

Lemma assign_NoDup k v fields :
  NoDup (map fst fields) -> NoDup (map fst (assign k v fields)).
Proof.
  induction fields as [|[k' y] rest IH]; simpl; intros H.
  - constructor; [intros [] | constructor].
  - inversion H as [|? ? Hk Hrest]; subst.
    destruct (String.eqb_spec k k') as [->|Hne]; simpl.
    + constructor; assumption.
    + constructor; [|now apply IH].
      rewrite assign_keys. intros [E|Hin]; [congruence | contradiction].
Qed.

Lemma assign_In k v fields k0 v0 :
  In (k0, v0) (assign k v fields) -> (k0, v0) = (k, v) \/ In (k0, v0) fields.
Proof.
  induction fields as [|[k' y] rest IH]; simpl.
  - intros [H|[]]. left. now symmetry.
  - destruct (String.eqb_spec k k') as [->|Hne]; simpl.
    + intros [H|H]; [left; now symmetry | right; now right].
    + intros [H|H]; [right; now left|].
      destruct (IH H) as [E|Hin]; [now left | right; now right].
Qed.

Lemma well_formed_even fp args :
  well_formed fp args -> length args mod 2 = 0.
Proof.
  induction args as [|x|flag value rest IH] using pair_ind; intros H.
  - reflexivity.
  - contradiction.
  - destruct H as (_ & _ & _ & H).
    replace (length (flag :: value :: rest)) with (length rest + 1 * 2)
      by (simpl; lia).
    rewrite Nat.Div0.mod_add. exact (IH H).
Qed.

(** The loop runs to its end exactly on well-formed arguments. *)
Lemma parse_pairs_ok_iff fp : forall rest i parsed,
  well_formed fp rest <-> exists out, parse_pairs fp i rest parsed = inr out.
Proof.
  induction rest as [|x|flag value rest IH] using pair_ind;
    intros i parsed; simpl.
  - split; eauto.
  - split; [contradiction | intros [out H]; discriminate].
  - destruct (String.eqb_spec flag "") as [->|Hf]; simpl.
    { split; [intros (H & _); congruence | intros [out H]; discriminate]. }
    destruct (String.eqb_spec value "") as [->|Hv]; simpl.
    { split; [intros (_ & H & _); congruence | intros [out H]; discriminate]. }
    destruct (fp flag) as [property|] eqn:Hp.
    + rewrite <- IH. split; [tauto|].
      intros H. repeat split; auto. discriminate.
    + split; [intros (_ & _ & H & _); congruence
             | intros [out H]; discriminate].
Qed.

(** What the loop leaves in each property. *)
Lemma parse_pairs_value fp k : forall rest i parsed out,
  parse_pairs fp i rest parsed = inr out ->
  get k out = match cli_value fp k rest with
              | JUndefined => get k parsed
              | v => v
              end.
Proof.
  induction rest as [|x|flag value rest IH] using pair_ind;
    intros i parsed out; simpl.
  - intros H. now inversion H.
  - discriminate.
  - destruct (negb (flag =? "") && negb (value =? ""))%bool eqn:Hfv.
    2:{ apply Bool.andb_false_iff in Hfv.
        destruct Hfv as [H|H]; apply Bool.negb_false_iff in H; rewrite H;
          simpl; try discriminate.
        rewrite Bool.orb_true_r. discriminate. }
    apply Bool.andb_true_iff in Hfv. destruct Hfv as [Hf Hv].
    rewrite Hf, Hv. simpl.
    destruct (fp flag) as [property|]; try discriminate.
    intros H. rewrite (IH _ _ _ H).
    destruct (cli_value fp k rest); try reflexivity.
    destruct (String.eqb_spec property k) as [->|Hne].
    + apply get_assign_same.
    + apply get_assign_other. congruence.
Qed.

(** The loop keeps the object well formed. *)
Lemma parse_pairs_invariant fp (Q : string -> Prop) :
  (forall flag k, fp flag = Some k -> Q k) ->
  forall rest i parsed out,
    parse_pairs fp i rest parsed = inr out ->
    NoDup (map fst parsed) ->
    (forall k v, In (k, v) parsed -> non_empty_string v /\ Q k) ->
    NoDup (map fst out)
    /\ (forall k v, In (k, v) out -> non_empty_string v /\ Q k).
Proof.
  intros HQ.
  induction rest as [|x|flag value rest IH] using pair_ind;
    intros i parsed out; simpl.
  - intros H. inversion H; subst. auto.
  - discriminate.
  - destruct (String.eqb_spec flag "") as [->|Hf]; simpl; try discriminate.
    destruct (String.eqb_spec value "") as [->|Hv]; simpl; try discriminate.
    destruct (fp flag) as [property|] eqn:Hp; try discriminate.
    intros H Hnd Hall. apply (IH _ _ _ H).
    + now apply assign_NoDup.
    + intros k v Hin. apply assign_In in Hin. destruct Hin as [E|Hin].
      * inversion E; subst. split; [now exists value | eauto].
      * now apply Hall.
Qed.


Lemma env_fallback_get_other k k' env parsed :
  k <> k' -> get k (env_fallback k' env parsed) = get k parsed.
Proof.
  intros H. unfold env_fallback.
  destruct (negb (truthy (get k' parsed)) && truthy (of_option env))%bool;
    [now apply get_assign_other | reflexivity].
Qed.

Lemma env_fallback_get k env parsed :
  get k (env_fallback k env parsed)
  = if truthy (get k parsed) then get k parsed
    else if truthy (of_option env) then of_option env
    else get k parsed.
Proof.
  unfold env_fallback.
  destruct (truthy (get k parsed)); simpl; [reflexivity|].
  destruct (truthy (of_option env)); [apply get_assign_same | reflexivity].
Qed.

Lemma env_fallback_invariant (Q : string -> Prop) k env parsed :
  Q k ->
  NoDup (map fst parsed)
  /\ (forall k v, In (k, v) parsed -> non_empty_string v /\ Q k) ->
  NoDup (map fst (env_fallback k env parsed))
  /\ (forall k0 v, In (k0, v) (env_fallback k env parsed) ->
                   non_empty_string v /\ Q k0).
Proof.
  intros HQ [Hnd Hall]. unfold env_fallback.
  destruct (negb (truthy (get k parsed))); simpl; auto.
  destruct env as [s|]; simpl; auto.
  destruct (String.eqb_spec s "") as [->|Hs]; simpl; auto.
  split; [now apply assign_NoDup|].
  intros k0 v Hin. apply assign_In in Hin. destruct Hin as [E|Hin].
  - inversion E; subst. split; [now exists s | exact HQ].
  - now apply Hall.
Qed.

(** The three ways [parseArgs] ends. *)
Lemma parseArgs_cases fp process :
  (length (args_of process) mod 2 <> 0
   /\ parseArgs_with fp process
      = mkEnvelope JNull
          (error_of "Arguments must be provided as flag-value pairs"))
  \/ (length (args_of process) mod 2 = 0
      /\ exists message,
           parse_pairs fp 0 (args_of process) [] = inl message
           /\ parseArgs_with fp process
              = mkEnvelope JNull (error_of message))
  \/ (exists parsed,
         parse_pairs fp 0 (args_of process) [] = inr parsed
         /\ parseArgs_with fp process
            = mkEnvelope
                (JObj (env_fallback "ownerId" (RENDER_OWNER_ID process)
                         (env_fallback "apiKey" (RENDER_API_KEY process)
                            parsed)))
                JNull).
Proof.
  unfold parseArgs_with.
  destruct (Nat.eqb_spec (length (args_of process) mod 2) 0) as [E|E]; simpl.
  - right. destruct (parse_pairs fp 0 (args_of process) []) as [m|parsed].
    + left. eauto.
    + right. eauto.
  - left. auto.
Qed.

(** X1: an odd number of arguments is rejected before any of them is
    looked at. *)
Theorem parseArgs_odd_arguments :
  forall fp process,
    Nat.Odd (length (args_of process)) ->
    parseArgs_with fp process
    = mkEnvelope JNull
        (JObj [("message",
                JStr "Arguments must be provided as flag-value pairs")]).
Proof.
  intros fp process [m Hm]. unfold parseArgs_with. rewrite Hm.
  replace (2 * m + 1) with (1 + m * 2) by lia.
  rewrite Nat.Div0.mod_add. reflexivity.
Qed.

Lemma parseArgs_odd_arguments_witness :
  service_parseArgs (mkProcess ["--repo"; "me/api"; "--oops"] None None)
  = mkEnvelope JNull
      (JObj [("message",
              JStr "Arguments must be provided as flag-value pairs")]).
Proof.
  apply (parseArgs_odd_arguments service_flag
           (mkProcess ["--repo"; "me/api"; "--oops"] None None)).
  exists 1. reflexivity.
Defined.

(** X2: [parseArgs] succeeds exactly on flag-value pairs whose flags are
    known and whose flags and values are not empty; its result is either
    an object with a null error or a null result with a [{ message }]
    error. *)
Theorem parseArgs_succeeds_iff_well_formed :
  forall fp process,
    (err (parseArgs_with fp process) = JNull
     <-> well_formed fp (args_of process))
    /\ ((exists fields,
            parseArgs_with fp process = mkEnvelope (JObj fields) JNull)
        \/ (exists message,
               parseArgs_with fp process
               = mkEnvelope JNull (JObj [("message", JStr message)]))).
Proof.
  intros fp process.
  destruct (parseArgs_cases fp process)
    as [[Hodd E] | [[Heven [m [Hp E]]] | [parsed [Hp E]]]]; rewrite E;
    unfold error_of; simpl.
  - split; [|right; eauto].
    split; [discriminate|].
    intros H. apply well_formed_even in H. contradiction.
  - split; [|right; eauto].
    split; [discriminate|].
    intros H. apply (parse_pairs_ok_iff fp _ 0 []) in H.
    destruct H as [out H]. congruence.
  - split; [|left; eauto].
    split; [intros _ | reflexivity].
    apply (parse_pairs_ok_iff fp _ 0 []). eauto.
Qed.

(** X3: on success each property other than [apiKey] and [ownerId] holds
    the value of the last pair whose flag sets it, and is [undefined]
    when no pair does. *)
Theorem parseArgs_last_flag_wins :
  forall fp process fields k,
    parseArgs_with fp process = mkEnvelope (JObj fields) JNull ->
    k <> "apiKey" -> k <> "ownerId" ->
    get k fields = cli_value fp k (args_of process).
Proof.
  intros fp process fields k H Hk1 Hk2.
  destruct (parseArgs_cases fp process)
    as [[Hodd E] | [[Heven [m [Hp E]]] | [parsed [Hp E]]]];
    rewrite E in H; try discriminate.
  inversion H; subst.
  rewrite env_fallback_get_other, env_fallback_get_other by assumption.
  rewrite (parse_pairs_value fp k _ _ _ _ Hp).
  destruct (cli_value fp k (args_of process)); reflexivity.
Qed.

Lemma parseArgs_last_flag_wins_witness :
  get "repoName"
    [("repoName", JStr "me/new"); ("serviceName", JStr "api");
     ("apiKey", JStr "rnd_1")]
  = cli_value service_flag "repoName"
      ["--repo"; "me/old"; "--service"; "api"; "--repo"; "me/new"].
Proof.
  apply (parseArgs_last_flag_wins service_flag
           (mkProcess ["--repo"; "me/old"; "--service"; "api";
                       "--repo"; "me/new"] (Some "rnd_1") None)).
  - reflexivity.
  - discriminate.
  - discriminate.
Defined.

Lemma lookup_In k v fields : lookup k fields = Some v -> In (k, v) fields.
Proof.
  induction fields as [|[k' x] rest IH]; simpl; try discriminate.
  destruct (String.eqb_spec k k') as [->|Hne].
  - intros H. inversion H. now left.
  - intros H. right. now apply IH.
Qed.

(** A property that is set holds a truthy value. *)
Lemma set_property_truthy k fields :
  (forall k v, In (k, v) fields -> non_empty_string v) ->
  get k fields = JUndefined \/ truthy (get k fields) = true.
Proof.
  intros Hall. unfold get.
  destruct (lookup k fields) as [v|] eqn:E; [right | now left].
  destruct (Hall k v (lookup_In _ _ _ E)) as [s [-> Hs]].
  now apply truthy_string.
Qed.

Lemma parse_pairs_from_empty fp args parsed :
  parse_pairs fp 0 args [] = inr parsed ->
  (forall k, get k parsed = cli_value fp k args)
  /\ (forall k v, In (k, v) parsed -> non_empty_string v).
Proof.
  intros H. split.
  - intros k. rewrite (parse_pairs_value fp k _ _ _ _ H).
    destruct (cli_value fp k args); reflexivity.
  - intros k v Hin.
    destruct (parse_pairs_invariant fp (fun _ => True) (fun _ _ _ => I)
                _ _ _ _ H (NoDup_nil _)) as [_ Hall].
    + intros ? ? [].
    + now apply (Hall k v).
Qed.

Lemma env_fallback_value k env parsed :
  (forall k v, In (k, v) parsed -> non_empty_string v) ->
  get k (env_fallback k env parsed) = with_fallback (get k parsed) env.
Proof.
  intros Hall. rewrite env_fallback_get.
  destruct (set_property_truthy k parsed Hall) as [E|E]; rewrite E.
  - simpl. destruct env as [s|]; simpl; auto.
    destruct (s =? ""); reflexivity.
  - destruct (get k parsed); simpl in *; try discriminate; reflexivity.
Qed.

(** X4: on success [apiKey] is the value of the last [--key] pair when
    there is one, else the environment variable [RENDER_API_KEY] when it
    is set and not empty, else [undefined]; likewise [ownerId] with
    [RENDER_OWNER_ID]. *)
Theorem parseArgs_env_fallback :
  forall fp process fields,
    parseArgs_with fp process = mkEnvelope (JObj fields) JNull ->
    get "apiKey" fields
    = match cli_value fp "apiKey" (args_of process) with
      | JUndefined =>
          match RENDER_API_KEY process with
          | Some s => if s =? "" then JUndefined else JStr s
          | None => JUndefined
          end
      | v => v
      end
    /\ get "ownerId" fields
       = match cli_value fp "ownerId" (args_of process) with
         | JUndefined =>
             match RENDER_OWNER_ID process with
             | Some s => if s =? "" then JUndefined else JStr s
             | None => JUndefined
             end
         | v => v
         end.
Proof.
  intros fp process fields H.
  destruct (parseArgs_cases fp process)
    as [[Hodd E] | [[Heven [m [Hp E]]] | [parsed [Hp E]]]];
    rewrite E in H; try discriminate.
  inversion H; subst.
  destruct (parse_pairs_from_empty fp _ _ Hp) as [Hv Hall].
  split.
  - rewrite env_fallback_get_other by discriminate.
    rewrite (env_fallback_value _ _ _ Hall), Hv.
    destruct (cli_value fp "apiKey" (args_of process)); reflexivity.
  - assert (Hall' : forall k v,
               In (k, v) (env_fallback "apiKey" (RENDER_API_KEY process)
                            parsed) -> non_empty_string v).
    { intros k v Hin.
      destruct (env_fallback_invariant (fun _ => True) "apiKey"
                  (RENDER_API_KEY process) parsed I) as [_ Ha].
      - destruct (parse_pairs_invariant fp (fun _ => True) (fun _ _ _ => I)
                    _ _ _ _ Hp (NoDup_nil _)) as [Hnd Hq].
        + intros ? ? [].
        + split; assumption.
      - now apply (Ha k v). }
    rewrite (env_fallback_value _ _ _ Hall').
    rewrite env_fallback_get_other by discriminate.
    rewrite Hv.
    destruct (cli_value fp "ownerId" (args_of process)); reflexivity.
Qed.

Lemma parseArgs_env_fallback_witness :
  get "apiKey" [("repoName", JStr "me/api"); ("ownerId", JStr "tea-1");
                ("apiKey", JStr "rnd_env")]
  = JStr "rnd_env"
  /\ get "ownerId" [("repoName", JStr "me/api"); ("ownerId", JStr "tea-1");
                    ("apiKey", JStr "rnd_env")]
     = JStr "tea-1".
Proof.
  apply (parseArgs_env_fallback service_flag
           (mkProcess ["--repo"; "me/api"; "--owner"; "tea-1"]
                      (Some "rnd_env") (Some "tea-env"))).
  reflexivity.
Defined.

(** X5: on success the object lists every key once, every property it
    holds is a non-empty string, and its keys are properties the flags
    set, [apiKey] or [ownerId]. *)
Theorem parseArgs_fields_invariant :
  forall fp process fields,
    parseArgs_with fp process = mkEnvelope (JObj fields) JNull ->
    NoDup (map fst fields)
    /\ (forall k v,
           In (k, v) fields ->
           non_empty_string v
           /\ ((exists flag, fp flag = Some k)
               \/ k = "apiKey" \/ k = "ownerId")).
Proof.
  intros fp process fields H.
  destruct (parseArgs_cases fp process)
    as [[Hodd E] | [[Heven [m [Hp E]]] | [parsed [Hp E]]]];
    rewrite E in H; try discriminate.
  inversion H; subst.
  apply env_fallback_invariant; [auto|].
  apply env_fallback_invariant; [auto|].
  apply (parse_pairs_invariant fp _ (fun flag k Hf => or_introl (ex_intro _ flag Hf))
           _ _ _ _ Hp (NoDup_nil _)).
  intros ? ? [].
Qed.

Lemma parseArgs_fields_invariant_witness :
  NoDup (map fst [("dbName", JStr "mydb"); ("region", JStr "ohio");
                  ("apiKey", JStr "rnd_env")])
  /\ (forall k v,
         In (k, v) [("dbName", JStr "mydb"); ("region", JStr "ohio");
                    ("apiKey", JStr "rnd_env")] ->
         non_empty_string v
         /\ ((exists flag, postgres_flag flag = Some k)
             \/ k = "apiKey" \/ k = "ownerId")).
Proof.
  apply (parseArgs_fields_invariant postgres_flag
           (mkProcess ["--name"; "mydb"; "--region"; "ohio"]
                      (Some "rnd_env") (Some ""))).
  reflexivity.
Defined.



(** ** Creating the service *)

Lemma min_1_true s : min_1 s = true <-> s <> "".
Proof.
  unfold min_1. destruct s; simpl; split; congruence.
Qed.

Lemma service_input_accepted input r a s o :
  service_input input r a s o ->
  safeParse service_InputSchema input = Success (service_data r a s o).
Proof.
  intros (fields & -> & Hr & Hr' & Ha & Ha' & Hs & Hs' & Ho & Ho').
  apply min_1_true in Hr', Ha', Hs', Ho'.
  simpl. rewrite Hr, Ha, Hs, Ho, Hr', Ha', Hs', Ho'. reflexivity.
Qed.

Lemma service_input_rejected input :
  (forall r a s o, ~ service_input input r a s o) ->
  safeParse service_InputSchema input = Failure.
Proof.
  intros H.
  destruct (safeParse service_InputSchema input) as [data|] eqn:E;
    [exfalso | reflexivity].
  simpl in E. destruct input as [| | | | |fields]; try discriminate.
  destruct (get "repoName" fields) as [| | | |r|] eqn:Hr; try discriminate.
  destruct (min_1 r) eqn:Hr'; try discriminate.
  destruct (get "apiKey" fields) as [| | | |a|] eqn:Ha; try discriminate.
  destruct (min_1 a) eqn:Ha'; try discriminate.
  destruct (get "serviceName" fields) as [| | | |s|] eqn:Hs; try discriminate.
  destruct (min_1 s) eqn:Hs'; try discriminate.
  destruct (get "ownerId" fields) as [| | | |o|] eqn:Ho; try discriminate.
  destruct (min_1 o) eqn:Ho'; try discriminate.
  apply min_1_true in Hr', Ha', Hs', Ho'.
  apply (H r a s o). exists fields. repeat split; assumption.
Qed.

Section ScriptRuns.

Variable JSON_parse : string -> option Value.
Variable is_url : string -> bool.
Variable input_error_message : Value -> string.
Variable nullish_access_message : Value -> string -> string.
Variable fetch : Request -> FetchResult.

(** What the response schema accepts of the object the code builds. *)
Lemma service_response_parse id name url data :
  safeParse (service_ResponseSchema is_url)
    (JObj [("id", id); ("name", name); ("url", url)]) = Success data ->
  exists i n u,
    id = JStr i /\ name = JStr n /\ url = JStr u /\ is_url u = true
    /\ data = JObj [("id", JStr i); ("name", JStr n); ("url", JStr u)].
Proof.
  destruct id as [| | | |i|]; try (compute; discriminate).
  destruct name as [| | | |n|]; try (compute; discriminate).
  destruct url as [| | | |u|]; try (compute; discriminate).
  compute. destruct (is_url u) eqn:Hu; try discriminate.
  intros H. inversion H. exists i, n, u. repeat split; auto.
Qed.

(** The result read off an [ok] body is an error with a string message
    or a validated success. *)
Lemma service_of_data_shape serviceName data result :
  service_of_data is_url nullish_access_message serviceName data
  = Normal result ->
  (res result = JNull /\ exists m, err result = JObj [("message", JStr m)])
  \/ (err result = JNull
      /\ exists id name url,
           res result = JObj [("id", JStr id); ("name", JStr name);
                              ("url", JStr url)]
           /\ is_url url = true).
Proof.
  unfold service_of_data, read, and_then, error_of.
  remember (safeParse (service_ResponseSchema is_url)) as parse eqn:Hparse.
  repeat (break_match; simpl; try discriminate);
    intros H; inversion H; subst result; clear H; simpl;
    try (left; split; [reflexivity | eauto]).
  all: right; split; [reflexivity|].
  all: match goal with
       | H : _ _ = Success _ |- _ =>
           rewrite Hparse in H;
           apply service_response_parse in H;
           destruct H as (i & n & u & _ & _ & _ & Hu & ->)
       end.
  all: eauto.
Qed.

(** Once the outer [catch] has run, the [try] block gives an error
    object or a validated success, and never an exception. *)
Lemma service_try_shape serviceName fetched :
  match catching (service_try JSON_parse is_url nullish_access_message
                    serviceName fetched) script_catch with
  | Normal result =>
      (res result = JNull /\ exists m, err result = JObj [("message", m)])
      \/ (err result = JNull
          /\ (exists response,
                 fetched = FetchResolves response /\ ok response = true)
          /\ exists id name url,
               res result = JObj [("id", JStr id); ("name", JStr name);
                                  ("url", JStr url)]
               /\ is_url url = true)
  | Abrupt _ => False
  | Suspended =>
      fetched = FetchPending
      \/ exists response,
           fetched = FetchResolves response /\ text response = Suspended
  end.
Proof.
  unfold service_try, script_catch, error_of.
  destruct fetched as [response|e|]; simpl; eauto.
  destruct (text response) as [responseText|e|] eqn:Ht; simpl; eauto.
  destruct (ok response) eqn:Hok; simpl; eauto.
  destruct (JSON_parse responseText) as [data|]; simpl; eauto.
  destruct (service_of_data is_url nullish_access_message serviceName data)
    as [result|e|] eqn:E; simpl; eauto.
  - destruct (service_of_data_shape _ _ _ E) as [[Hr [m Hm]]|[He Hs]].
    + left. eauto.
    + right. eauto 10.
  - revert E. unfold service_of_data, read, and_then.
    repeat (break_match; simpl; try discriminate).
Qed.

(** A call on a valid input sends one request and runs the [try]
    block on what [fetch] gives. *)
Lemma createRenderService_valid input r a s o :
  service_input input r a s o ->
  createRenderService JSON_parse is_url input_error_message
    nullish_access_message fetch input
  = ([service_request (service_data r a s o)],
     promise_of
       (catching
          (service_try JSON_parse is_url nullish_access_message (JStr s)
             (fetch (service_request (service_data r a s o))))
          script_catch)).
Proof.
  intros H. unfold createRenderService.
  rewrite (service_input_accepted _ _ _ _ _ H). reflexivity.
Qed.

Lemma createRenderService_invalid input :
  (forall r a s o, ~ service_input input r a s o) ->
  createRenderService JSON_parse is_url input_error_message
    nullish_access_message fetch input
  = ([],
     Fulfilled
       (mkEnvelope JNull
          (JObj [("message",
                  JStr (if input_error_message input =? ""
                        then "Invalid input"
                        else input_error_message input))]))).
Proof.
  intros H. unfold createRenderService.
  rewrite (service_input_rejected _ H). unfold js_or. simpl.
  destruct (input_error_message input =? ""); reflexivity.
Qed.

(** An input is valid or it is not. *)
Lemma service_input_dec input :
  (exists r a s o, service_input input r a s o)
  \/ (forall r a s o, ~ service_input input r a s o).
Proof.
  destruct (safeParse service_InputSchema input) as [data|] eqn:E.
  - left. simpl in E. destruct input as [| | | | |fields]; try discriminate.
    destruct (get "repoName" fields) as [| | | |r|] eqn:Hr; try discriminate.
    destruct (min_1 r) eqn:Hr'; try discriminate.
    destruct (get "apiKey" fields) as [| | | |a|] eqn:Ha; try discriminate.
    destruct (min_1 a) eqn:Ha'; try discriminate.
    destruct (get "serviceName" fields) as [| | | |s|] eqn:Hs;
      try discriminate.
    destruct (min_1 s) eqn:Hs'; try discriminate.
    destruct (get "ownerId" fields) as [| | | |o|] eqn:Ho; try discriminate.
    destruct (min_1 o) eqn:Ho'; try discriminate.
    apply min_1_true in Hr', Ha', Hs', Ho'.
    exists r, a, s, o, fields. repeat split; assumption.
  - right. intros r a s o H.
    rewrite (service_input_accepted _ _ _ _ _ H) in E. discriminate.
Qed.

End ScriptRuns.

(** X7: an input that is not an object with four non-empty strings is
    refused without any request being sent; the error carries zod's
    text, or "Invalid input" when that text is empty. *)
Theorem createRenderService_invalid_input_sends_nothing :
  forall JSON_parse is_url input_error_message nullish_access_message fetch
         input,
    (forall r a s o, ~ service_input input r a s o) ->
    createRenderService JSON_parse is_url input_error_message
      nullish_access_message fetch input
    = ([],
       Fulfilled
         (mkEnvelope JNull
            (JObj [("message",
                    JStr (if input_error_message input =? ""
                          then "Invalid input"
                          else input_error_message input))]))).
Proof.
  intros. now apply createRenderService_invalid.
Qed.

Lemma createRenderService_invalid_input_sends_nothing_witness :
  sample_createRenderService
    (JObj [("repoName", JStr "me/api"); ("serviceName", JStr "api");
           ("apiKey", JStr ""); ("ownerId", JStr "tea-1")])
  = ([],
     Fulfilled
       (mkEnvelope JNull (JObj [("message", JStr "[ { too_small } ]")]))).
Proof.
  apply (createRenderService_invalid_input_sends_nothing
           sample_JSON_parse sample_is_url sample_input_error_message
           jsc_nullish_access_message sample_fetch).
  intros r a s o (fields & E & _ & _ & Ha & Ha' & _).
  inversion E; subst. compute in Ha. inversion Ha. congruence.
Defined.

(** X8: [createRenderService] sends at most one request, its promise is
    never rejected, and a fulfilled result has exactly one non-null
    slot: a [{ message }] error or a validated value. *)
Theorem createRenderService_never_rejects :
  forall JSON_parse is_url input_error_message nullish_access_message fetch
         input,
    let run := createRenderService JSON_parse is_url input_error_message
                 nullish_access_message fetch input in
    length (fst run) <= 1
    /\ (forall e, snd run <> Rejected e)
    /\ (forall result,
           snd run = Fulfilled result ->
           exactly_one_non_null result
           /\ (err result = JNull
               \/ exists m, err result = JObj [("message", m)])).
Proof.
  intros JSON_parse is_url iem nam fetch input run. subst run.
  destruct (service_input_dec input) as [(r & a & s & o & H)|H].
  - rewrite (createRenderService_valid _ _ iem _ fetch _ _ _ _ _ H). simpl.
    pose proof (service_try_shape JSON_parse is_url nam (JStr s)
                  (fetch (service_request (service_data r a s o)))) as Hs.
    destruct (catching _ _) as [result|e|]; simpl.
    + split; [lia|]. split; [discriminate|].
      intros result' E. inversion E; subst result'.
      unfold exactly_one_non_null.
      destruct Hs as [[Hr [m Hm]]|[He [_ (id & name & url & Hres & _)]]].
      * rewrite Hr, Hm. split; [left; split; [reflexivity|discriminate]|].
        right. eauto.
      * rewrite He, Hres. split; [right; split; [discriminate|reflexivity]|].
        now left.
    + contradiction.
    + split; [lia|]. split; discriminate.
  - rewrite (createRenderService_invalid _ _ iem _ fetch _ H). simpl.
    split; [lia|]. split; [discriminate|].
    intros result E. inversion E; subst result. simpl.
    unfold exactly_one_non_null. simpl.
    split; [left; split; [reflexivity|discriminate] | right; eauto].
Qed.

Lemma createRenderService_never_rejects_witness :
  exactly_one_non_null
    (mkEnvelope JNull (JObj [("message", JStr "unauthorized")]))
  /\ (err (mkEnvelope JNull (JObj [("message", JStr "unauthorized")])) = JNull
      \/ exists m,
           err (mkEnvelope JNull (JObj [("message", JStr "unauthorized")]))
           = JObj [("message", m)]).
Proof.
  apply (proj2 (proj2 (createRenderService_never_rejects
           sample_JSON_parse sample_is_url sample_input_error_message
           jsc_nullish_access_message sample_fetch
           (service_data "me/api" "rnd_bad" "api" "tea-1")))).
  reflexivity.
Defined.

(** X9: a result without error comes from a response with a status from
    200 to 299, and its value is [{ id, name, url }] with string [id] and
    [name] and a [url] that passes the URL check. *)
Theorem createRenderService_success_validated :
  forall JSON_parse is_url input_error_message nullish_access_message fetch
         input result,
    snd (createRenderService JSON_parse is_url input_error_message
           nullish_access_message fetch input) = Fulfilled result ->
    err result = JNull ->
    exists request response id name url,
      fst (createRenderService JSON_parse is_url input_error_message
             nullish_access_message fetch input) = [request]
      /\ fetch request = FetchResolves response
      /\ 200 <= status response <= 299
      /\ res result = JObj [("id", JStr id); ("name", JStr name);
                            ("url", JStr url)]
      /\ is_url url = true.
Proof.
  intros JSON_parse is_url iem nam fetch input result.
  destruct (service_input_dec input) as [(r & a & s & o & H)|H].
  - rewrite (createRenderService_valid _ _ iem _ fetch _ _ _ _ _ H). simpl.
    pose proof (service_try_shape JSON_parse is_url nam (JStr s)
                  (fetch (service_request (service_data r a s o)))) as Hs.
    destruct (catching _ _) as [result'|e|]; simpl; try discriminate.
    intros E Herr. inversion E; subst result'.
    destruct Hs as [[_ [m Hm]]
                   |[_ [[response [Hf Hok]] (id & name & url & Hres & Hu)]]].
    + rewrite Hm in Herr. discriminate.
    + exists (service_request (service_data r a s o)), response, id, name, url.
      repeat split; auto.
      * unfold ok in Hok. apply Bool.andb_true_iff in Hok.
        now apply Nat.leb_le.
      * unfold ok in Hok. apply Bool.andb_true_iff in Hok.
        now apply Nat.leb_le.
  - rewrite (createRenderService_invalid _ _ iem _ fetch _ H). simpl.
    intros E Herr. inversion E; subst result. discriminate.
Qed.

Lemma createRenderService_success_validated_witness :
  exists request response id name url,
    fst (sample_createRenderService
           (service_data "me/api" "rnd_ok" "api" "tea-1")) = [request]
    /\ sample_fetch request = FetchResolves response
    /\ 200 <= status response <= 299
    /\ JObj [("id", JStr "srv-1"); ("name", JStr "api");
             ("url", JStr "https://api.onrender.com")]
       = JObj [("id", JStr id); ("name", JStr name); ("url", JStr url)]
    /\ sample_is_url url = true.
Proof.
  apply (createRenderService_success_validated
           sample_JSON_parse sample_is_url sample_input_error_message
           jsc_nullish_access_message sample_fetch
           (service_data "me/api" "rnd_ok" "api" "tea-1")
           (mkEnvelope (JObj [("id", JStr "srv-1"); ("name", JStr "api");
                              ("url", JStr "https://api.onrender.com")])
                       JNull)).
  - reflexivity.
  - reflexivity.
Defined.

(** X10: for a response whose status is not from 200 to 299 the error
    message is the [message] of the JSON body when that is truthy, else
    its [error] when that is truthy, else "HTTP <status>: <statusText>";
    the last also when the body is not JSON, is [null] or is not an
    object. The message is passed on as it is, string or not. *)
Theorem createRenderService_error_message :
  forall JSON_parse is_url input_error_message nullish_access_message fetch
         input r a s o response responseText,
    service_input input r a s o ->
    fetch (service_request (service_data r a s o)) = FetchResolves response ->
    ok response = false ->
    text response = Normal responseText ->
    snd (createRenderService JSON_parse is_url input_error_message
           nullish_access_message fetch input)
    = Fulfilled
        (mkEnvelope JNull
           (JObj [("message",
                   match JSON_parse responseText with
                   | Some (JObj errorData) =>
                       if truthy (get "message" errorData)
                       then get "message" errorData
                       else if truthy (get "error" errorData)
                            then get "error" errorData
                            else http_error response
                   | _ => http_error response
                   end)])).
Proof.
  intros JSON_parse is_url iem nam fetch input r a s o response t
    H Hf Hok Ht.
  rewrite (createRenderService_valid _ _ iem _ fetch _ _ _ _ _ H). simpl.
  rewrite Hf. unfold service_try, and_then, error_message_of, http_error.
  rewrite Ht, Hok. simpl.
  destruct (JSON_parse t) as [[| | | | |errorData]|]; simpl; try reflexivity.
  unfold js_or.
  destruct (truthy (get "message" errorData)) eqn:Hm; simpl.
  - rewrite Hm. reflexivity.
  - reflexivity.
Qed.

Lemma createRenderService_error_message_witness :
  snd (sample_createRenderService
         (service_data "me/api" "rnd_bad" "api" "tea-1"))
  = Fulfilled
      (mkEnvelope JNull (JObj [("message", JStr "unauthorized")])).
Proof.
  apply (createRenderService_error_message
           sample_JSON_parse sample_is_url sample_input_error_message
           jsc_nullish_access_message sample_fetch
           (service_data "me/api" "rnd_bad" "api" "tea-1")
           "me/api" "rnd_bad" "api" "tea-1"
           (mkHttpResponse 401 "Unauthorized" (Normal unauthorized_body))
           unauthorized_body).
  - exists [("repoName", JStr "me/api"); ("apiKey", JStr "rnd_bad");
            ("serviceName", JStr "api"); ("ownerId", JStr "tea-1")].
    repeat split; try reflexivity; discriminate.
  - reflexivity.
  - reflexivity.
  - reflexivity.
Defined.

(** X11: for a response with a status from 200 to 299, a body that is
    not JSON gives "Response is not valid JSON", a body that is [null]
    gives the message of the [TypeError] its first property read raises,
    and an object with neither a truthy [service] nor a truthy [id] gives
    "Unexpected response structure from Render API". *)
Theorem createRenderService_unusable_body :
  forall JSON_parse is_url input_error_message nullish_access_message fetch
         input r a s o response responseText,
    service_input input r a s o ->
    fetch (service_request (service_data r a s o)) = FetchResolves response ->
    ok response = true ->
    text response = Normal responseText ->
    (JSON_parse responseText = None ->
     snd (createRenderService JSON_parse is_url input_error_message
            nullish_access_message fetch input)
     = Fulfilled
         (mkEnvelope JNull
            (JObj [("message", JStr "Response is not valid JSON")])))
    /\ (JSON_parse responseText = Some JNull ->
        snd (createRenderService JSON_parse is_url input_error_message
               nullish_access_message fetch input)
        = Fulfilled
            (mkEnvelope JNull
               (JObj [("message",
                       JStr (nullish_access_message JNull "service"))])))
    /\ (forall data,
           JSON_parse responseText = Some (JObj data) ->
           truthy (get "service" data) = false ->
           truthy (get "id" data) = false ->
           snd (createRenderService JSON_parse is_url input_error_message
                  nullish_access_message fetch input)
           = Fulfilled
               (mkEnvelope JNull
                  (JObj [("message",
                          JStr "Unexpected response structure from Render API")]))).
Proof.
  intros JSON_parse is_url iem nam fetch input r a s o response t
    H Hf Hok Ht.
  rewrite (createRenderService_valid _ _ iem _ fetch _ _ _ _ _ H). simpl.
  rewrite Hf. unfold service_try, and_then. rewrite Ht, Hok. simpl.
  repeat split.
  - intros ->. reflexivity.
  - intros ->. reflexivity.
  - intros data -> Hs Hi. unfold service_of_data, read, and_then. simpl.
    rewrite Hs, Hi. reflexivity.
Qed.

Lemma createRenderService_unusable_body_witness :
  snd (createRenderService sample_JSON_parse sample_is_url
         sample_input_error_message jsc_nullish_access_message
         (fun _ => FetchResolves (mkHttpResponse 200 "OK" (Normal "{}")))
         (service_data "me/api" "rnd_ok" "api" "tea-1"))
  = Fulfilled
      (mkEnvelope JNull
         (JObj [("message",
                 JStr "Unexpected response structure from Render API")])).
Proof.
  assert (Hin : service_input (service_data "me/api" "rnd_ok" "api" "tea-1")
                  "me/api" "rnd_ok" "api" "tea-1").
  { exists [("repoName", JStr "me/api"); ("apiKey", JStr "rnd_ok");
            ("serviceName", JStr "api"); ("ownerId", JStr "tea-1")].
    repeat split; try reflexivity; discriminate. }
  apply (proj2 (proj2 (createRenderService_unusable_body
           sample_JSON_parse sample_is_url sample_input_error_message
           jsc_nullish_access_message
           (fun _ => FetchResolves (mkHttpResponse 200 "OK" (Normal "{}")))
           (service_data "me/api" "rnd_ok" "api" "tea-1")
           "me/api" "rnd_ok" "api" "tea-1"
           (mkHttpResponse 200 "OK" (Normal "{}")) "{}"
           Hin eq_refl eq_refl eq_refl)) []).
  - reflexivity.
  - reflexivity.
  - reflexivity.
Defined.

(** ** From the command line to the request *)

(** What a successful [parseArgs] holds. *)
Lemma parseArgs_ok fp process parsed :
  parse_pairs fp 0 (args_of process) [] = inr parsed ->
  exists fields,
    parseArgs_with fp process = mkEnvelope (JObj fields) JNull
    /\ (forall k, get k fields = provided fp process k)
    /\ (forall k v, In (k, v) fields -> non_empty_string v).
Proof.
  intros Hp.
  destruct (parseArgs_cases fp process)
    as [[Hodd E] | [[Heven [m [Hp' E]]] | [parsed' [Hp' E]]]].
  - exfalso. apply Hodd. apply (well_formed_even fp).
    apply (parse_pairs_ok_iff fp _ 0 []). eauto.
  - congruence.
  - rewrite Hp in Hp'. inversion Hp'; subst parsed'.
    eexists. split; [exact E|].
    destruct (parse_pairs_from_empty fp _ _ Hp) as [Hv Hall].
    assert (Hall' : forall k v,
               In (k, v) (env_fallback "apiKey" (RENDER_API_KEY process)
                            parsed) -> non_empty_string v).
    { intros k v Hin.
      destruct (env_fallback_invariant (fun _ => True) "apiKey"
                  (RENDER_API_KEY process) parsed I) as [_ Ha].
      - destruct (parse_pairs_invariant fp (fun _ => True) (fun _ _ _ => I)
                    _ _ _ _ Hp (NoDup_nil _)) as [Hnd Hq].
        + intros ? ? [].
        + split; assumption.
      - now apply (Ha k v). }
    split.
    + intros k. unfold provided.
      destruct (String.eqb_spec k "apiKey") as [->|Hk1].
      * rewrite env_fallback_get_other by discriminate.
        rewrite (env_fallback_value _ _ _ Hall), Hv. reflexivity.
      * destruct (String.eqb_spec k "ownerId") as [->|Hk2].
        -- rewrite (env_fallback_value _ _ _ Hall').
           rewrite env_fallback_get_other by discriminate.
           rewrite Hv. reflexivity.
        -- rewrite env_fallback_get_other, env_fallback_get_other
             by assumption.
           apply Hv.
    + intros k v Hin.
      destruct (env_fallback_invariant (fun _ => True) "ownerId"
                  (RENDER_OWNER_ID process)
                  (env_fallback "apiKey" (RENDER_API_KEY process) parsed) I)
        as [_ Ha].
      * split; [|intros k0 v0 H0; split; [now apply (Hall' k0)|exact I]].
        destruct (env_fallback_invariant (fun _ => True) "apiKey"
                    (RENDER_API_KEY process) parsed I) as [Hnd _]; auto.
        destruct (parse_pairs_invariant fp (fun _ => True) (fun _ _ _ => I)
                    _ _ _ _ Hp (NoDup_nil _)) as [Hnd Hq].
        -- intros ? ? [].
        -- split; assumption.
      * now apply (Ha k v).
Qed.

(** A property of the parsed arguments, as [main] defaults it. *)
Lemma defaulted_property fields k :
  (forall k v, In (k, v) fields -> non_empty_string v) ->
  js_or (optional_chain (JObj fields) k) (JStr "")
  = match get k fields with
    | JUndefined => JStr ""
    | v => v
    end.
Proof.
  intros Hall. unfold optional_chain, js_or. simpl.
  destruct (set_property_truthy k fields Hall) as [E|E]; rewrite E.
  - reflexivity.
  - destruct (get k fields); simpl in *; try discriminate; reflexivity.
Qed.

Lemma report_requests nam run : fst (report nam run) = fst run.
Proof.
  destruct run as [requests [result|e|]]; simpl; auto.
  destruct (truthy (err result)); auto.
  destruct (field (err result) "message"); reflexivity.
Qed.

(** X12: [main] sends a request exactly when the arguments are well
    formed and each of the four properties has a value, from a flag or,
    for [apiKey] and [ownerId], from the environment; the request then
    carries these values. In every other case it sends nothing and calls
    [process.exit(1)]. *)
Theorem service_main_request :
  forall JSON_parse is_url input_error_message nullish_access_message fetch
         process,
    (forall r a s o,
        well_formed service_flag (args_of process) ->
        provided service_flag process "repoName" = JStr r ->
        provided service_flag process "apiKey" = JStr a ->
        provided service_flag process "serviceName" = JStr s ->
        provided service_flag process "ownerId" = JStr o ->
        fst (service_main JSON_parse is_url input_error_message
               nullish_access_message fetch process)
        = [service_request (service_data r a s o)])
    /\ (~ well_formed service_flag (args_of process)
        \/ provided service_flag process "repoName" = JUndefined
        \/ provided service_flag process "apiKey" = JUndefined
        \/ provided service_flag process "serviceName" = JUndefined
        \/ provided service_flag process "ownerId" = JUndefined ->
        fst (service_main JSON_parse is_url input_error_message
               nullish_access_message fetch process) = []
        /\ exit_code (snd (service_main JSON_parse is_url input_error_message
                             nullish_access_message fetch process))
           = Some 1).
Proof.
  intros JSON_parse is_url iem nam fetch process.
  unfold service_main, service_parseArgs.
  destruct (parse_pairs service_flag 0 (args_of process) [])
    as [message|parsed] eqn:Hp.
  - (* the arguments are refused *)
    assert (Hnwf : ~ well_formed service_flag (args_of process)).
    { intros H. apply (parse_pairs_ok_iff service_flag _ 0 []) in H.
      destruct H as [out H]. congruence. }
    assert (E : exists m, parseArgs_with service_flag process
                          = mkEnvelope JNull (JObj [("message", JStr m)])).
    { destruct (parseArgs_cases service_flag process)
        as [[_ E] | [[_ [m [_ E]]] | [parsed [Hp' _]]]];
        [eauto | eauto | congruence]. }
    destruct E as [m E]. rewrite E. simpl.
    split; [intros; contradiction | auto].
  - destruct (parseArgs_ok service_flag process parsed Hp)
      as (fields & E & Hv & Hall).
    assert (Hwf : well_formed service_flag (args_of process)).
    { apply (parse_pairs_ok_iff service_flag _ 0 []). eauto. }
    rewrite E. simpl truthy. cbv iota. simpl res.
    rewrite !(defaulted_property fields _ Hall), !Hv, report_requests.
    split.
    + intros r a s o _ Hr Ha Hs Ho. rewrite Hr, Ha, Hs, Ho.
      assert (Hne : forall k x, provided service_flag process k = JStr x ->
                                x <> "").
      { intros k x Hk. rewrite <- Hv in Hk.
        destruct (set_property_truthy k fields Hall) as [U|T].
        - congruence.
        - rewrite Hk in T. now apply truthy_string. }
      rewrite (createRenderService_valid JSON_parse is_url iem nam fetch
                 _ r a s o); [reflexivity|].
      eexists. split; [reflexivity|].
      repeat split; try reflexivity; eauto.
    + intros H.
      assert (Hbad : forall r a s o,
                 ~ service_input
                     (JObj
                        [("repoName",
                          match provided service_flag process "repoName" with
                          | JUndefined => JStr ""
                          | v => v
                          end);
                         ("serviceName",
                          match provided service_flag process "serviceName"
                          with
                          | JUndefined => JStr ""
                          | v => v
                          end);
                         ("apiKey",
                          match provided service_flag process "apiKey" with
                          | JUndefined => JStr ""
                          | v => v
                          end);
                         ("ownerId",
                          match provided service_flag process "ownerId" with
                          | JUndefined => JStr ""
                          | v => v
                          end)]) r a s o).
      { intros r a s o (fields' & E' & Hr & Hr' & Ha & Ha' & Hs & Hs'
                        & Ho & Ho').
        inversion E'; subst fields'; clear E'.
        destruct H as [H|[H|[H|[H|H]]]]; [contradiction| | | |].
        - rewrite H in Hr. compute in Hr. congruence.
        - rewrite H in Ha. compute in Ha. congruence.
        - rewrite H in Hs. compute in Hs. congruence.
        - rewrite H in Ho. compute in Ho. congruence. }
      rewrite (createRenderService_invalid JSON_parse is_url iem nam fetch
                 _ Hbad).
      split; reflexivity.
Qed.

Lemma service_main_request_witness :
  fst (sample_service_main
         (mkProcess ["--repo"; "me/api"; "--service"; "api"]
                    (Some "rnd_ok") (Some "tea-1")))
  = [service_request (service_data "me/api" "rnd_ok" "api" "tea-1")]
  /\ (fst (sample_service_main
             (mkProcess ["--repo"; "me/api"; "--service"; "api"]
                        (Some "rnd_ok") None)) = []
      /\ exit_code (snd (sample_service_main
                           (mkProcess ["--repo"; "me/api"; "--service"; "api"]
                                      (Some "rnd_ok") None)))
         = Some 1).
Proof.
  split.
  - apply (proj1 (service_main_request
                    sample_JSON_parse sample_is_url
                    sample_input_error_message jsc_nullish_access_message
                    sample_fetch
                    (mkProcess ["--repo"; "me/api"; "--service"; "api"]
                               (Some "rnd_ok") (Some "tea-1")))).
    + simpl. repeat split; discriminate.
    + reflexivity.
    + reflexivity.
    + reflexivity.
    + reflexivity.
  - apply (proj2 (service_main_request
                    sample_JSON_parse sample_is_url
                    sample_input_error_message jsc_nullish_access_message
                    sample_fetch
                    (mkProcess ["--repo"; "me/api"; "--service"; "api"]
                               (Some "rnd_ok") None))).
    right. right. right. right. reflexivity.
Defined.

(** ** The [/users] route *)

Section RouteRuns.

Variable msg : Value -> string -> string.
Variable params : BuildFunctionContextReq.

(** [execute] never completes abruptly. *)
Lemma execute_never_abrupt input s e :
  fst (execute msg params input s) <> Abrupt e.
Proof.
  destruct (safeParse (inputSchema params) input) as [data|] eqn:Hin.
  - rewrite (execute_valid_input msg params input data s Hin).
    apply try_never_abrupt.
  - rewrite (execute_invalid_input msg params input s Hin). discriminate.
Qed.

(** A [POST] whose body parses runs the contract and maps its envelope
    to a reply. *)
Lemma users_route_post req body s :
  method req = "POST" ->
  json req = Normal body ->
  users_route (buildFunctionContext msg params) req s
  = match execute msg params body s with
    | (Normal result, s') =>
        (Normal (if truthy (err result) then mkReply 400 (err result)
                 else mkReply 201 (res result)), s')
    | (Abrupt e, s') => (Normal (mkReply 400 (error_of "Invalid JSON")), s')
    | (Suspended, s') => (Suspended, s')
    end.
Proof.
  intros Hm Hj. unfold users_route, try_catch, bind, lift, ret.
  rewrite Hm, Hj. simpl.
  destruct (execute msg params body s) as [[result|e|] s']; simpl; auto.
  destruct (truthy (err result)); reflexivity.
Qed.

End RouteRuns.

(** X13: for any contract, the route never throws and answers 201, 400
    or 405; it answers 405 exactly when the method is not [POST] ([GET]
    included), and then, as for a [POST] whose body is not JSON (answered
    400 "Invalid JSON"), it makes no call to the contract. *)
Theorem users_route_replies :
  forall msg params req s,
    (forall e,
        fst (users_route (buildFunctionContext msg params) req s) <> Abrupt e)
    /\ (forall reply,
           fst (users_route (buildFunctionContext msg params) req s)
           = Normal reply ->
           (reply_status reply = 201 \/ reply_status reply = 400
            \/ reply_status reply = 405)
           /\ (reply_status reply = 405 <-> method req <> "POST"))
    /\ (method req <> "POST" ->
        users_route (buildFunctionContext msg params) req s
        = (Normal (mkReply 405 (JObj [("message", JStr "Method Not Allowed")])),
           s))
    /\ (forall e,
           method req = "POST" -> json req = Abrupt e ->
           users_route (buildFunctionContext msg params) req s
           = (Normal (mkReply 400 (JObj [("message", JStr "Invalid JSON")])),
              s)).
Proof.
  intros msg params req s.
  assert (Hother : method req <> "POST" ->
            users_route (buildFunctionContext msg params) req s
            = (Normal (mkReply 405 (error_of "Method Not Allowed")), s)).
  { intros H. unfold users_route.
    destruct (String.eqb_spec (method req) "POST"); [contradiction|].
    reflexivity. }
  assert (Hjson : forall e, method req = "POST" -> json req = Abrupt e ->
            users_route (buildFunctionContext msg params) req s
            = (Normal (mkReply 400 (error_of "Invalid JSON")), s)).
  { intros e Hm Hj. unfold users_route, try_catch, bind, lift, ret.
    rewrite Hm, Hj. reflexivity. }
  split; [|split; [|split; [exact Hother | exact Hjson]]].
  - intros e.
    destruct (String.eqb_spec (method req) "POST") as [Hm|Hm].
    + destruct (json req) as [body|e'|] eqn:Hj.
      * rewrite (users_route_post msg params req body s Hm Hj).
        destruct (execute msg params body s) as [[result|e'|] s'];
          discriminate.
      * rewrite (Hjson e' Hm eq_refl). discriminate.
      * unfold users_route, try_catch, bind, lift.
        rewrite Hm, Hj. discriminate.
    + rewrite (Hother Hm). discriminate.
  - intros reply.
    destruct (String.eqb_spec (method req) "POST") as [Hm|Hm].
    + destruct (json req) as [body|e'|] eqn:Hj.
      * rewrite (users_route_post msg params req body s Hm Hj).
        destruct (execute msg params body s) as [[result|e'|] s'];
          simpl; try discriminate.
        -- destruct (truthy (err result)); intros E; inversion E; simpl;
             (split; [auto | split; [discriminate | congruence]]).
        -- intros E; inversion E; simpl.
           split; [auto | split; [discriminate | congruence]].
      * rewrite (Hjson e' Hm eq_refl). intros E; inversion E; simpl.
        split; [auto | split; [discriminate | congruence]].
      * unfold users_route, try_catch, bind, lift.
        rewrite Hm, Hj. discriminate.
    + rewrite (Hother Hm). intros E; inversion E; simpl.
      split; [auto | split; auto].
Qed.

Lemma users_route_replies_witness :
  users_route sample_users (mkHttpRequest "GET" (Normal JNull)) sample_store
  = (Normal (mkReply 405 (JObj [("message", JStr "Method Not Allowed")])),
     sample_store)
  /\ users_route sample_users
       (mkHttpRequest "POST" (Abrupt (ErrorInstance "Unexpected token")))
       sample_store
     = (Normal (mkReply 400 (JObj [("message", JStr "Invalid JSON")])),
        sample_store).
Proof.
  split.
  - apply (proj1 (proj2 (proj2 (users_route_replies
             jsc_nullish_access_message
             (createUser_params jsc_nullish_access_message sample_insert_user)
             (mkHttpRequest "GET" (Normal JNull)) sample_store)))).
    discriminate.
  - apply (proj2 (proj2 (proj2 (users_route_replies
             jsc_nullish_access_message
             (createUser_params jsc_nullish_access_message sample_insert_user)
             (mkHttpRequest "POST" (Abrupt (ErrorInstance "Unexpected token")))
             sample_store)))
             (ErrorInstance "Unexpected token")); reflexivity.
Defined.

Lemma user_body_accepted msg q body name :
  user_body body name ->
  safeParse (inputSchema (createUser_params msg q)) body
  = Success (JObj [("name", JStr name)]).
Proof.
  intros (fields & -> & Hn & Hne). apply min_1_true in Hne.
  simpl. rewrite Hn, Hne. reflexivity.
Qed.

Lemma user_body_rejected msg q body :
  (forall name, ~ user_body body name) ->
  safeParse (inputSchema (createUser_params msg q)) body = Failure.
Proof.
  intros H.
  destruct (safeParse (inputSchema (createUser_params msg q)) body)
    as [data|] eqn:E; [exfalso | reflexivity].
  simpl in E. destruct body as [| | | | |fields]; try discriminate.
  destruct (get "name" fields) as [| | | |n|] eqn:Hn; try discriminate.
  destruct (min_1 n) eqn:Hne; try discriminate.
  apply min_1_true in Hne. apply (H n). exists fields. auto.
Qed.

Lemma createUser_execution_valid msg q name :
  execution (createUser_params msg q) (JObj [("name", JStr name)]) errorCreator
  = match q (JStr name) with
    | QueryReturns first => Resolves (JObj [("res", first); ("err", JNull)])
    | QueryFails e =>
        Resolves (JObj [("res", JNull);
                        ("err", errorCreator (thrown_message e))])
    | QueryPending => NeverSettles
    end.
Proof. reflexivity. Qed.

(** X14: a [POST] whose body is not an object with a non-empty string
    [name] is answered 400 "Invalid input", and the handler, hence the
    database, is not reached. *)
Theorem createUser_route_invalid_body :
  forall msg insert_user req body s,
    method req = "POST" ->
    json req = Normal body ->
    (forall name, ~ user_body body name) ->
    fst (users_route (createUser msg insert_user) req s)
    = Normal (mkReply 400 (JObj [("message", JStr "Invalid input")]))
    /\ invocations (calls_of (users_route (createUser msg insert_user) req) s)
       = [].
Proof.
  intros msg q req body s Hm Hj Hbad.
  unfold createUser, calls_of.
  rewrite (users_route_post msg _ req body s Hm Hj).
  rewrite (execute_invalid_input msg _ body s (user_body_rejected msg q _ Hbad)).
  simpl. split; [reflexivity|].
  rewrite skipn_length_app. reflexivity.
Qed.

Lemma createUser_route_invalid_body_witness :
  fst (users_route sample_users
         (mkHttpRequest "POST" (Normal (JObj [("name", JStr "")])))
         sample_store)
  = Normal (mkReply 400 (JObj [("message", JStr "Invalid input")]))
  /\ invocations
       (calls_of (users_route sample_users
                    (mkHttpRequest "POST" (Normal (JObj [("name", JStr "")]))))
          sample_store) = [].
Proof.
  apply (createUser_route_invalid_body jsc_nullish_access_message
           sample_insert_user
           (mkHttpRequest "POST" (Normal (JObj [("name", JStr "")])))
           (JObj [("name", JStr "")]) sample_store eq_refl eq_refl).
  intros name (fields & E & Hn & Hne). inversion E; subst fields.
  compute in Hn. congruence.
Defined.

(** X15: a [POST] with a valid [name] whose insertion returns a row with
    a numeric [id] and a string [name] is answered 201 with exactly
    [{ id, name }]: the other columns of the row are not sent. *)
Theorem createUser_route_created :
  forall msg insert_user req body s name row id stored,
    method req = "POST" ->
    json req = Normal body ->
    user_body body name ->
    insert_user (JStr name) = QueryReturns (JObj row) ->
    get "id" row = JNum id ->
    get "name" row = JStr stored ->
    fst (users_route (createUser msg insert_user) req s)
    = Normal (mkReply 201 (JObj [("id", JNum id); ("name", JStr stored)])).
Proof.
  intros msg q req body s name row id stored Hm Hj Hb Hq Hid Hname.
  unfold createUser.
  rewrite (users_route_post msg _ req body s Hm Hj).
  rewrite (execute_valid_input msg _ body _ s (user_body_accepted msg q _ _ Hb)).
  rewrite (try_success_branch msg _ _ _
             (JObj [("res", JObj row); ("err", JNull)]) (JObj row));
    try reflexivity.
  - simpl. rewrite Hid, Hname. reflexivity.
  - rewrite createUser_execution_valid, Hq. reflexivity.
Qed.

Lemma createUser_route_created_witness :
  fst (users_route sample_users
         (mkHttpRequest "POST"
            (Normal (JObj [("name", JStr "ada"); ("admin", JBool true)])))
         sample_store)
  = Normal (mkReply 201 (JObj [("id", JNum 7); ("name", JStr "ada")])).
Proof.
  apply (createUser_route_created jsc_nullish_access_message
           sample_insert_user
           (mkHttpRequest "POST"
              (Normal (JObj [("name", JStr "ada"); ("admin", JBool true)])))
           (JObj [("name", JStr "ada"); ("admin", JBool true)])
           sample_store "ada"
           [("id", JNum 7); ("name", JStr "ada");
            ("created_at", JStr "2025-01-01")] 7 "ada" eq_refl eq_refl).
  - exists [("name", JStr "ada"); ("admin", JBool true)].
    repeat split; try reflexivity. discriminate.
  - reflexivity.
  - reflexivity.
  - reflexivity.
Defined.

(** X16: a [POST] with a valid [name] whose insertion fails is answered
    400 with the message of the failure ("Unknown error" when what was
    thrown is not an [Error]); one whose insertion returns no row, or a
    row the success schema rejects, is answered 400 "Execution returned
    an invalid response object". *)
Theorem createUser_route_failure :
  forall msg insert_user req body s name,
    method req = "POST" ->
    json req = Normal body ->
    user_body body name ->
    (forall e,
        insert_user (JStr name) = QueryFails e ->
        fst (users_route (createUser msg insert_user) req s)
        = Normal (mkReply 400
            (JObj [("message",
                    JStr match e with
                         | ErrorInstance message => message
                         | NotAnError _ => "Unknown error"
                         end)])))
    /\ (forall first,
           insert_user (JStr name) = QueryReturns first ->
           safeParse id_name_schema first = Failure ->
           fst (users_route (createUser msg insert_user) req s)
           = Normal (mkReply 400
               (JObj [("message",
                       JStr "Execution returned an invalid response object")]))).
Proof.
  intros msg q req body s name Hm Hj Hb.
  unfold createUser.
  rewrite (users_route_post msg _ req body s Hm Hj).
  rewrite (execute_valid_input msg _ body _ s (user_body_accepted msg q _ _ Hb)).
  split.
  - intros e Hq.
    rewrite (try_error_branch msg _ _ _
               (JObj [("res", JNull); ("err", errorCreator (thrown_message e))])
               (errorCreator (thrown_message e)));
      try reflexivity; try discriminate.
    rewrite createUser_execution_valid, Hq. reflexivity.
  - intros first Hq Hbad.
    rewrite (try_success_branch msg _ _ _
               (JObj [("res", first); ("err", JNull)]) first);
      try reflexivity.
    + simpl responseSchema. rewrite Hbad. reflexivity.
    + rewrite createUser_execution_valid, Hq. reflexivity.
Qed.

Lemma createUser_route_failure_witness :
  fst (users_route sample_users
         (mkHttpRequest "POST" (Normal (JObj [("name", JStr "taken")])))
         sample_store)
  = Normal (mkReply 400
      (JObj [("message",
              JStr "duplicate key value violates unique constraint")])).
Proof.
  assert (Hb : user_body (JObj [("name", JStr "taken")]) "taken").
  { exists [("name", JStr "taken")]. repeat split; try reflexivity.
    discriminate. }
  apply (proj1 (createUser_route_failure jsc_nullish_access_message
                  sample_insert_user
                  (mkHttpRequest "POST"
                     (Normal (JObj [("name", JStr "taken")])))
                  (JObj [("name", JStr "taken")]) sample_store "taken"
                  eq_refl eq_refl Hb)
           (ErrorInstance "duplicate key value violates unique constraint")).
  reflexivity.
Defined.

(** ** Collecting the text files of a directory *)

(** Induction on a tree, with the entries of a directory as induction
    hypotheses. *)
Lemma Entry_tree_ind (P : Entry -> Prop) :
  (forall name content, P (File name content)) ->
  (forall name, P (Directory name None)) ->
  (forall name entries,
      (forall e, In e entries -> P e) -> P (Directory name (Some entries))) ->
  forall e, P e.
Proof.
  intros HFile HNone HSome.
  fix IH 1.
  intros [name content | name [entries|]].
  - apply HFile.
  - apply HSome.
    induction entries as [|e rest IHrest]; simpl; intros e' Hin.
    + contradiction.
    + pose proof (IH e) as He.
      destruct Hin as [E|Hin].
      * subst e'. exact He.
      * now apply IHrest.
  - apply HNone.
Qed.

(** The loop inside [read_entry] is [read_entries]. *)
Lemma read_entry_directory dir name entries :
  read_entry dir (Directory name (Some entries))
  = if negb (includes name skipped_directories)
    then read_entries (dir ++ [name])%list entries
    else Some [].
Proof.
  simpl. destruct (negb _); [|reflexivity].
  induction entries as [|e rest IH]; simpl; [reflexivity|].
  destruct (read_entry (dir ++ [name])%list e); [|reflexivity].
  rewrite IH. reflexivity.
Qed.

Lemma reaches_cons e listing path file content :
  reaches (e :: listing) path file content
  <-> reaches [e] path file content \/ reaches listing path file content.
Proof.
  split.
  - intros H. inversion H as [? ? ? Hin | ? ? ? ? ? ? Hin Hs Hr]; subst.
    + destruct Hin as [E|Hin]; [subst e|].
      * left. constructor. now left.
      * right. now constructor.
    + destruct Hin as [E|Hin]; [subst e|].
      * left. econstructor; eauto. now left.
      * right. econstructor; eauto.
  - intros [H|H].
    + inversion H as [? ? ? Hin | ? ? ? ? ? ? Hin Hs Hr]; subst.
      * destruct Hin as [E|[]]; subst e. constructor. now left.
      * destruct Hin as [E|[]]; subst e. econstructor; eauto. now left.
    + inversion H as [? ? ? Hin | ? ? ? ? ? ? Hin Hs Hr]; subst.
      * constructor. now right.
      * econstructor; eauto. now right.
Qed.

Lemma blocked_cons e listing :
  blocked (e :: listing) <-> blocked [e] \/ blocked listing.
Proof.
  split.
  - intros H. inversion H as [? ? Hin Ht | ? ? Hin Hs | ? ? ? Hin Hs Hb]; subst.
    + destruct Hin as [E|Hin]; [subst e|].
      * left. eapply blocked_file; eauto. now left.
      * right. eapply blocked_file; eauto.
    + destruct Hin as [E|Hin]; [subst e|].
      * left. eapply blocked_directory; eauto. now left.
      * right. eapply blocked_directory; eauto.
    + destruct Hin as [E|Hin]; [subst e|].
      * left. eapply blocked_below; eauto. now left.
      * right. eapply blocked_below; eauto.
  - intros [H|H];
      inversion H as [? ? Hin Ht | ? ? Hin Hs | ? ? ? Hin Hs Hb]; subst.
    + destruct Hin as [E|[]]; subst e. eapply blocked_file; eauto. now left.
    + destruct Hin as [E|[]]; subst e. eapply blocked_directory; eauto. now left.
    + destruct Hin as [E|[]]; subst e. eapply blocked_below; eauto. now left.
    + eapply blocked_file; eauto. now right.
    + eapply blocked_directory; eauto. now right.
    + eapply blocked_below; eauto. now right.
Qed.

(** What the walk of one entry collects, and when it fails. *)
Definition walk_spec (dir : Path) (listing : list Entry)
    (outcome : option (list (Path * string))) : Prop :=
  match outcome with
  | Some results =>
      ~ blocked listing
      /\ forall q c,
           In (q, c) results
           <-> exists path name,
                 q = (dir ++ path)%list
                 /\ reaches listing path name (Some c)
                 /\ is_text_file name = true
  | None => blocked listing
  end.

Lemma walk_spec_entries dir listing :
  (forall e, In e listing -> forall dir, walk_spec dir [e] (read_entry dir e)) ->
  walk_spec dir listing (read_entries dir listing).
Proof.
  induction listing as [|e rest IH]; intros Hall; simpl.
  - split.
    + intros H. inversion H; contradiction.
    + intros q c. split; [intros [] |].
      intros (path & name & _ & H & _). inversion H; contradiction.
  - pose proof (Hall e (or_introl eq_refl) dir) as He.
    assert (Hrest : walk_spec dir rest (read_entries dir rest)).
    { apply IH. intros e' Hin. apply Hall. now right. }
    destruct (read_entry dir e) as [subFiles|]; simpl in He.
    + destruct (read_entries dir rest) as [results|]; simpl in Hrest; simpl.
      * destruct He as [Hnb He], Hrest as [Hnb' Hrest]. split.
        -- rewrite blocked_cons. tauto.
        -- intros q c. rewrite in_app_iff, He, Hrest. split.
           ++ intros [(path & name & E & H & Ht)|(path & name & E & H & Ht)];
                exists path, name; repeat split; auto;
                apply reaches_cons; auto.
           ++ intros (path & name & E & H & Ht).
              apply reaches_cons in H. destruct H as [H|H];
                [left | right]; eauto.
      * apply blocked_cons. now right.
    + apply blocked_cons. now left.
Qed.

Lemma walk_spec_entry e : forall dir, walk_spec dir [e] (read_entry dir e).
Proof.
  induction e as [name content | name | name entries IH] using Entry_tree_ind;
    intros dir.
  - (* a file *)
    change (read_entry dir (File name content))
      with (if is_text_file name
            then match content with
                 | None => None
                 | Some text => Some [((dir ++ [name])%list, text)]
                 end
            else Some []).
    destruct (is_text_file name) eqn:Ht.
    + destruct content as [text|]; simpl.
      * split.
        -- intros H.
           inversion H as [? ? Hin _ | ? ? Hin _ | ? ? ? Hin _ _]; subst;
             destruct Hin as [E|[]]; discriminate.
        -- intros q c. split.
           ++ intros [E|[]]. inversion E; subst.
              exists [name], name. repeat split; auto.
              constructor. now left.
           ++ intros (path & n & -> & H & _).
              inversion H as [? ? ? Hin | ? ? ? ? ? ? Hin _ _]; subst;
                destruct Hin as [E|[]]; inversion E; subst. now left.
      * eapply blocked_file; eauto. now left.
    + simpl. split.
      * intros H.
        inversion H as [? ? Hin Ht' | ? ? Hin _ | ? ? ? Hin _ _]; subst;
          destruct Hin as [E|[]]; inversion E; subst. congruence.
      * intros q c. split; [intros []|].
        intros (path & n & _ & H & Ht').
        inversion H as [? ? ? Hin | ? ? ? ? ? ? Hin _ _]; subst;
          destruct Hin as [E|[]]; inversion E; subst. congruence.
  - (* a directory that cannot be listed *)
    change (read_entry dir (Directory name None))
      with (if negb (includes name skipped_directories)
            then @None (list (Path * string)) else Some []).
    destruct (includes name skipped_directories) eqn:Hs; simpl.
    + split.
      * intros H.
        inversion H as [? ? Hin _ | ? ? Hin Hs' | ? ? ? Hin _ _]; subst;
          destruct Hin as [E|[]]; inversion E; subst. congruence.
      * intros q c. split; [intros []|].
        intros (path & n & _ & H & _).
        inversion H as [? ? ? Hin | ? ? ? ? ? ? Hin _ _]; subst;
          destruct Hin as [E|[]]; inversion E.
    + eapply blocked_directory; eauto. now left.
  - (* a directory *)
    rewrite read_entry_directory.
    destruct (includes name skipped_directories) eqn:Hs; simpl.
    + split.
      * intros H.
        inversion H as [? ? Hin _ | ? ? Hin _ | ? ? ? Hin Hs' _]; subst;
          destruct Hin as [E|[]]; inversion E; subst. congruence.
      * intros q c. split; [intros []|].
        intros (path & n & _ & H & _).
        inversion H as [? ? ? Hin | ? ? ? ? ? ? Hin Hs' _]; subst;
          destruct Hin as [E|[]]; inversion E; subst. congruence.
    + pose proof (walk_spec_entries (dir ++ [name])%list entries IH) as Hsub.
      destruct (read_entries (dir ++ [name])%list entries) as [results|];
        simpl in Hsub; simpl.
      * destruct Hsub as [Hnb Hsub]. split.
        -- intros H.
           inversion H as [? ? Hin _ | ? ? Hin _ | ? ? ? Hin _ Hb]; subst;
             destruct Hin as [E|[]]; inversion E; subst. contradiction.
        -- intros q c. rewrite Hsub. split.
           ++ intros (path & n & -> & H & Ht).
              exists (name :: path), n. repeat split; auto.
              ** rewrite <- app_assoc. reflexivity.
              ** econstructor; eauto. now left.
           ++ intros (path & n & -> & H & Ht).
              inversion H as [? ? ? Hin | ? ? ? ? ? ? Hin _ Hr]; subst;
                destruct Hin as [E|[]]; inversion E; subst.
              exists path0, n. repeat split; auto.
              rewrite <- app_assoc. reflexivity.
      * eapply blocked_below; eauto. now left.
Qed.

(** X17: when the walk succeeds it returns exactly the files with a text
    extension that lie below the directory with no skipped directory
    ([.git], [node_modules], [dist], [build], [logs]) on the way, each
    with its path and content. *)
Theorem readFilesInDirectory_collects :
  forall dir listing results,
    readFilesInDirectory dir (Some listing) = Some results ->
    forall q c,
      In (q, c) results
      <-> exists path name,
            q = (dir ++ path)%list
            /\ reaches listing path name (Some c)
            /\ is_text_file name = true.
Proof.
  intros dir listing results H.
  pose proof (walk_spec_entries dir listing
                (fun e _ => walk_spec_entry e)) as Hs.
  simpl in H. rewrite H in Hs. exact (proj2 Hs).
Qed.

Lemma readFilesInDirectory_collects_witness :
  In (["src"; "index.ts"], "serve()")
     [(["README.MD"], "# api"); (["src"; "index.ts"], "serve()")]
  <-> exists path name,
        ["src"; "index.ts"] = ([] ++ path)%list
        /\ reaches sample_project path name (Some "serve()")
        /\ is_text_file name = true.
Proof.
  apply (readFilesInDirectory_collects [] sample_project
           [(["README.MD"], "# api"); (["src"; "index.ts"], "serve()")]).
  reflexivity.
Defined.

(** X18: the walk fails exactly when a text file it reaches cannot be
    read or a directory it reaches cannot be listed; what lies in a
    skipped directory, and files without a text extension, never make it
    fail. *)
Theorem readFilesInDirectory_fails_iff_blocked :
  forall dir listing,
    readFilesInDirectory dir (Some listing) = None <-> blocked listing.
Proof.
  intros dir listing.
  pose proof (walk_spec_entries dir listing
                (fun e _ => walk_spec_entry e)) as Hs.
  simpl. destruct (read_entries dir listing) as [results|]; simpl in Hs.
  - split; [discriminate | intros H; destruct Hs as [Hnb _]; contradiction].
  - split; auto.
Qed.

Lemma no_dot_no_suffix rest :
  ~ In "."%char (list_ascii_of_string rest) -> from_last_dot rest = None.
Proof.
  induction rest as [|c rest IH]; simpl; intros H; [reflexivity|].
  rewrite IH by tauto.
  destruct (Ascii.eqb_spec c "."%char) as [->|Hne]; [|reflexivity].
  exfalso. apply H. now left.
Qed.

(** X19: a name with no dot after its first character has no extension
    and is never collected: this holds for [Makefile] and also for
    [.env], although [.env] is in the list of extensions. *)
Theorem dot_files_are_not_collected :
  forall c rest,
    ~ In "."%char (list_ascii_of_string rest) ->
    extname (String c rest) = "" /\ is_text_file (String c rest) = false.
Proof.
  intros c rest H. unfold is_text_file, extname.
  rewrite (no_dot_no_suffix rest H). split; reflexivity.
Qed.

Lemma dot_files_are_not_collected_witness :
  extname ".env" = "" /\ is_text_file ".env" = false.
Proof.
  apply (dot_files_are_not_collected "."%char "env").
  simpl. intros [H|[H|[H|[]]]]; discriminate.
Defined.

Lemma assign_same k v fields :
  lookup k fields = Some v -> assign k v fields = fields.
Proof.
  induction fields as [|[k' x] rest IH]; simpl; try discriminate.
  destruct (String.eqb_spec k k') as [->|Hne].
  - intros H. inversion H. reflexivity.
  - intros H. now rewrite IH.
Qed.

Lemma to_record_app a b acc :
  to_record (a ++ b) acc = to_record b (to_record a acc).
Proof.
  revert acc. induction a as [|[p c] a IH]; intros acc; simpl; auto.
Qed.

Lemma to_record_lookup_other k files : forall acc,
  ~ In k (map (fun f => relative (fst f)) files) ->
  lookup k (to_record files acc) = lookup k acc.
Proof.
  induction files as [|[p c] rest IH]; intros acc H; simpl; [reflexivity|].
  rewrite IH.
  - apply lookup_assign_other. intros E. apply H. left. now symmetry.
  - intros Hin. apply H. now right.
Qed.

Lemma to_record_lookup files : forall acc p c,
  NoDup (map (fun f => relative (fst f)) files) ->
  In (p, c) files ->
  lookup (relative p) (to_record files acc) = Some (JStr c).
Proof.
  induction files as [|[p0 c0] rest IH]; intros acc p c Hnd Hin; simpl.
  - contradiction.
  - inversion Hnd as [|? ? Hk Hrest]; subst.
    destruct Hin as [E|Hin].
    + inversion E; subst.
      rewrite to_record_lookup_other by assumption.
      apply lookup_assign_same.
    + now apply IH.
Qed.

Lemma to_record_absorb files : forall acc,
  (forall p c, In (p, c) files -> lookup (relative p) acc = Some (JStr c)) ->
  to_record files acc = acc.
Proof.
  induction files as [|[p c] rest IH]; intros acc H; simpl; [reflexivity|].
  rewrite (assign_same _ _ _ (H p c (or_introl eq_refl))).
  apply IH. intros p' c' Hin. apply H. now right.
Qed.

Lemma read_entries_In dir listing : forall results e,
  read_entries dir listing = Some results ->
  In e listing ->
  exists sub, read_entry dir e = Some sub /\ incl sub results.
Proof.
  induction listing as [|e0 rest IH]; simpl; intros results e H Hin.
  - contradiction.
  - destruct (read_entry dir e0) as [sub0|] eqn:E0; try discriminate.
    destruct (read_entries dir rest) as [results'|] eqn:Er; try discriminate.
    inversion H; subst. destruct Hin as [<-|Hin].
    + exists sub0. split; [assumption | now apply incl_appl, incl_refl].
    + destruct (IH results' e eq_refl Hin) as [sub [Hs Hi]].
      exists sub. split; [assumption | now apply incl_appr].
Qed.

Lemma find_entry_In name listing e :
  find_entry name listing = Some e -> In e listing /\ entry_name e = name.
Proof.
  induction listing as [|e0 rest IH]; simpl; try discriminate.
  destruct (String.eqb_spec (entry_name e0) name) as [E|Hne].
  - intros H. inversion H; subst. split; [now left | reflexivity].
  - intros H. destruct (IH H). split; [now right | assumption].
Qed.

(** X20: [fetchContext] fails when [src] exists and cannot be listed (a
    regular file), even if the walk of the directory succeeds. When the
    walk succeeds, no two collected files have the same relative path and
    [src] is the entry of that name in the listing (a directory proper,
    not a symbolic link to one) or is missing, the record is that of the
    walk alone (the second walk, of [src], adds nothing) and maps the
    relative path of every collected file to its content. When [src] is
    listed by [readdir] without being an entry of the walk (a symbolic
    link to a directory), the record also maps the path below [src] of
    each text file collected there to its content. *)
Theorem fetchContext_record :
  forall listing rootFiles,
    readFilesInDirectory [] (Some listing) = Some rootFiles ->
    fetchContext (Some listing) (SrcExists None) = None
    /\ (NoDup (map (fun f => relative (fst f)) rootFiles) ->
        fetchContext (Some listing) (src_of listing)
        = (if match find_entry "src" listing with
              | Some (File _ _) => true
              | _ => false
              end
           then None
           else Some (to_record rootFiles []))
        /\ forall p c,
             In (p, c) rootFiles ->
             get (relative p) (to_record rootFiles []) = JStr c)
    /\ (forall entries srcFiles,
          readFilesInDirectory ["src"] (Some entries) = Some srcFiles ->
          NoDup (map (fun f => relative (fst f)) (rootFiles ++ srcFiles)) ->
          fetchContext (Some listing) (SrcExists (Some entries))
          = Some (to_record (rootFiles ++ srcFiles) [])
          /\ forall p c,
               In (p, c) (rootFiles ++ srcFiles) ->
               get (relative p) (to_record (rootFiles ++ srcFiles) [])
               = JStr c).
Proof.
  intros listing rootFiles Hroot. split; [|split].
  - unfold fetchContext. rewrite Hroot. reflexivity.
  - intros Hnd. split.
    + unfold fetchContext, src_of. rewrite Hroot.
      destruct (find_entry "src" listing) as [[name content|name entries]|]
        eqn:Hf.
      * reflexivity.
      * destruct (find_entry_In _ _ _ Hf) as [Hin Hname].
        simpl in Hname. subst name. simpl in Hroot.
        destruct (read_entries_In [] listing rootFiles _ Hroot Hin)
          as [sub [Hsub Hincl]].
        destruct entries as [entries|].
        -- rewrite read_entry_directory in Hsub. simpl in Hsub.
           simpl. rewrite Hsub.
           rewrite to_record_app, to_record_absorb; [reflexivity|].
           intros p c Hin'. apply to_record_lookup; auto.
        -- simpl in Hsub. discriminate.
      * simpl. rewrite app_nil_r. reflexivity.
    + intros p c Hin. unfold get.
      now rewrite (to_record_lookup rootFiles [] p c Hnd Hin).
  - intros entries srcFiles Hsrc Hnd. split.
    + unfold fetchContext. rewrite Hroot, Hsrc. reflexivity.
    + intros p c Hin. unfold get.
      now rewrite (to_record_lookup _ [] p c Hnd Hin).
Qed.

Lemma fetchContext_record_witness :
  (fetchContext (Some sample_project) (src_of sample_project)
   = Some (to_record [(["README.MD"], "# api");
                      (["src"; "index.ts"], "serve()")] [])
   /\ forall p c,
        In (p, c) [(["README.MD"], "# api"); (["src"; "index.ts"], "serve()")] ->
        get (relative p)
          (to_record [(["README.MD"], "# api");
                      (["src"; "index.ts"], "serve()")] [])
        = JStr c)
  /\ fetchContext (Some linked_project) linked_src
     = Some [("README.MD", JStr "# api"); ("src/index.ts", JStr "serve()")].
Proof.
  split.
  - apply (proj1 (proj2 (fetchContext_record sample_project
                           [(["README.MD"], "# api");
                            (["src"; "index.ts"], "serve()")]
                           eq_refl))).
    simpl. repeat constructor; simpl.
    + intros [H|[]]. discriminate.
    + intros [].
  - refine (proj1 (proj2 (proj2 (fetchContext_record linked_project
                                   [(["README.MD"], "# api")] eq_refl))
                     [File "index.ts" (Some "serve()"); File "logo.png" None]
                     [(["src"; "index.ts"], "serve()")] eq_refl _)).
    simpl. repeat constructor; simpl.
    + intros [H|[]]. discriminate.
    + intros [].
Defined.

(** ** Creating the database *)

Lemma postgres_input_accepted d a o region plan version :
  d <> "" -> a <> "" -> o <> "" ->
  (region = JUndefined \/ exists s, region = JStr s) ->
  (plan = JUndefined \/ exists s, plan = JStr s) ->
  (version = JUndefined \/ exists s, version = JStr s) ->
  safeParse postgres_InputSchema
    (JObj [("dbName", JStr d); ("apiKey", JStr a); ("ownerId", JStr o);
           ("region", region); ("plan", plan); ("version", version)])
  = Success (postgres_data d a o (or_default region "oregon")
               (or_default plan "free") (or_default version "16")).
Proof.
  intros Hd Ha Ho Hr Hp Hv.
  destruct d as [|cd d]; [contradiction|].
  destruct a as [|ca a]; [contradiction|].
  destruct o as [|co o]; [contradiction|].
  destruct Hr as [->|[r ->]], Hp as [->|[p ->]], Hv as [->|[v ->]];
    reflexivity.
Qed.

(** X21: when the arguments are well formed and give a database name, a
    key and an owner, [main] of the database script sends one request
    that carries them, with the region, plan and version of the flags
    and, for those not given, "oregon", "free" and "16". *)
Theorem postgres_main_request :
  forall JSON_parse input_error_message nullish_access_message fetch
         process d a o,
    well_formed postgres_flag (args_of process) ->
    provided postgres_flag process "dbName" = JStr d ->
    provided postgres_flag process "apiKey" = JStr a ->
    provided postgres_flag process "ownerId" = JStr o ->
    fst (postgres_main JSON_parse input_error_message nullish_access_message
           fetch process)
    = [postgres_request
         (postgres_data d a o
            (or_default (provided postgres_flag process "region") "oregon")
            (or_default (provided postgres_flag process "plan") "free")
            (or_default (provided postgres_flag process "version") "16"))].
Proof.
  intros JSON_parse iem nam fetch process d a o Hwf Hd Ha Ho.
  apply (parse_pairs_ok_iff postgres_flag _ 0 []) in Hwf.
  destruct Hwf as [parsed Hp].
  destruct (parseArgs_ok postgres_flag process parsed Hp)
    as (fields & E & Hv & Hall).
  assert (Hne : forall k x, provided postgres_flag process k = JStr x ->
                            x <> "").
  { intros k x Hk. rewrite <- Hv in Hk.
    destruct (set_property_truthy k fields Hall) as [U|T].
    - congruence.
    - rewrite Hk in T. now apply truthy_string. }
  assert (Hopt : forall k, provided postgres_flag process k = JUndefined
                           \/ exists s, provided postgres_flag process k
                                        = JStr s).
  { intros k. rewrite <- Hv. unfold get.
    destruct (lookup k fields) as [v|] eqn:El; [right | now left].
    destruct (Hall k v (lookup_In _ _ _ El)) as [s [-> _]]. eauto. }
  unfold postgres_main, postgres_parseArgs. rewrite E.
  simpl truthy. cbv iota. simpl res.
  rewrite report_requests.
  rewrite !(defaulted_property fields _ Hall).
  unfold optional_chain. simpl field.
  rewrite !Hv, Hd, Ha, Ho.
  unfold createRenderPostgres.
  rewrite (postgres_input_accepted d a o _ _ _
             (Hne _ _ Hd) (Hne _ _ Ha) (Hne _ _ Ho)
             (Hopt "region") (Hopt "plan") (Hopt "version")).
  reflexivity.
Qed.

Lemma postgres_main_request_witness :
  fst (sample_postgres_main
         (mkProcess ["--name"; "mydb"; "--owner"; "tea-1"; "--plan"; "pro"]
                    (Some "rnd_ok") None))
  = [postgres_request
       (postgres_data "mydb" "rnd_ok" "tea-1"
          (JStr "oregon") (JStr "pro") (JStr "16"))].
Proof.
  apply (postgres_main_request sample_JSON_parse sample_input_error_message
           jsc_nullish_access_message sample_fetch
           (mkProcess ["--name"; "mydb"; "--owner"; "tea-1"; "--plan"; "pro"]
                      (Some "rnd_ok") None)
           "mydb" "rnd_ok" "tea-1").
  - simpl. repeat split; discriminate.
  - reflexivity.
  - reflexivity.
  - reflexivity.
Defined.

Lemma js_or_string v :
  truthy v = false \/ (exists s, v = JStr s) ->
  exists x, js_or v (JStr "") = JStr x.
Proof.
  unfold js_or. intros [H|[s ->]].
  - rewrite H. eauto.
  - destruct (truthy (JStr s)); eauto.
Qed.

(** One member that fails its schema fails the object. *)
Lemma parse_members_fails fields k member : forall shape,
  In (k, member) shape ->
  safeParse member (get k fields) = Failure ->
  parse_members fields shape = None.
Proof.
  induction shape as [|[k' member'] rest IH]; simpl; intros Hin Hf.
  - contradiction.
  - destruct Hin as [E|Hin].
    + inversion E; subst. rewrite Hf. reflexivity.
    + rewrite (IH Hin Hf).
      destruct (safeParse member' (get k' fields)); reflexivity.
Qed.

Lemma object_schema_fails shape fields k member :
  In (k, member) shape ->
  safeParse member (get k fields) = Failure ->
  safeParse (object_schema shape) (JObj fields) = Failure.
Proof.
  intros Hin Hf. unfold object_schema. cbn [safeParse].
  now rewrite (parse_members_fails fields k member shape Hin Hf).
Qed.

(** [z.string()] fails on a truthy value that is not a string, and [||]
    keeps such a value. *)
Lemma truthy_non_string_rejected v :
  truthy v = true -> (forall s, v <> JStr s) ->
  safeParse (zod ZString) (js_or v (JStr "")) = Failure.
Proof.
  intros Ht Hn. unfold js_or. rewrite Ht.
  destruct v; try reflexivity. now elim (Hn s).
Qed.

(** X22: for an [ok] response whose [postgres] object has a string [id]
    and [name], whatever else the object holds: when each of the three
    connection properties the script reads ([externalConnectionString],
    [internalConnectionString], [psqlCommand]) is a string or is falsy
    (absent, [null], [0], [false]), the database script reports success,
    and each connection string is the one of the response, or the empty
    string for a falsy one; when one of the three is truthy and not a
    string, it reports "Invalid response structure from Render API". *)
Theorem createRenderPostgres_connection_defaults :
  forall JSON_parse input_error_message nullish_access_message fetch
         input data response responseText body postgres id name,
    safeParse postgres_InputSchema input = Success data ->
    fetch (postgres_request data) = FetchResolves response ->
    ok response = true ->
    text response = Normal responseText ->
    JSON_parse responseText = Some (JObj body) ->
    get "postgres" body = JObj postgres ->
    get "id" postgres = JStr id ->
    get "name" postgres = JStr name ->
    ((forall k, In k connection_keys ->
                truthy (get k postgres) = false
                \/ exists s, get k postgres = JStr s) ->
     snd (createRenderPostgres JSON_parse input_error_message
            nullish_access_message fetch input)
     = Fulfilled
         (mkEnvelope
            (JObj [("id", JStr id); ("name", JStr name);
                   ("connectionInfo",
                    JObj [("externalConnectionString",
                           js_or (get "externalConnectionString" postgres)
                                 (JStr ""));
                          ("internalConnectionString",
                           js_or (get "internalConnectionString" postgres)
                                 (JStr ""));
                          ("psqlCommand",
                           js_or (get "psqlCommand" postgres) (JStr ""))])])
            JNull))
    /\ ((exists k, In k connection_keys
                   /\ truthy (get k postgres) = true
                   /\ forall s, get k postgres <> JStr s) ->
        snd (createRenderPostgres JSON_parse input_error_message
               nullish_access_message fetch input)
        = Fulfilled
            (mkEnvelope JNull
               (error_of "Invalid response structure from Render API"))).
Proof.
  intros JSON_parse iem nam fetch input data response t body P id name
    Hin Hf Hok Ht Hj Hp Hid Hname.
  assert (E : snd (createRenderPostgres JSON_parse iem nam fetch input)
              = promise_of
                  (match safeParse postgres_ResponseSchema
                           (JObj [("id", JStr id); ("name", JStr name);
                                  ("connectionInfo",
                                   JObj [("externalConnectionString",
                                          js_or (get "externalConnectionString" P)
                                                (JStr ""));
                                         ("internalConnectionString",
                                          js_or (get "internalConnectionString" P)
                                                (JStr ""));
                                         ("psqlCommand",
                                          js_or (get "psqlCommand" P)
                                                (JStr ""))])]) with
                   | Failure =>
                       Normal (mkEnvelope JNull
                                 (error_of
                                    "Invalid response structure from Render API"))
                   | Success parsedResponse_data =>
                       Normal (mkEnvelope parsedResponse_data JNull)
                   end)).
  { unfold createRenderPostgres. rewrite Hin. simpl snd. rewrite Hf.
    unfold postgres_try, and_then. rewrite Ht, Hok, Hj. simpl negb. cbv iota.
    unfold postgres_of_data, read, and_then. simpl field.
    rewrite Hp. simpl truthy. cbv iota. simpl field.
    rewrite Hid, Hname.
    destruct (safeParse postgres_ResponseSchema _); reflexivity. }
  rewrite E. split.
  - intros Hstr.
    destruct (js_or_string _ (Hstr "externalConnectionString"
                                (or_introl eq_refl))) as [e ->].
    destruct (js_or_string _ (Hstr "internalConnectionString"
                                (or_intror (or_introl eq_refl)))) as [i ->].
    destruct (js_or_string _ (Hstr "psqlCommand"
                                (or_intror (or_intror (or_introl eq_refl)))))
      as [p ->].
    reflexivity.
  - intros [k [Hk [Htr Hns]]].
    pose proof (truthy_non_string_rejected _ Htr Hns) as Hrej.
    assert (Hinner :
              safeParse
                (object_schema [("externalConnectionString", zod ZString);
                                ("internalConnectionString", zod ZString);
                                ("psqlCommand", zod ZString)])
                (JObj [("externalConnectionString",
                        js_or (get "externalConnectionString" P) (JStr ""));
                       ("internalConnectionString",
                        js_or (get "internalConnectionString" P) (JStr ""));
                       ("psqlCommand",
                        js_or (get "psqlCommand" P) (JStr ""))])
              = Failure).
    { apply (object_schema_fails _ _ k (zod ZString)).
      - simpl in Hk. simpl.
        destruct Hk as [<-|[<-|[<-|[]]]]; auto.
      - simpl in Hk.
        destruct Hk as [<-|[<-|[<-|[]]]]; exact Hrej. }
    unfold postgres_ResponseSchema.
    erewrite (object_schema_fails _ _ "connectionInfo").
    + reflexivity.
    + simpl. right. right. left. reflexivity.
    + exact Hinner.
Qed.

Lemma createRenderPostgres_connection_defaults_witness :
  snd (createRenderPostgres sample_JSON_parse sample_input_error_message
         jsc_nullish_access_message (answering database_body)
         (JObj [("dbName", JStr "mydb"); ("apiKey", JStr "rnd_ok");
                ("ownerId", JStr "tea-1")]))
  = Fulfilled
      (mkEnvelope
         (JObj [("id", JStr "dpg-1"); ("name", JStr "mydb");
                ("connectionInfo",
                 JObj [("externalConnectionString",
                        JStr "postgres://mydb.oregon-postgres.render.com/mydb");
                       ("internalConnectionString", JStr "");
                       ("psqlCommand", JStr "")])])
         JNull)
  /\ snd (createRenderPostgres sample_JSON_parse sample_input_error_message
            jsc_nullish_access_message (answering numeric_command_body)
            (JObj [("dbName", JStr "mydb"); ("apiKey", JStr "rnd_ok");
                   ("ownerId", JStr "tea-1")]))
     = Fulfilled
         (mkEnvelope JNull
            (error_of "Invalid response structure from Render API")).
Proof.
  split.
  - apply (proj1 (createRenderPostgres_connection_defaults
             sample_JSON_parse sample_input_error_message
             jsc_nullish_access_message (answering database_body)
             (JObj [("dbName", JStr "mydb"); ("apiKey", JStr "rnd_ok");
                    ("ownerId", JStr "tea-1")])
             (postgres_data "mydb" "rnd_ok" "tea-1"
                (JStr "oregon") (JStr "free") (JStr "16"))
             (mkHttpResponse 201 "Created" (Normal database_body))
             database_body
             [("postgres",
               JObj [("id", JStr "dpg-1"); ("name", JStr "mydb");
                     ("diskSizeGB", JNum 1);
                     ("highAvailabilityEnabled", JBool false);
                     ("owner", JObj [("id", JStr "tea-1")]);
                     ("externalConnectionString",
                      JStr "postgres://mydb.oregon-postgres.render.com/mydb");
                     ("internalConnectionString", JNull)])]
             [("id", JStr "dpg-1"); ("name", JStr "mydb");
              ("diskSizeGB", JNum 1);
              ("highAvailabilityEnabled", JBool false);
              ("owner", JObj [("id", JStr "tea-1")]);
              ("externalConnectionString",
               JStr "postgres://mydb.oregon-postgres.render.com/mydb");
              ("internalConnectionString", JNull)]
             "dpg-1" "mydb"
             eq_refl eq_refl eq_refl eq_refl eq_refl eq_refl eq_refl eq_refl)).
    intros k [<-|[<-|[<-|[]]]].
    + right. eexists. reflexivity.
    + left. reflexivity.
    + left. reflexivity.
  - apply (proj2 (createRenderPostgres_connection_defaults
             sample_JSON_parse sample_input_error_message
             jsc_nullish_access_message (answering numeric_command_body)
             (JObj [("dbName", JStr "mydb"); ("apiKey", JStr "rnd_ok");
                    ("ownerId", JStr "tea-1")])
             (postgres_data "mydb" "rnd_ok" "tea-1"
                (JStr "oregon") (JStr "free") (JStr "16"))
             (mkHttpResponse 201 "Created" (Normal numeric_command_body))
             numeric_command_body
             [("postgres",
               JObj [("id", JStr "dpg-1"); ("name", JStr "mydb");
                     ("psqlCommand", JNum 5)])]
             [("id", JStr "dpg-1"); ("name", JStr "mydb");
              ("psqlCommand", JNum 5)]
             "dpg-1" "mydb"
             eq_refl eq_refl eq_refl eq_refl eq_refl eq_refl eq_refl eq_refl)).
    exists "psqlCommand". split; [|split].
    + simpl. auto.
    + reflexivity.
    + intros s. discriminate.
Defined.

(** ** The call to the inference server *)

Lemma prefix_app p s : String.prefix p (p ++ s) = true.
Proof.
  induction p as [|c p IH]; simpl.
  - destruct s; reflexivity.
  - destruct (Ascii.ascii_dec c c); [exact IH | contradiction].
Qed.

Ltac wrapped_error :=
  let E := fresh "E" in
  intros E; inversion E; eexists; split; [reflexivity|];
  left; apply (prefix_app "Failed to communicate with Ollama: ").

(** X23: [sendToOllama] resolves only with the [message.content] of the
    JSON body of a response with a status from 200 to 299. For any other
    status it rejects, without reading the body, with the message
    "Failed to communicate with Ollama: HTTP error! status: <status>".
    Every rejection carries an [Error]; its message starts with "Failed
    to communicate with Ollama: " unless what [fetch] or the body read
    threw is [null] or [undefined]. *)
Theorem sendToOllama_outcomes :
  forall JSON_parse syntax_error_message nullish_access_message fetch
         messages model,
    let request :=
      ollama_request messages (match model with
                               | Some m => m
                               | None => "qwen2.5-coder:14b"
                               end) in
    let outcome :=
      sendToOllama JSON_parse syntax_error_message nullish_access_message
        fetch messages model in
    (forall content,
        outcome = Fulfilled content ->
        exists response body data message,
          fetch request = FetchResolves response
          /\ ok response = true
          /\ text response = Normal body
          /\ JSON_parse body = Some data
          /\ field data "message" = Some message
          /\ field message "content" = Some content)
    /\ (forall response,
           fetch request = FetchResolves response ->
           ok response = false ->
           outcome
           = Rejected
               (ErrorInstance
                  ("Failed to communicate with Ollama: HTTP error! status: "
                   ++ decimal (status response))))
    /\ (forall e,
           outcome = Rejected e ->
           exists m,
             e = ErrorInstance m
             /\ (String.prefix "Failed to communicate with Ollama: " m = true
                 \/ fetch request = FetchRejects (NotAnError JNull)
                 \/ fetch request = FetchRejects (NotAnError JUndefined)
                 \/ exists response,
                      fetch request = FetchResolves response
                      /\ (text response = Abrupt (NotAnError JNull)
                          \/ text response = Abrupt (NotAnError JUndefined)))).
Proof.
  intros JSON_parse sem nam fetch messages model request outcome.
  subst outcome. unfold sendToOllama. fold request.
  unfold sendToOllama_try. fold request.
  assert (Hcatch : forall e0 e,
            promise_of (sendToOllama_catch nam e0) = Rejected e ->
            exists m,
              e = ErrorInstance m
              /\ (String.prefix "Failed to communicate with Ollama: " m = true
                  \/ e0 = NotAnError JNull \/ e0 = NotAnError JUndefined)).
  { intros e0 e. destruct e0 as [m0|v]; simpl.
    - intros H. inversion H. eexists. split; [reflexivity|].
      left. apply (prefix_app "Failed to communicate with Ollama: ").
    - destruct v; simpl; intros H; inversion H; eexists;
        (split; [reflexivity|]); auto;
        left; apply (prefix_app "Failed to communicate with Ollama: "). }
  assert (Hnever : forall e0 content,
            promise_of (sendToOllama_catch nam e0) <> Fulfilled content).
  { intros e0 content. destruct e0 as [m0|v]; simpl; [discriminate|].
    destruct (field v "message"); discriminate. }
  split; [|split].
  - (* fulfilled *)
    intros content.
    destruct (fetch request) as [response|e0|] eqn:Hf; simpl;
      [| intros E; now apply Hnever in E | discriminate].
    destruct (ok response) eqn:Hok; simpl; [|discriminate].
    destruct (text response) as [body|e0|] eqn:Ht; simpl;
      [| intros E; now apply Hnever in E | discriminate].
    destruct (JSON_parse body) as [data|] eqn:Hj; simpl; [|discriminate].
    unfold read.
    destruct (field data "message") as [message|] eqn:Hm; simpl;
      [|discriminate].
    destruct (field message "content") as [c|] eqn:Hc; simpl; [|discriminate].
    intros E. inversion E; subst c.
    exists response, body, data, message. auto 10.
  - (* a status that is not ok *)
    intros response Hf Hok. rewrite Hf, Hok. reflexivity.
  - (* rejected *)
    intros e.
    destruct (fetch request) as [response|e0|] eqn:Hf; simpl;
      [| | discriminate].
    + destruct (ok response) eqn:Hok; simpl.
      * destruct (text response) as [body|e0|] eqn:Ht; simpl;
          [| | discriminate].
        -- destruct (JSON_parse body) as [data|] eqn:Hj; simpl;
             [|wrapped_error].
           unfold read.
           destruct (field data "message") as [message|] eqn:Hm; simpl;
             [|wrapped_error].
           destruct (field message "content") as [c|] eqn:Hc; simpl;
             [discriminate | wrapped_error].
        -- intros E. destruct (Hcatch e0 e E) as [m [-> [H|[H|H]]]];
             exists m; (split; [reflexivity|]); auto;
             right; right; right; exists response; subst e0; auto.
      * wrapped_error.
    + intros E. destruct (Hcatch e0 e E) as [m [-> [H|[H|H]]]];
        exists m; (split; [reflexivity|]); subst; auto.
Qed.

Lemma sendToOllama_outcomes_witness :
  sendToOllama (fun _ => None) (fun _ => "Unexpected token")
    jsc_nullish_access_message
    (fun _ => FetchResolves
                (mkHttpResponse 500 "Internal Server Error" (Normal "")))
    "hello" None
  = Rejected
      (ErrorInstance
         "Failed to communicate with Ollama: HTTP error! status: 500").
Proof.
  apply (proj1 (proj2 (sendToOllama_outcomes
           (fun _ => None) (fun _ => "Unexpected token")
           jsc_nullish_access_message
           (fun _ => FetchResolves
                       (mkHttpResponse 500 "Internal Server Error"
                          (Normal "")))
           "hello" None))
           (mkHttpResponse 500 "Internal Server Error" (Normal ""))).
  - reflexivity.
  - reflexivity.
Defined.
